(** * Gradient estimators of [pydrobert.torch.estimators]

    A shallow embedding of [src/pydrobert/torch/estimators.py] and the
    properties of its estimators.

    Conventions of the embedding.

    - Tensor entries are real numbers: [torch.log], [torch.exp],
      [torch.sigmoid], [softmax] are the real functions they compute, and
      rounding, infinities and NaN are not represented.
    - Every operation of the module is elementwise or acts along the last
      axis ([dim=-1]).  A tensor of shape [A x B x ... x D] is therefore kept
      as the list of its rows along the last axis, in row-major order
      ([Full]); a tensor with one entry per such row (an index sample, an
      objective value, a log-probability: shape [A x B x ...]) is kept as the
      list of its entries ([Batch]).  Operands must agree on the rows;
      along the last axis a row of one entry is broadcast as torch does.
    - Integer tensors ([long], [uint8]) are tensors whose entries are
      integers; conversions give the converted value.
    - A tensor that is tracked by the differentiation engine carries its
      value as a function of [logits], the only tensor this module
      differentiates against; [detach] forgets it.
    - Exceptions, warnings, draws of the random source and invocations of
      the control variate are effects of a small monad over a [world]. *)

From Stdlib Require Import Reals Lra Lia List String Ascii Bool Arith ZArith.
From Stdlib Require Import ClassicalEpsilon.
Import ListNotations.
Open Scope R_scope.

(** ** Lists *)

Fixpoint map2 {A B C : Type} (f : A -> B -> C) (l1 : list A) (l2 : list B) : list C :=
  match l1, l2 with
  | x :: l1', y :: l2' => f x y :: map2 f l1' l2'
  | _, _ => []
  end.

Fixpoint mapi_from {A B : Type} (i : nat) (f : nat -> A -> B) (l : list A) : list B :=
  match l with
  | [] => []
  | x :: l' => f i x :: mapi_from (S i) f l'
  end.

Definition mapi {A B : Type} (f : nat -> A -> B) (l : list A) : list B :=
  mapi_from 0 f l.

Fixpoint forallb2 {A B : Type} (p : A -> B -> bool) (l1 : list A) (l2 : list B) : bool :=
  match l1, l2 with
  | x :: l1', y :: l2' => p x y && forallb2 p l1' l2'
  | [], [] => true
  | _, _ => false
  end.

Fixpoint set_nth {A : Type} (i : nat) (v : A) (l : list A) : list A :=
  match l, i with
  | [], _ => []
  | _ :: l', O => v :: l'
  | x :: l', S i' => x :: set_nth i' v l'
  end.

Definition Rsum (l : list R) : R := fold_right Rplus 0 l.

(** ** Tensors *)

Inductive tensor : Type :=
| Full (rows : list (list R))
| Batch (xs : list R).

Inductive shape_t : Type :=
| SFull (ds : list nat)
| SBatch (n : nat).

(** [t.shape]: the length of every row, or the number of entries. *)
Definition shape (t : tensor) : shape_t :=
  match t with
  | Full rows => SFull (map (@List.length R) rows)
  | Batch xs => SBatch (List.length xs)
  end.

Definition shape_eqb (s1 s2 : shape_t) : bool :=
  match s1, s2 with
  | SFull d1, SFull d2 => if list_eq_dec Nat.eq_dec d1 d2 then true else false
  | SBatch n1, SBatch n2 => Nat.eqb n1 n2
  | _, _ => false
  end.

Definition tmap (f : R -> R) (t : tensor) : tensor :=
  match t with
  | Full rows => Full (map (map f) rows)
  | Batch xs => Batch (map f xs)
  end.

Definition ones_like (t : tensor) : tensor := tmap (fun _ => 1) t.
Definition zeros_like (t : tensor) : tensor := tmap (fun _ => 0) t.

(** Broadcasting of two rows along the last axis. *)
Definition broadcastable_row (r1 r2 : list R) : bool :=
  Nat.eqb (List.length r1) (List.length r2)
  || Nat.eqb (List.length r1) 1 || Nat.eqb (List.length r2) 1.

Definition bcast_row (f : R -> R -> R) (r1 r2 : list R) : list R :=
  if Nat.eqb (List.length r1) (List.length r2) then map2 f r1 r2
  else if Nat.eqb (List.length r1) 1 then map (f (hd 0 r1)) r2
  else map (fun x => f x (hd 0 r2)) r1.

Definition broadcastable (a b : tensor) : bool :=
  match a, b with
  | Full r1, Full r2 => forallb2 broadcastable_row r1 r2
  | Batch x, Batch y => Nat.eqb (List.length x) (List.length y)
  | _, _ => false
  end.

(** The elementwise kernel of a binary operation, total; the operations
    below guard it with [broadcastable]. *)
Definition tzip (f : R -> R -> R) (a b : tensor) : tensor :=
  match a, b with
  | Full r1, Full r2 => Full (map2 (bcast_row f) r1 r2)
  | Batch x, Batch y => Batch (map2 f x y)
  | _, _ => a
  end.

Definition tsum (t : tensor) : R :=
  match t with
  | Full rows => Rsum (map Rsum rows)
  | Batch xs => Rsum xs
  end.

(** Entry [j] of row [i] ([j] is ignored for a [Batch]). *)
Definition get_entry (t : tensor) (i j : nat) : R :=
  match t with
  | Full rows => nth j (nth i rows []) 0
  | Batch xs => nth i xs 0
  end.

Definition set_entry (t : tensor) (i j : nat) (v : R) : tensor :=
  match t with
  | Full rows => Full (set_nth i (set_nth j v (nth i rows [])) rows)
  | Batch xs => Batch (set_nth i v xs)
  end.

(** ** Real functions of torch *)

(** [torch.sigmoid]. *)
Definition sigmoid (x : R) : R := / (1 + exp (- x)).

(** [torch.log1p]. *)
Definition log1p (x : R) : R := ln (1 + x).

(** [softmax] and [log_softmax] of one row. *)
Definition softmax_row (r : list R) : list R :=
  map (fun x => exp x / Rsum (map exp r)) r.

Definition log_softmax_row (r : list R) : list R :=
  map (fun x => x - ln (Rsum (map exp r))) r.

(** [finfo(float32).eps], the bound of [clamp_probs] for the default dtype. *)
Definition eps : R := / 2 ^ 23.

(** [x.clamp(min=lo, max=hi)] on one entry. *)
Definition clamp (lo hi x : R) : R := Rmin (Rmax x lo) hi.

(** [torch.distributions.utils.clamp_probs]. *)
Definition clamp_probs (t : tensor) : tensor := tmap (clamp eps (1 - eps)) t.

(** Conversion of a float to an integer type truncates toward zero. *)
Definition trunc (x : R) : Z :=
  if Rle_dec 0 x then Int_part x else (- Int_part (- x))%Z.

(** [x.long()] and [x.byte()] on one entry. *)
Definition to_long (x : R) : R := IZR (trunc x).
Definition to_byte (x : R) : R := IZR (trunc x mod 256).

(** Index of the first maximal entry of a row. *)
Fixpoint argmax_from (best : R) (bi i : nat) (r : list R) : nat :=
  match r with
  | [] => bi
  | x :: r' =>
      if Rlt_dec best x then argmax_from x i (S i) r'
      else argmax_from best bi (S i) r'
  end.

Definition argmax_row (r : list R) : nat :=
  match r with
  | [] => O
  | x :: r' => argmax_from x 0 1 r'
  end.

(** An entry used as an index into a row of length [n]. *)
Definition index_ok (n : nat) (x : R) : bool :=
  (0 <=? trunc x)%Z && (trunc x <? Z.of_nat n)%Z.

Definition index_of (x : R) : nat := Z.to_nat (trunc x).

Fixpoint map3 {A B C D : Type} (f : A -> B -> C -> D)
  (l1 : list A) (l2 : list B) (l3 : list C) : list D :=
  match l1, l2, l3 with
  | x :: l1', y :: l2', z :: l3' => f x y z :: map3 f l1' l2' l3'
  | _, _, _ => []
  end.

(** ** Tensors tracked by the differentiation engine *)

(** What the engine recorded for a tensor: whether [logits] was used to
    compute it, and its value as a function of the value of [logits]. *)
Record node : Type := {
  reaches_logits : bool;
  replay : tensor -> tensor
}.

Record Tensor : Type := {
  data : tensor;
  autograd : option node
}.

Definition requires_grad (t : Tensor) : bool :=
  match autograd t with Some _ => true | None => false end.

Definition reaches (t : Tensor) : bool :=
  match autograd t with Some n => reaches_logits n | None => false end.

Definition eval (t : Tensor) (l : tensor) : tensor :=
  match autograd t with Some n => replay n l | None => data t end.

Definition constant (d : tensor) : Tensor := {| data := d; autograd := None |}.

(** [t.detach()]. *)
Definition detach (t : Tensor) : Tensor := constant (data t).

(** [t.requires_grad_(True)]: a tensor already tracked stays as it is, an
    untracked one becomes a leaf of its own. *)
Definition requires_grad_ (t : Tensor) : Tensor :=
  match autograd t with
  | Some _ => t
  | None => {| data := data t;
               autograd := Some {| reaches_logits := false;
                                   replay := fun _ => data t |} |}
  end.

(** [logits] seen as the variable of differentiation. *)
Definition variable (logits : Tensor) : Tensor :=
  {| data := data logits;
     autograd := if requires_grad logits
                 then Some {| reaches_logits := true; replay := fun l => l |}
                 else None |}.

Definition op1 (k : tensor -> tensor) (t : Tensor) : Tensor :=
  {| data := k (data t);
     autograd :=
       match autograd t with
       | Some n => Some {| reaches_logits := reaches_logits n;
                           replay := fun l => k (replay n l) |}
       | None => None
       end |}.

Definition op2 (k : tensor -> tensor -> tensor) (a b : Tensor) : Tensor :=
  {| data := k (data a) (data b);
     autograd :=
       if requires_grad a || requires_grad b
       then Some {| reaches_logits := reaches a || reaches b;
                    replay := fun l => k (eval a l) (eval b l) |}
       else None |}.

(** ** Effects *)

Inductive exn : Type :=
| ValueError (msg : string)
| RuntimeError (msg : string)
| IndexError (msg : string).

Inductive result (A : Type) : Type :=
| Ok (a : A)
| Raise (e : exn).
Arguments Ok {A} a.
Arguments Raise {A} e.

Inductive event : Type :=
| Warning (msg : string)
| RandLike (s : shape_t)
| Invoke (arg : Tensor).

(** The random source is a supply of draws, one field of values per call
    of [torch.rand_like]; the trace records what happened, oldest first. *)
Record world : Type := {
  rng : nat -> nat -> nat -> R;
  trace : list event
}.

Definition M (A : Type) : Type := world -> result A * world.

Definition ret {A : Type} (a : A) : M A := fun w => (Ok a, w).

Definition bind {A B : Type} (c : M A) (k : A -> M B) : M B :=
  fun w => match c w with
           | (Ok a, w') => k a w'
           | (Raise e, w') => (Raise e, w')
           end.

Definition raise {A : Type} (e : exn) : M A := fun w => (Raise e, w).

Definition emit (e : event) : M unit :=
  fun w => (Ok tt, {| rng := rng w; trace := trace w ++ [e] |}).

Declare Scope monad_scope.
Delimit Scope monad_scope with monad.
Notation "x <- c ;; k" := (bind c (fun x => k))
  (at level 61, c at next level, right associativity) : monad_scope.
Notation "' pat <- c ;; k" := (bind c (fun x => match x with pat => k end))
  (at level 61, pat pattern, c at next level, right associativity) : monad_scope.
Notation "c ;; k" := (bind c (fun _ => k))
  (at level 61, right associativity) : monad_scope.
Open Scope monad_scope.

(** [warnings.warn]. *)
Definition warn_ (msg : string) : M unit := emit (Warning msg).

Definition fill (src : nat -> nat -> R) (t : tensor) : tensor :=
  match t with
  | Full rows => Full (mapi (fun i r => mapi (fun j _ => src i j) r) rows)
  | Batch xs => Batch (mapi (fun i _ => src i O) xs)
  end.

(** [torch.rand_like]: the next draw of the source, in the shape of [t]. *)
Definition rand_like (t : Tensor) : M Tensor :=
  fun w => (Ok (constant (fill (rng w O) (data t))),
            {| rng := fun k => rng w (S k);
               trace := trace w ++ [RandLike (shape (data t))] |}).

(** ** Tensor operations *)

Definition size_mismatch : exn :=
  RuntimeError "The size of tensor a must match the size of tensor b".
Definition no_last_axis : exn :=
  IndexError "Dimension out of range".

Definition binop (f : R -> R -> R) (a b : Tensor) : M Tensor :=
  if broadcastable (data a) (data b) then ret (op2 (tzip f) a b)
  else raise size_mismatch.

Definition add : Tensor -> Tensor -> M Tensor := binop Rplus.
Definition sub : Tensor -> Tensor -> M Tensor := binop Rminus.
Definition mul : Tensor -> Tensor -> M Tensor := binop Rmult.
Definition div : Tensor -> Tensor -> M Tensor := binop Rdiv.

Definition pointwise (f : R -> R) (t : Tensor) : Tensor := op1 (tmap f) t.

Definition log : Tensor -> Tensor := pointwise ln.
Definition neg : Tensor -> Tensor := pointwise Ropp.
Definition tlog1p : Tensor -> Tensor := pointwise log1p.
Definition tsigmoid : Tensor -> Tensor := pointwise sigmoid.

(** [x.gt(0.).to(x)]. *)
Definition gt0 (x : R) : R := if Rlt_dec 0 x then 1 else 0.
Definition gt_zero (t : Tensor) : Tensor := constant (tmap gt0 (data t)).

Definition long (t : Tensor) : Tensor := constant (tmap to_long (data t)).
Definition byte (t : Tensor) : Tensor := constant (tmap to_byte (data t)).

Definition rowwise (f : list R -> list R) (t : tensor) : tensor :=
  match t with
  | Full rows => Full (map f rows)
  | Batch xs => Batch xs
  end.

Definition last_axis (f : list R -> list R) (t : Tensor) : M Tensor :=
  match data t with
  | Full _ => ret (op1 (rowwise f) t)
  | Batch _ => raise no_last_axis
  end.

Definition softmax : Tensor -> M Tensor := last_axis softmax_row.
Definition log_softmax : Tensor -> M Tensor := last_axis log_softmax_row.

Definition nonempty (r : list R) : bool :=
  match r with [] => false | _ :: _ => true end.

(** [t.argmax(dim=-1, keepdim=...)]; the result is an index tensor. *)
Definition argmax (t : Tensor) (keepdim : bool) : M Tensor :=
  match data t with
  | Full rows =>
      if forallb nonempty rows then
        ret (constant
               (if keepdim
                then Full (map (fun r => [INR (argmax_row r)]) rows)
                else Batch (map (fun r => INR (argmax_row r)) rows)))
      else raise (IndexError "argmax over an axis of size 0")
  | Batch _ => raise no_last_axis
  end.

(** [t.unsqueeze(-1)], also written [t[..., None]]. *)
Definition unsqueeze_k (t : tensor) : tensor :=
  match t with
  | Batch xs => Full (map (fun x => [x]) xs)
  | Full rows => Full rows
  end.

Definition unsqueeze (t : Tensor) : M Tensor :=
  match data t with
  | Batch _ => ret (op1 unsqueeze_k t)
  | Full _ => raise size_mismatch
  end.

(** [self.scatter_(-1, index, v)]. *)
Definition scatter_row (r : list R) (idx : list R) (v : R) : list R :=
  fold_left (fun acc i => set_nth (index_of i) v acc) idx r.

Definition indices_ok (r : list R) (idx : list R) : bool :=
  forallb (index_ok (List.length r)) idx.

Definition scatter_k (v : R) (idx self : tensor) : tensor :=
  match self, idx with
  | Full rows, Full irows => Full (map2 (fun r i => scatter_row r i v) rows irows)
  | _, _ => self
  end.

Definition index_error : exn := RuntimeError "index out of range".

Definition scatter_ (self index : Tensor) (v : R) : M Tensor :=
  match data self, data index with
  | Full rows, Full irows =>
      if forallb2 indices_ok rows irows
      then ret (op1 (scatter_k v (data index)) self)
      else raise index_error
  | _, _ => raise size_mismatch
  end.

(** [self.gather(-1, index)]. *)
Definition gather_k (idx self : tensor) : tensor :=
  match self, idx with
  | Full rows, Full irows =>
      Full (map2 (fun r i => map (fun x => nth (index_of x) r 0) i) rows irows)
  | _, _ => self
  end.

Definition gather (self index : Tensor) : M Tensor :=
  match data self, data index with
  | Full rows, Full irows =>
      if forallb2 indices_ok rows irows
      then ret (op1 (gather_k (data index)) self)
      else raise index_error
  | _, _ => raise size_mismatch
  end.

(** [torch.where(mask, x, y)] for operands of one shape. *)
Definition select (m x y : R) : R := if Req_dec_T m 0 then y else x.

Definition where_k (m x y : tensor) : tensor :=
  match m, x, y with
  | Full mr, Full xr, Full yr => Full (map3 (map3 select) mr xr yr)
  | Batch mr, Batch xr, Batch yr => Batch (map3 select mr xr yr)
  | _, _, _ => x
  end.

Definition where_ (mask x y : Tensor) : M Tensor :=
  if shape_eqb (shape (data mask)) (shape (data x))
     && shape_eqb (shape (data x)) (shape (data y))
  then ret (op2 (where_k (data mask)) x y)
  else raise size_mismatch.

(** [t.squeeze(-1)]: drops a last axis of size one, and only that. *)
Definition squeeze_k (t : tensor) : tensor :=
  match t with
  | Full rows => Batch (map (hd 0) rows)
  | Batch xs => Batch xs
  end.

Definition squeeze (t : Tensor) : M Tensor :=
  match data t with
  | Full rows =>
      if forallb (fun r => Nat.eqb (List.length r) 1) rows
      then ret (op1 squeeze_k t)
      else ret t
  | Batch _ => raise no_last_axis
  end.

(** [clamp_probs] on a tracked tensor. *)
Definition clamp_probs_ (t : Tensor) : Tensor := op1 clamp_probs t.

(** [1 - t] with a python float on the left. *)
Definition rsub (c : R) (t : Tensor) : Tensor := pointwise (fun x => c - x) t.

(** ** The differentiation engine *)

(** The derivative of a real function at a point. *)
Definition Derive (f : R -> R) (x : R) : R :=
  epsilon (inhabits 0) (fun l => derivable_pt_lim f x l).

(** The gradient of a scalar function of a tensor: one partial derivative
    per entry, in the shape of the argument. *)
Definition gradient (L : tensor -> R) (x : tensor) : tensor :=
  match x with
  | Full rows =>
      Full (mapi (fun i r =>
                    mapi (fun j v => Derive (fun s => L (set_entry x i j s)) v) r)
              rows)
  | Batch xs =>
      Batch (mapi (fun i v => Derive (fun s => L (set_entry x i O s)) v) xs)
  end.

(** The vector-Jacobian product of [output], as recorded, at the value [l]
    of logits, for the sensitivity seed [grad_outputs]. *)
Definition vjp (n : node) (grad_outputs : tensor) (l : tensor) : tensor :=
  gradient (fun l' => tsum (tzip Rmult grad_outputs (replay n l'))) l.

(** [torch.autograd.grad([output], [logits], grad_outputs=..., create_graph=...)[0]]. *)
Definition autograd_grad (output logits : Tensor) (grad_outputs : tensor)
  (create_graph : bool) : M Tensor :=
  match autograd output with
  | None =>
      raise (RuntimeError
               "element 0 of tensors does not require grad and does not have a grad_fn")
  | Some n =>
      if negb (requires_grad logits) then
        raise (RuntimeError "One of the differentiated Tensors does not require grad")
      else if negb (reaches_logits n) then
        raise (RuntimeError
                 "One of the differentiated Tensors appears to not have been used in the graph")
      else if negb (shape_eqb (shape grad_outputs) (shape (data output))) then
        raise (RuntimeError "Mismatch in shape")
      else
        ret {| data := vjp n grad_outputs (data logits);
               autograd :=
                 if create_graph
                 then Some {| reaches_logits := true;
                              replay := vjp n grad_outputs |}
                 else None |}
  end.

(** ** Log-probabilities of [torch.distributions] *)

(** [Bernoulli(logits=logits).log_prob(value)]: minus the binary cross
    entropy with logits. *)
Definition bernoulli_lp (l y : R) : R :=
  y * ln (sigmoid l) + (1 - y) * ln (1 - sigmoid l).

Definition Bernoulli_log_prob (logits value : Tensor) : M Tensor :=
  binop bernoulli_lp logits value.

(** [Categorical(logits=logits).log_prob(value)]: the entry of the
    normalised logits at the index [value]. *)
Definition Categorical_log_prob (logits value : Tensor) : M Tensor :=
  log_pmf <- log_softmax logits ;;
  index <- unsqueeze (long value) ;;
  g <- gather log_pmf index ;;
  squeeze g.

(** [OneHotCategorical(logits=logits).log_prob(value)]. *)
Definition OneHotCategorical_log_prob (logits value : Tensor) : M Tensor :=
  indices <- argmax value false ;;
  Categorical_log_prob logits indices.

(** ** The module *)

Definition BERNOULLI_SYNONYMS : list string :=
  ["bern"; "Bern"; "bernoulli"; "Bernoulli"]%string.
Definition CATEGORICAL_SYNONYMS : list string :=
  ["cat"; "Cat"; "categorical"; "Categorical"]%string.
Definition ONEHOT_SYNONYMS : list string :=
  ["onehot"; "OneHotCategorical"]%string.

(** [dist in SYNONYMS]. *)
Definition in_set (dist : string) (synonyms : list string) : bool :=
  existsb (String.eqb dist) synonyms.

(** [ValueError("Unknown distribution {}".format(dist))]. *)
Definition unknown_distribution (dist : string) : exn :=
  ValueError ("Unknown distribution " ++ dist)%string.

Definition to_z (logits : Tensor) (dist : string) (warn : bool) : M Tensor :=
  let logits := variable logits in
  (if warn && negb (requires_grad logits) then
     warn_ ("logits.requires_grad is False. This will likely cause an error "
            ++ "with estimators that require z. To suppress this warning, set "
            ++ "warn to False")%string
   else ret tt) ;;
  r <- rand_like logits ;;
  let u := clamp_probs_ r in
  z <- (if in_set dist BERNOULLI_SYNONYMS then
          t <- add logits (log u) ;;
          sub t (tlog1p (neg u))
        else if in_set dist (CATEGORICAL_SYNONYMS ++ ONEHOT_SYNONYMS) then
          log_theta <- log_softmax logits ;;
          sub log_theta (log (neg (log u)))
        else raise (unknown_distribution dist)) ;;
  ret (requires_grad_ z).

Definition to_b (z : Tensor) (dist : string) : M Tensor :=
  if in_set dist BERNOULLI_SYNONYMS then
    ret (gt_zero z)
  else if in_set dist CATEGORICAL_SYNONYMS then
    argmax z false
  else if in_set dist ONEHOT_SYNONYMS then
    index <- argmax z true ;;
    scatter_ (constant (zeros_like (data z))) index 1
  else raise (unknown_distribution dist).

Definition to_fb {A B : Type} (f : A -> B) (b : A) : B := f b.

Definition reinforce (fb b logits : Tensor) (dist : string) : M Tensor :=
  let logits := variable logits in
  let fb := detach fb in
  let b := detach b in
  '(log_pb, fb) <-
    (if in_set dist BERNOULLI_SYNONYMS then
       log_pb <- Bernoulli_log_prob logits b ;;
       ret (log_pb, fb)
     else if in_set dist CATEGORICAL_SYNONYMS then
       log_pb <- Categorical_log_prob logits b ;;
       fb <- unsqueeze fb ;;
       ret (log_pb, fb)
     else if in_set dist ONEHOT_SYNONYMS then
       log_pb <- OneHotCategorical_log_prob logits b ;;
       fb <- unsqueeze fb ;;
       ret (log_pb, fb)
     else raise (unknown_distribution dist)) ;;
  d <- autograd_grad log_pb logits (ones_like (data log_pb)) false ;;
  mul fb d.

Definition _to_z_tilde (logits b : Tensor) (dist : string) : M Tensor :=
  r <- rand_like logits ;;
  let v := clamp_probs_ r in
  if in_set dist BERNOULLI_SYNONYMS then
    let om_theta := tsigmoid (neg logits) in
    t1 <- mul v (rsub 1 om_theta) ;;
    t2 <- add t1 om_theta ;;
    t3 <- mul b t2 ;;
    t4 <- mul (rsub 1 b) v ;;
    t5 <- mul t4 om_theta ;;
    v_prime <- add t3 t5 ;;
    t6 <- add logits (log v_prime) ;;
    sub t6 (tlog1p (neg v_prime))
  else if in_set dist CATEGORICAL_SYNONYMS then
    let b := long b in
    theta <- softmax logits ;;
    index <- unsqueeze b ;;
    mask <- scatter_ (constant (zeros_like (data logits))) index 1 ;;
    let log_v := log v in
    q <- div (neg log_v) theta ;;
    index' <- unsqueeze b ;;
    g <- gather log_v index' ;;
    s <- sub q g ;;
    where_ mask (neg (log (neg log_v))) (neg (log s))
  else if in_set dist ONEHOT_SYNONYMS then
    let b := byte b in
    theta <- softmax logits ;;
    let log_v := log v in
    q <- div (neg log_v) theta ;;
    index <- argmax b true ;;
    g <- gather log_v index ;;
    s <- sub q g ;;
    where_ b (neg (log (neg log_v))) (neg (log s))
  else raise (unknown_distribution dist).

(** What [relax] returns: the estimate, or its four terms. *)
Inductive estimate : Type :=
| Estimate (g : Tensor)
| Components (diff dlog_pb dc_z dc_z_tilde : Tensor).

(** A call of the control variate [c], recorded in the trace. *)
Definition invoke (c : Tensor -> M Tensor) (x : Tensor) : M Tensor :=
  emit (Invoke x) ;; c x.

Definition relax (fb b logits z : Tensor) (c : Tensor -> M Tensor)
  (dist : string) (components : bool) : M estimate :=
  let logits := variable logits in
  let fb := detach fb in
  let b := detach b in
  z_tilde <- _to_z_tilde logits b dist ;;
  c_z <- invoke c z ;;
  c_z_tilde <- invoke c z_tilde ;;
  diff <- sub fb c_z_tilde ;;
  '(log_pb, diff) <-
    (if in_set dist BERNOULLI_SYNONYMS then
       log_pb <- Bernoulli_log_prob logits b ;;
       ret (log_pb, diff)
     else if in_set dist CATEGORICAL_SYNONYMS then
       log_pb <- Categorical_log_prob logits b ;;
       diff <- unsqueeze diff ;;
       ret (log_pb, diff)
     else if in_set dist ONEHOT_SYNONYMS then
       log_pb <- OneHotCategorical_log_prob logits b ;;
       diff <- unsqueeze diff ;;
       ret (log_pb, diff)
     else raise (unknown_distribution dist)) ;;
  dlog_pb <- autograd_grad log_pb logits (ones_like (data log_pb)) false ;;
  dc_z <- autograd_grad c_z logits (ones_like (data c_z)) true ;;
  dc_z_tilde <- autograd_grad c_z_tilde logits (ones_like (data c_z_tilde)) true ;;
  if components then
    ret (Components diff dlog_pb dc_z dc_z_tilde)
  else
    t <- mul diff dlog_pb ;;
    t' <- add t dc_z ;;
    g <- sub t' dc_z_tilde ;;
    ret (Estimate g).

Module REBARControlVariate.

(** The instance: its attributes, the two trainable parameters being
    tensors of one entry. *)
Record t : Type := {
  dist : string;
  f : Tensor -> M Tensor;
  _bernoulli : bool;
  start_temp : R;
  start_eta : R;
  log_temp : R;
  eta : R
}.

Definition reset_parameters (self : t) : t :=
  {| dist := dist self;
     f := f self;
     _bernoulli := _bernoulli self;
     start_temp := start_temp self;
     start_eta := start_eta self;
     log_temp := ln (start_temp self);
     eta := start_eta self |}.

(** [torch.Tensor(1)] allocates without initialising; what it holds is
    overwritten by [reset_parameters] before anything reads it. *)
Definition uninitialised : R := 0.

Definition __init__ (f : Tensor -> M Tensor) (dist : string)
  (start_temp start_eta : R) (warn : bool) : M t :=
  if Rle_dec start_temp 0 then
    raise (ValueError "start_temp must be positive")
  else
    bern <- (if in_set dist BERNOULLI_SYNONYMS then ret true
             else if in_set dist ONEHOT_SYNONYMS then ret false
             else if in_set dist CATEGORICAL_SYNONYMS then
               (if warn then
                  warn_ ("'" ++ dist
                         ++ "' implies categorical samples are index-based, but "
                         ++ "this instance will call 'f' with continuous relaxations "
                         ++ "of one-hot samples. It is likely that you want dist to "
                         ++ "be 'onehot' instead. To suppress this warning, set "
                         ++ "warn=False")%string
                else ret tt) ;;
               ret false
             else raise (unknown_distribution dist)) ;;
    ret (reset_parameters
           {| dist := dist;
              f := f;
              _bernoulli := bern;
              start_temp := start_temp;
              start_eta := start_eta;
              log_temp := uninitialised;
              eta := uninitialised |}).

(** An operation with a trainable parameter: its result is tracked
    whatever the operand is. *)
Definition with_parameter (k : tensor -> tensor) (x : Tensor) : Tensor :=
  {| data := k (data x);
     autograd := Some {| reaches_logits := reaches x;
                         replay := fun l => k (eval x l) |} |}.

Definition forward (self : t) (z : Tensor) : M Tensor :=
  let z_temp := with_parameter (tmap (fun x => x / exp (log_temp self))) z in
  if _bernoulli self then
    y <- f self (tsigmoid z_temp) ;;
    ret (with_parameter (tmap (fun x => eta self * x)) y)
  else
    s <- softmax z_temp ;;
    y <- f self s ;;
    ret (with_parameter (tmap (fun x => eta self * x)) y).

End REBARControlVariate.

(** * Vocabulary of the properties *)

(** The three families, and the family a tag names, if any. *)
Inductive family : Type := Bernoulli | Categorical | OneHotCategorical.

Definition family_of (dist : string) : option family :=
  if in_set dist BERNOULLI_SYNONYMS then Some Bernoulli
  else if in_set dist CATEGORICAL_SYNONYMS then Some Categorical
  else if in_set dist ONEHOT_SYNONYMS then Some OneHotCategorical
  else None.

Definition after_draw (w : world) (t : Tensor) : world :=
  {| rng := fun k => rng w (S k);
     trace := trace w ++ [RandLike (shape (data t))] |}.

(** No event of the trace is an invocation of the control variate. *)
Definition is_invoke (e : event) : bool :=
  match e with Invoke _ => true | _ => false end.

(** The two parameters after any number of optimiser steps: whatever
    values [log_temp] and [eta] were moved to. *)
Definition perturbed (self : REBARControlVariate.t) (log_temp eta : R) : REBARControlVariate.t :=
  {| REBARControlVariate.dist := REBARControlVariate.dist self;
     REBARControlVariate.f := REBARControlVariate.f self;
     REBARControlVariate._bernoulli := REBARControlVariate._bernoulli self;
     REBARControlVariate.start_temp := REBARControlVariate.start_temp self;
     REBARControlVariate.start_eta := REBARControlVariate.start_eta self;
     REBARControlVariate.log_temp := log_temp;
     REBARControlVariate.eta := eta |}.


Definition has_last_axis (t : tensor) : bool :=
  match t with Full _ => true | Batch _ => false end.

(** The shape two operands broadcast to, and whether they do. *)
Definition bdim (n m : nat) : nat :=
  if Nat.eqb n m then n else if Nat.eqb n 1 then m else n.

Definition bdim_ok (n m : nat) : bool :=
  Nat.eqb n m || Nat.eqb n 1 || Nat.eqb m 1.

Definition sbroadcastable (s1 s2 : shape_t) : bool :=
  match s1, s2 with
  | SFull d1, SFull d2 => forallb2 bdim_ok d1 d2
  | SBatch n, SBatch m => Nat.eqb n m
  | _, _ => false
  end.

Definition sbcast (s1 s2 : shape_t) : shape_t :=
  match s1, s2 with
  | SFull d1, SFull d2 => SFull (map2 bdim d1 d2)
  | SBatch n, SBatch m => SBatch (Nat.min n m)
  | _, _ => s1
  end.

(** The shape of [t.unsqueeze(-1)] for a tensor of [n] entries, and of
    whatever has one entry per row of a tensor of shape [s]. *)
Definition column (s : shape_t) : shape_t :=
  match s with
  | SFull ds => SFull (map (fun _ => 1%nat) ds)
  | SBatch n => SFull (repeat 1%nat n)
  end.

Definition per_row (s : shape_t) : shape_t :=
  match s with
  | SFull ds => SBatch (List.length ds)
  | SBatch n => SBatch n
  end.

(** Position [(i, j)] lies inside a tensor of shape [s]. *)
Definition valid (s : shape_t) (i j : nat) : Prop :=
  match s with
  | SFull ds => (i < List.length ds)%nat /\ (j < nth i ds 0)%nat
  | SBatch n => (i < n)%nat
  end.

(** Row [i] of a tensor with a last axis. *)
Definition row (t : tensor) (i : nat) : list R :=
  match t with
  | Full rows => nth i rows []
  | Batch _ => []
  end.

(** The clamped noise that the next draw of the random source gives for a
    tensor shaped like [logits]. *)
Definition noise (w : world) (logits : tensor) : tensor :=
  clamp_probs (fill (rng w O) logits).

(** Entrywise combination of two tensors of one shape. *)
Definition entrywise2 (f : R -> R -> R) (a b : tensor) : tensor :=
  match a, b with
  | Full r1, Full r2 => Full (map2 (map2 f) r1 r2)
  | Batch x, Batch y => Batch (map2 f x y)
  | _, _ => a
  end.

(** What [to_z] computes from logits and the clamped noise [u]. *)
Definition injected (fam : family) (logits u : tensor) : tensor :=
  match fam with
  | Bernoulli => entrywise2 (fun l u => l + ln u - ln (1 - u)) logits u
  | _ => entrywise2 (fun x u => x - ln (- ln u))
           (rowwise log_softmax_row logits) u
  end.

(** One entry of the conditional surrogate of the Bernoulli family, as
    [_to_z_tilde] computes it from the logit [l], the sample [b] and the
    clamped noise [v]. *)
Definition v_prime (l b v : R) : R :=
  b * (v * (1 - sigmoid (- l)) + sigmoid (- l)) + (1 - b) * v * sigmoid (- l).

Definition z_tilde_bern (l b v : R) : R :=
  l + ln (v_prime l b v) - log1p (- v_prime l b v).

(** Number of rows of a shape, and length of row [i]. *)
Definition nrows (s : shape_t) : nat :=
  match s with SFull ds => List.length ds | SBatch n => n end.

Definition width (s : shape_t) (i : nat) : nat :=
  match s with SFull ds => nth i ds O | SBatch _ => 1%nat end.

Definition one_hot_entry (k j : nat) : R := if Nat.eqb j k then 1 else 0.

(** [b] is a sample of family [fam] for logits of shape [s]: entries 0 or
    1; one index below the length of the row, per row; one-hot rows. *)
Definition in_support (fam : family) (s : shape_t) (b : tensor) : Prop :=
  match fam with
  | Bernoulli =>
      shape b = s /\
      forall i j, valid s i j -> get_entry b i j = 0 \/ get_entry b i j = 1
  | Categorical =>
      shape b = per_row s /\
      forall i, (i < nrows s)%nat ->
                exists k, (k < width s i)%nat /\ get_entry b i 0 = INR k
  | OneHotCategorical =>
      shape b = s /\
      forall i, (i < nrows s)%nat ->
                exists k, (k < width s i)%nat /\
                          forall j, (j < width s i)%nat ->
                                    get_entry b i j = one_hot_entry k j
  end.

(** The surrogate [z] discretises to the sample [b]. *)
Definition discretizes (fam : family) (z b : tensor) : Prop :=
  match fam with
  | Bernoulli =>
      forall i j, valid (shape z) i j -> (0 < get_entry z i j <-> get_entry b i j = 1)
  | Categorical =>
      forall i, (i < nrows (shape z))%nat ->
                get_entry b i 0 = INR (argmax_row (row z i))
  | OneHotCategorical =>
      forall i, (i < nrows (shape z))%nat ->
                get_entry b i (argmax_row (row z i)) = 1
  end.

(** The sample a surrogate discretises to: positivity, index of the
    arg-max of each row, one-hot row of that arg-max. *)
Definition discretize (fam : family) (z : tensor) : tensor :=
  match fam, z with
  | Bernoulli, _ => tmap gt0 z
  | Categorical, Full rows => Batch (map (fun r => INR (argmax_row r)) rows)
  | OneHotCategorical, Full rows =>
      Full (map (fun r => mapi (fun j _ => one_hot_entry (argmax_row r) j) r) rows)
  | _, Batch _ => z
  end.

(** The log-probability of the sample [b] under [logits], for each family,
    as [torch.distributions] computes it. *)
Definition log_prob (fam : family) (logits b : tensor) : tensor :=
  match fam with
  | Bernoulli => tzip bernoulli_lp logits b
  | Categorical =>
      squeeze_k (gather_k (unsqueeze_k (tmap to_long b))
                   (rowwise log_softmax_row logits))
  | OneHotCategorical =>
      squeeze_k (gather_k (unsqueeze_k (tmap to_long (discretize Categorical b)))
                   (rowwise log_softmax_row logits))
  end.

(** The gradient of [log_prob] with respect to logits, for the all-ones
    sensitivity seed. *)
Definition score (fam : family) (logits b : tensor) : tensor :=
  gradient (fun l => tsum (tzip Rmult (ones_like (log_prob fam logits b))
                             (log_prob fam l b)))
    logits.

(** [fb] as the estimators align it with the gradient: unsqueezed on the
    last axis for the two categorical families. *)
Definition aligned (fam : family) (fb : tensor) : tensor :=
  match fam with
  | Bernoulli => fb
  | _ => unsqueeze_k fb
  end.

(** The log-probability primitive of each family. *)
Definition log_prob_of (fam : family) : Tensor -> Tensor -> M Tensor :=
  match fam with
  | Bernoulli => Bernoulli_log_prob
  | Categorical => Categorical_log_prob
  | OneHotCategorical => OneHotCategorical_log_prob
  end.

(** A sample whose log-probability can be taken under logits of shape
    [s]: of the shape of logits (Bernoulli); one index inside each row
    (Categorical); of the shape of logits, whose rows are not empty
    (OneHotCategorical). *)
Definition sample_ok (fam : family) (s : shape_t) (b : tensor) : Prop :=
  match fam with
  | Bernoulli => shape b = s
  | Categorical => in_support Categorical s b
  | OneHotCategorical =>
      shape b = s /\ forall i, (i < nrows s)%nat -> (0 < width s i)%nat
  end.

(** Arguments of compatible shapes, for logits of shape [s]: one objective
    value per entry (Bernoulli) or per row (categorical families). *)
Definition compatible (fam : family) (s : shape_t) (fb b : tensor) : Prop :=
  shape fb = match fam with Bernoulli => s | _ => per_row s end /\
  sample_ok fam s b.

(** The estimate put together from its four terms, as the documentation
    of [relax] states it: [g = diff * dlog_pb + dc_z - dc_z_tilde]. *)
Definition combine (diff dlog_pb dc_z dc_z_tilde : Tensor) : M Tensor :=
  t <- mul diff dlog_pb ;;
  t' <- add t dc_z ;;
  sub t' dc_z_tilde.

(** What consumes the components of [relax] to give its estimate. *)
Definition reconstruct (e : estimate) : M estimate :=
  match e with
  | Components diff dlog_pb dc_z dc_z_tilde =>
      g <- combine diff dlog_pb dc_z dc_z_tilde ;; ret (Estimate g)
  | Estimate g => ret (Estimate g)
  end.

(** A control variate as [relax] documents it: on a tracked tensor of the
    shape of [z] it returns a tracked tensor, of the same shape for the
    Bernoulli family and with one entry per row for the categorical ones. *)
Definition control_variate (c : Tensor -> M Tensor) (fam : family) (s : shape_t) : Prop :=
  forall x w, shape (data x) = s -> reaches x = true ->
    exists y w', c x w = (Ok y, w') /\ reaches y = true /\
                 shape (data y) = match fam with Bernoulli => s | _ => per_row s end.

(** A source of noise, a world with nothing recorded yet, and logits that
    require gradient, for concrete runs. *)
Definition quiet : world := {| rng := fun _ _ _ => / 2; trace := [] |}.

Definition leaf (d : tensor) : Tensor :=
  {| data := d;
     autograd := Some {| reaches_logits := true; replay := fun l => l |} |}.

(** The score in closed form: [b - sigmoid(logits)] for the Bernoulli
    family, [onehot(b) - softmax(logits)] for the categorical ones. *)
Definition closed_score (fam : family) (logits b : tensor) (i j : nat) : R :=
  match fam with
  | Bernoulli => get_entry b i j - sigmoid (get_entry logits i j)
  | Categorical =>
      one_hot_entry (index_of (get_entry b i 0)) j
      - nth j (softmax_row (row logits i)) 0
  | OneHotCategorical =>
      get_entry b i j - nth j (softmax_row (row logits i)) 0
  end.

(** The Gumbel noise that [to_z] adds to the normalised logits, from a
    uniform draw [u]. *)
Definition gumbel (u : R) : R := - ln (- ln u).

(** Logits with a constant added to every entry of a row, one constant
    per row. *)
Definition shift_rows (c : nat -> R) (t : tensor) : tensor :=
  match t with
  | Full rows => Full (mapi (fun i r => map (fun x => x + c i) r) rows)
  | Batch xs => Batch xs
  end.

(** The world once the control variate has been invoked on [x]. *)
Definition invoked (w : world) (x : Tensor) : world :=
  {| rng := rng w; trace := trace w ++ [Invoke x] |}.

(** The one-hot encoding, in the shape of [logits], of a sample [b] of
    indices. *)
Definition one_hot (logits b : tensor) : tensor :=
  match logits with
  | Full rows =>
      Full (mapi (fun i r =>
                    mapi (fun j _ => one_hot_entry (index_of (get_entry b i 0)) j) r)
              rows)
  | Batch _ => b
  end.

(** * Properties *)

(** ** The distribution tag *)

Lemma in_set_app dist s1 s2 :
  in_set dist (s1 ++ s2) = in_set dist s1 || in_set dist s2.
Proof. unfold in_set. apply existsb_app. Qed.

Lemma in_set_In dist s : in_set dist s = true <-> In dist s.
Proof.
  unfold in_set. rewrite existsb_exists. split.
  - intros [x [Hx Heq]]. apply String.eqb_eq in Heq. now subst.
  - intros H. exists dist. split; [assumption | apply String.eqb_refl].
Qed.

Lemma family_of_Bernoulli dist :
  family_of dist = Some Bernoulli <-> in_set dist BERNOULLI_SYNONYMS = true.
Proof.
  unfold family_of. split.
  - destruct (in_set dist BERNOULLI_SYNONYMS); [reflexivity |].
    destruct (in_set dist CATEGORICAL_SYNONYMS); [discriminate |].
    destruct (in_set dist ONEHOT_SYNONYMS); discriminate.
  - intros ->. reflexivity.
Qed.

Lemma family_of_Categorical dist :
  family_of dist = Some Categorical <->
  in_set dist BERNOULLI_SYNONYMS = false /\ in_set dist CATEGORICAL_SYNONYMS = true.
Proof.
  unfold family_of. split.
  - destruct (in_set dist BERNOULLI_SYNONYMS); [discriminate |].
    destruct (in_set dist CATEGORICAL_SYNONYMS); [auto |].
    destruct (in_set dist ONEHOT_SYNONYMS); discriminate.
  - intros [-> ->]. reflexivity.
Qed.

Lemma family_of_OneHot dist :
  family_of dist = Some OneHotCategorical <->
  in_set dist BERNOULLI_SYNONYMS = false /\
  in_set dist CATEGORICAL_SYNONYMS = false /\
  in_set dist ONEHOT_SYNONYMS = true.
Proof.
  unfold family_of. split.
  - destruct (in_set dist BERNOULLI_SYNONYMS); [discriminate |].
    destruct (in_set dist CATEGORICAL_SYNONYMS); [discriminate |].
    destruct (in_set dist ONEHOT_SYNONYMS); [auto | discriminate].
  - intros [-> [-> ->]]. reflexivity.
Qed.

Lemma family_of_None dist :
  family_of dist = None <->
  in_set dist BERNOULLI_SYNONYMS = false /\
  in_set dist CATEGORICAL_SYNONYMS = false /\
  in_set dist ONEHOT_SYNONYMS = false.
Proof.
  unfold family_of. split.
  - destruct (in_set dist BERNOULLI_SYNONYMS); [discriminate |].
    destruct (in_set dist CATEGORICAL_SYNONYMS); [discriminate |].
    destruct (in_set dist ONEHOT_SYNONYMS); [discriminate | auto].
  - intros [-> [-> ->]]. reflexivity.
Qed.

(** The synonym sets are pairwise disjoint: the order in which a function
    tests them does not matter. *)
Lemma synonyms_disjoint dist :
  (in_set dist BERNOULLI_SYNONYMS = true -> in_set dist CATEGORICAL_SYNONYMS = false
                                             /\ in_set dist ONEHOT_SYNONYMS = false) /\
  (in_set dist CATEGORICAL_SYNONYMS = true -> in_set dist ONEHOT_SYNONYMS = false).
Proof.
  split; intros H; apply in_set_In in H; simpl in H;
    repeat (destruct H as [H | H]; [subst dist; auto |]); contradiction.
Qed.

(** ** Running the monad *)

Lemma bind_ok {A B : Type} (c : M A) (k : A -> M B) w a w' :
  c w = (Ok a, w') -> bind c k w = k a w'.
Proof. unfold bind. intros ->. reflexivity. Qed.

Lemma bind_raise {A B : Type} (c : M A) (k : A -> M B) w e w' :
  c w = (Raise e, w') -> bind c k w = (Raise e, w').
Proof. unfold bind. intros ->. reflexivity. Qed.

Lemma bind_ret {A B : Type} (a : A) (k : A -> M B) w :
  bind (ret a) k w = k a w.
Proof. reflexivity. Qed.

(** ** Unknown tags (C5, C10) *)

Lemma to_z_unknown logits dist warn w :
  family_of dist = None ->
  exists w', to_z logits dist warn w = (Raise (unknown_distribution dist), w').
Proof.
  intros H. apply family_of_None in H. destruct H as [Hb [Hc Ho]].
  unfold to_z. rewrite in_set_app, Hb, Hc, Ho. simpl.
  destruct (warn && negb (requires_grad (variable logits))); eexists; reflexivity.
Qed.

Lemma to_b_unknown z dist w :
  family_of dist = None ->
  to_b z dist w = (Raise (unknown_distribution dist), w).
Proof.
  intros H. apply family_of_None in H. destruct H as [Hb [Hc Ho]].
  unfold to_b. rewrite Hb, Hc, Ho. reflexivity.
Qed.

Lemma reinforce_unknown fb b logits dist w :
  family_of dist = None ->
  reinforce fb b logits dist w = (Raise (unknown_distribution dist), w).
Proof.
  intros H. apply family_of_None in H. destruct H as [Hb [Hc Ho]].
  unfold reinforce. rewrite Hb, Hc, Ho. reflexivity.
Qed.

Lemma _to_z_tilde_unknown logits b dist w :
  family_of dist = None ->
  _to_z_tilde logits b dist w = (Raise (unknown_distribution dist), after_draw w logits).
Proof.
  intros H. apply family_of_None in H. destruct H as [Hb [Hc Ho]].
  unfold _to_z_tilde. rewrite Hb, Hc, Ho. reflexivity.
Qed.

Lemma relax_unknown fb b logits z c dist components w :
  family_of dist = None ->
  relax fb b logits z c dist components w
  = (Raise (unknown_distribution dist), after_draw w logits).
Proof.
  intros H. unfold relax.
  erewrite bind_raise; [| apply _to_z_tilde_unknown; assumption].
  reflexivity.
Qed.

(** C5.  A tag outside the three families and their synonyms makes
    [to_z], [to_b], [reinforce] and [relax] raise the [ValueError] whose
    message names the tag, whatever the other arguments are. *)
Theorem unknown_tag_raises_ValueError (dist : string) :
  family_of dist = None ->
  (forall logits warn w, exists w',
      to_z logits dist warn w
      = (Raise (ValueError ("Unknown distribution " ++ dist)%string), w')) /\
  (forall z w, exists w',
      to_b z dist w
      = (Raise (ValueError ("Unknown distribution " ++ dist)%string), w')) /\
  (forall fb b logits w, exists w',
      reinforce fb b logits dist w
      = (Raise (ValueError ("Unknown distribution " ++ dist)%string), w')) /\
  (forall fb b logits z c components w, exists w',
      relax fb b logits z c dist components w
      = (Raise (ValueError ("Unknown distribution " ++ dist)%string), w')).
Proof.
  intros H. repeat split; intros.
  - apply to_z_unknown; assumption.
  - eexists. apply to_b_unknown; assumption.
  - eexists. apply reinforce_unknown; assumption.
  - eexists. apply relax_unknown; assumption.
Qed.

Lemma unknown_tag_raises_ValueError_poisson :
  family_of "poisson" = None /\
  (forall z w, exists w',
      to_b z "poisson" w = (Raise (ValueError "Unknown distribution poisson"), w')).
Proof.
  split; [reflexivity |].
  apply (unknown_tag_raises_ValueError "poisson"). reflexivity.
Defined.

(** C10.  With an unrecognised tag [relax] raises inside the conditional
    reparameterisation: the only effect is the draw of the noise, the
    control variate is never invoked (the result is the same for every [c]
    and every [z], and no invocation is added to the trace), and neither a
    gradient nor a component is returned. *)
Theorem relax_unknown_tag_raises_before_c
  (fb b logits z : Tensor) (c : Tensor -> M Tensor) (dist : string)
  (components : bool) (w : world) :
  family_of dist = None ->
  _to_z_tilde (variable logits) (detach b) dist w
  = (Raise (unknown_distribution dist), after_draw w logits) /\
  relax fb b logits z c dist components w
  = (Raise (unknown_distribution dist), after_draw w logits) /\
  filter is_invoke (trace (snd (relax fb b logits z c dist components w)))
  = filter is_invoke (trace w) /\
  (forall z' c', relax fb b logits z' c' dist components w
                 = relax fb b logits z c dist components w).
Proof.
  intros H. split; [| split; [| split]].
  - rewrite _to_z_tilde_unknown by assumption. reflexivity.
  - apply relax_unknown; assumption.
  - rewrite relax_unknown by assumption. simpl.
    rewrite filter_app. simpl. apply app_nil_r.
  - intros z' c'. rewrite !relax_unknown by assumption. reflexivity.
Qed.

Lemma relax_unknown_tag_raises_before_c_poisson :
  let logits := constant (Full [[0; 0]]) in
  let w := {| rng := fun _ _ _ => 0; trace := [] |} in
  family_of "poisson" = None /\
  relax logits logits logits logits (fun x => ret x) "poisson" false w
  = (Raise (ValueError "Unknown distribution poisson"),
     {| rng := fun _ _ _ => 0; trace := [RandLike (SFull [2%nat])] |}).
Proof.
  split; [reflexivity |].
  apply (relax_unknown_tag_raises_before_c
           (constant (Full [[0; 0]])) (constant (Full [[0; 0]]))
           (constant (Full [[0; 0]])) (constant (Full [[0; 0]]))
           (fun x => ret x) "poisson" false
           {| rng := fun _ _ _ => 0; trace := [] |}).
  reflexivity.
Defined.

(** ** The REBAR control variate (C7, C8) *)

Lemma init_nonpositive f dist start_temp start_eta warn w :
  start_temp <= 0 ->
  REBARControlVariate.__init__ f dist start_temp start_eta warn w
  = (Raise (ValueError "start_temp must be positive"), w).
Proof.
  intros H. unfold REBARControlVariate.__init__.
  destruct (Rle_dec start_temp 0); [reflexivity | contradiction].
Qed.

(** What a successful construction leaves in the instance. *)
Lemma init_ok f dist start_temp start_eta warn w fam :
  0 < start_temp ->
  family_of dist = Some fam ->
  exists w',
    REBARControlVariate.__init__ f dist start_temp start_eta warn w
    = (Ok {| REBARControlVariate.dist := dist;
             REBARControlVariate.f := f;
             REBARControlVariate._bernoulli := match fam with Bernoulli => true | _ => false end;
             REBARControlVariate.start_temp := start_temp;
             REBARControlVariate.start_eta := start_eta;
             REBARControlVariate.log_temp := ln start_temp;
             REBARControlVariate.eta := start_eta |}, w').
Proof.
  intros Hpos Hfam. unfold REBARControlVariate.__init__.
  destruct (Rle_dec start_temp 0) as [Hle | _]; [lra |].
  destruct fam.
  - apply family_of_Bernoulli in Hfam. rewrite Hfam.
    eexists. reflexivity.
  - apply family_of_Categorical in Hfam. destruct Hfam as [Hb Hc].
    destruct (synonyms_disjoint dist) as [_ Hd]. rewrite Hb, (Hd Hc), Hc.
    destruct warn; eexists; reflexivity.
  - apply family_of_OneHot in Hfam. destruct Hfam as [Hb [Hc Ho]].
    rewrite Hb, Ho. eexists. reflexivity.
Qed.

Lemma init_inv f dist start_temp start_eta warn w cv w' :
  REBARControlVariate.__init__ f dist start_temp start_eta warn w = (Ok cv, w') ->
  0 < start_temp /\
  exists fam, family_of dist = Some fam /\
    cv = {| REBARControlVariate.dist := dist;
            REBARControlVariate.f := f;
            REBARControlVariate._bernoulli := match fam with Bernoulli => true | _ => false end;
            REBARControlVariate.start_temp := start_temp;
            REBARControlVariate.start_eta := start_eta;
            REBARControlVariate.log_temp := ln start_temp;
            REBARControlVariate.eta := start_eta |}.
Proof.
  intros H.
  destruct (Rle_dec start_temp 0) as [Hle | Hpos].
  - rewrite init_nonpositive in H by assumption. discriminate.
  - apply Rnot_le_lt in Hpos. split; [assumption |].
    destruct (family_of dist) as [fam |] eqn:Hfam.
    + exists fam. split; [reflexivity |].
      destruct (init_ok f dist start_temp start_eta warn w fam Hpos Hfam) as [w'' Hok].
      rewrite Hok in H. now inversion H.
    + exfalso. apply family_of_None in Hfam. destruct Hfam as [Hb [Hc Ho]].
      unfold REBARControlVariate.__init__ in H.
      destruct (Rle_dec start_temp 0); [lra |].
      rewrite Hb, Hc, Ho in H. discriminate.
Qed.

(** C8.  Construction with a start temperature that is zero or negative
    raises the [ValueError]; after a construction that succeeds, whatever
    the two parameters are moved to, [reset_parameters] puts the
    log-temperature back to [log(start_temp)] and the scale back to
    [start_eta]. *)
Theorem rebar_construction_and_reset
  (f : Tensor -> M Tensor) (dist : string) (start_temp start_eta : R)
  (warn : bool) (w : world) :
  (start_temp <= 0 ->
   REBARControlVariate.__init__ f dist start_temp start_eta warn w
   = (Raise (ValueError "start_temp must be positive"), w)) /\
  (forall cv w',
      REBARControlVariate.__init__ f dist start_temp start_eta warn w = (Ok cv, w') ->
      forall log_temp eta,
        REBARControlVariate.log_temp (REBARControlVariate.reset_parameters (perturbed cv log_temp eta))
        = ln start_temp /\
        REBARControlVariate.eta (REBARControlVariate.reset_parameters (perturbed cv log_temp eta))
        = start_eta).
Proof.
  split.
  - apply init_nonpositive.
  - intros cv w' H log_temp eta.
    apply init_inv in H. destruct H as [_ [fam [_ ->]]].
    split; reflexivity.
Qed.

Lemma rebar_construction_and_reset_example :
  let w := {| rng := fun _ _ _ => 0; trace := [] |} in
  let f := fun x : Tensor => ret x in
  REBARControlVariate.__init__ f "bern" 0 1 true w
  = (Raise (ValueError "start_temp must be positive"), w) /\
  REBARControlVariate.__init__ f "bern" (-1) 1 true w
  = (Raise (ValueError "start_temp must be positive"), w) /\
  exists cv w',
    REBARControlVariate.__init__ f "onehot" (1 / 10) 1 true w = (Ok cv, w') /\
    REBARControlVariate.log_temp (REBARControlVariate.reset_parameters (perturbed cv 3 (-7))) = ln (1 / 10) /\
    REBARControlVariate.eta (REBARControlVariate.reset_parameters (perturbed cv 3 (-7))) = 1.
Proof.
  intros w f. split; [| split].
  - apply (rebar_construction_and_reset f "bern" 0 1 true w). lra.
  - apply (rebar_construction_and_reset f "bern" (-1) 1 true w). lra.
  - assert (Hpos : 0 < 1 / 10) by lra.
    destruct (init_ok f "onehot" (1 / 10) 1 true w OneHotCategorical Hpos eq_refl)
      as [w' Hok].
    eexists. exists w'. split; [exact Hok |].
    apply (proj2 (rebar_construction_and_reset f "onehot" (1 / 10) 1 true w)
             _ _ Hok).
Defined.



(** ** Lists, positions and shapes *)

Lemma length_map2 {A B C : Type} (f : A -> B -> C) l1 l2 :
  List.length (map2 f l1 l2) = Nat.min (List.length l1) (List.length l2).
Proof.
  revert l2. induction l1 as [| x l1 IH]; intros [| y l2]; simpl; auto.
Qed.

Lemma nth_map2 {A B C : Type} (f : A -> B -> C) l1 l2 i d d1 d2 :
  (i < List.length l1)%nat -> (i < List.length l2)%nat ->
  nth i (map2 f l1 l2) d = f (nth i l1 d1) (nth i l2 d2).
Proof.
  revert l2 i. induction l1 as [| x l1 IH]; intros [| y l2] [| i]; simpl;
    intros H1 H2; try lia; auto.
  apply IH; lia.
Qed.

Lemma length_map3 {A B C D : Type} (f : A -> B -> C -> D) l1 l2 l3 :
  List.length (map3 f l1 l2 l3)
  = Nat.min (List.length l1) (Nat.min (List.length l2) (List.length l3)).
Proof.
  revert l2 l3. induction l1 as [| x l1 IH]; intros [| y l2] [| z l3]; simpl; auto.
Qed.

Lemma nth_map3 {A B C D : Type} (f : A -> B -> C -> D) l1 l2 l3 i d d1 d2 d3 :
  (i < List.length l1)%nat -> (i < List.length l2)%nat -> (i < List.length l3)%nat ->
  nth i (map3 f l1 l2 l3) d = f (nth i l1 d1) (nth i l2 d2) (nth i l3 d3).
Proof.
  revert l2 l3 i.
  induction l1 as [| x l1 IH]; intros [| y l2] [| z l3] [| i]; simpl;
    intros H1 H2 H3; try lia; auto.
  apply IH; lia.
Qed.

Lemma length_mapi_from {A B : Type} (f : nat -> A -> B) k l :
  List.length (mapi_from k f l) = List.length l.
Proof. revert k. induction l as [| x l IH]; intros k; simpl; auto. Qed.

Lemma nth_mapi_from {A B : Type} (f : nat -> A -> B) k l i d d' :
  (i < List.length l)%nat ->
  nth i (mapi_from k f l) d = f (k + i)%nat (nth i l d').
Proof.
  revert k i. induction l as [| x l IH]; intros k [| i]; simpl; intros H; try lia.
  - now rewrite Nat.add_0_r.
  - rewrite IH by lia. f_equal. lia.
Qed.

Lemma length_mapi {A B : Type} (f : nat -> A -> B) l :
  List.length (mapi f l) = List.length l.
Proof. apply length_mapi_from. Qed.

Lemma nth_mapi {A B : Type} (f : nat -> A -> B) l i d d' :
  (i < List.length l)%nat -> nth i (mapi f l) d = f i (nth i l d').
Proof. intros H. unfold mapi. now rewrite (nth_mapi_from f 0 l i d d') by assumption. Qed.

Lemma length_set_nth {A : Type} i (v : A) l :
  List.length (set_nth i v l) = List.length l.
Proof. revert i. induction l as [| x l IH]; intros [| i]; simpl; auto. Qed.

Lemma nth_set_nth {A : Type} i j (v : A) l d :
  (i < List.length l)%nat ->
  nth j (set_nth i v l) d = if Nat.eqb j i then v else nth j l d.
Proof.
  revert i j. induction l as [| x l IH]; intros [| i] [| j]; simpl; intros H;
    try lia; auto.
  apply IH. lia.
Qed.

Lemma nth_map_in {A B : Type} (f : A -> B) l i d d' :
  (i < List.length l)%nat -> nth i (map f l) d = f (nth i l d').
Proof.
  intros H. rewrite (nth_indep _ d (f d')) by now rewrite length_map.
  apply map_nth.
Qed.

Lemma forallb2_nth {A B : Type} (p : A -> B -> bool) l1 l2 d1 d2 :
  List.length l1 = List.length l2 ->
  (forall i, (i < List.length l1)%nat -> p (nth i l1 d1) (nth i l2 d2) = true) ->
  forallb2 p l1 l2 = true.
Proof.
  revert l2. induction l1 as [| x l1 IH]; intros [| y l2]; simpl; intros Hl H;
    try discriminate; auto.
  rewrite (H 0%nat) by lia. simpl. apply IH; [lia |].
  intros i Hi. apply (H (S i)). lia.
Qed.

Lemma forallb2_length {A B : Type} (p : A -> B -> bool) l1 l2 :
  forallb2 p l1 l2 = true -> List.length l1 = List.length l2.
Proof.
  revert l2. induction l1 as [| x l1 IH]; intros [| y l2]; simpl; intros H;
    try discriminate; auto.
  apply andb_true_iff in H. f_equal. apply IH. tauto.
Qed.

(** ** Shapes of the kernels *)

Lemma shape_eqb_eq s1 s2 : shape_eqb s1 s2 = true <-> s1 = s2.
Proof.
  destruct s1 as [d1 | n1], s2 as [d2 | n2]; simpl; split; intros H;
    try discriminate.
  - destruct (list_eq_dec Nat.eq_dec d1 d2); [now subst | discriminate].
  - inversion H. subst. destruct (list_eq_dec Nat.eq_dec d2 d2); congruence.
  - apply Nat.eqb_eq in H. now subst.
  - inversion H. apply Nat.eqb_refl.
Qed.

Lemma shape_eqb_refl s : shape_eqb s s = true.
Proof. now apply shape_eqb_eq. Qed.

Lemma valid_Full rows i j :
  valid (shape (Full rows)) i j <->
  (i < List.length rows)%nat /\ (j < List.length (nth i rows []))%nat.
Proof.
  simpl. rewrite length_map. split; intros [Hi Hj]; split; auto.
  - rewrite (nth_map_in (@List.length R) rows i 0%nat []) in Hj by assumption.
    exact Hj.
  - rewrite (nth_map_in (@List.length R) rows i 0%nat []) by assumption.
    exact Hj.
Qed.

Lemma shape_Full_inj rows1 rows2 :
  shape (Full rows1) = shape (Full rows2) ->
  List.length rows1 = List.length rows2 /\
  forall i, List.length (nth i rows1 []) = List.length (nth i rows2 []).
Proof.
  simpl. intros H. inversion H as [Hm]. split.
  - apply (f_equal (@List.length nat)) in Hm. now rewrite !length_map in Hm.
  - intros i. rewrite <- !(map_nth (@List.length R)). simpl. now rewrite Hm.
Qed.

Lemma shape_tmap f t : shape (tmap f t) = shape t.
Proof.
  destruct t as [rows | xs]; simpl; f_equal.
  - rewrite map_map. apply map_ext. intros r. apply length_map.
  - apply length_map.
Qed.

Lemma map_length_mapi_from {A : Type} (f : nat -> list A -> list R) k l :
  (forall i x, List.length (f i x) = List.length x) ->
  map (@List.length R) (mapi_from k f l) = map (@List.length A) l.
Proof.
  intros H. revert k. induction l as [| x l IH]; intros k; simpl; [reflexivity |].
  now rewrite H, IH.
Qed.

Lemma shape_fill src t : shape (fill src t) = shape t.
Proof.
  destruct t as [rows | xs]; simpl; f_equal.
  - apply map_length_mapi_from. intros i x. apply length_mapi.
  - apply length_mapi.
Qed.

Lemma shape_clamp_probs t : shape (clamp_probs t) = shape t.
Proof. apply shape_tmap. Qed.

Lemma shape_rowwise f t :
  (forall r, List.length (f r) = List.length r) ->
  shape (rowwise f t) = shape t.
Proof.
  intros H. destruct t as [rows | xs]; simpl; [| reflexivity].
  f_equal. rewrite map_map. apply map_ext. exact H.
Qed.

Lemma length_softmax_row r : List.length (softmax_row r) = List.length r.
Proof. apply length_map. Qed.

Lemma length_log_softmax_row r : List.length (log_softmax_row r) = List.length r.
Proof. apply length_map. Qed.

Lemma length_bcast_row f r1 r2 :
  List.length (bcast_row f r1 r2) = bdim (List.length r1) (List.length r2).
Proof.
  unfold bcast_row, bdim.
  destruct (Nat.eqb_spec (List.length r1) (List.length r2)) as [He | Hne].
  - rewrite length_map2. lia.
  - destruct (Nat.eqb (List.length r1) 1); apply length_map.
Qed.

Lemma broadcastable_shape a b :
  broadcastable a b = sbroadcastable (shape a) (shape b).
Proof.
  destruct a as [r1 | x], b as [r2 | y]; simpl; try reflexivity.
  revert r2. induction r1 as [| a r1 IH]; intros [| b r2]; simpl; try reflexivity.
  now rewrite IH.
Qed.

Lemma shape_tzip f a b : shape (tzip f a b) = sbcast (shape a) (shape b).
Proof.
  destruct a as [r1 | x], b as [r2 | y]; simpl; try reflexivity.
  - f_equal. revert r2. induction r1 as [| a r1 IH]; intros [| b r2]; simpl;
      try reflexivity.
    now rewrite length_bcast_row, IH.
  - now rewrite length_map2.
Qed.

Lemma sbroadcastable_refl s : sbroadcastable s s = true.
Proof.
  destruct s as [ds | n]; simpl; [| apply Nat.eqb_refl].
  induction ds as [| d ds IH]; simpl; [reflexivity |].
  unfold bdim_ok at 1. now rewrite Nat.eqb_refl, IH.
Qed.

Lemma sbcast_refl s : sbcast s s = s.
Proof.
  destruct s as [ds | n]; simpl; f_equal; [| lia].
  induction ds as [| d ds IH]; simpl; [reflexivity |].
  unfold bdim at 1. now rewrite Nat.eqb_refl, IH.
Qed.

Lemma bdim_1_l m : bdim 1 m = m.
Proof. unfold bdim. destruct (Nat.eqb_spec 1 m); simpl; auto. Qed.

Lemma bdim_1_r n : bdim n 1 = n.
Proof. unfold bdim. destruct (Nat.eqb n 1); reflexivity. Qed.

Lemma bdim_ok_1_l m : bdim_ok 1 m = true.
Proof. unfold bdim_ok. rewrite Nat.eqb_refl. now rewrite orb_true_r. Qed.

Lemma bdim_ok_1_r n : bdim_ok n 1 = true.
Proof. unfold bdim_ok. rewrite Nat.eqb_refl. apply orb_true_r. Qed.

Lemma sbroadcastable_column_r ds :
  sbroadcastable (SFull ds) (column (SFull ds)) = true.
Proof.
  simpl. induction ds as [| d ds IH]; simpl; [reflexivity |].
  now rewrite bdim_ok_1_r, IH.
Qed.

Lemma sbroadcastable_column_l ds :
  sbroadcastable (column (SFull ds)) (SFull ds) = true.
Proof.
  simpl. induction ds as [| d ds IH]; simpl; [reflexivity |].
  now rewrite bdim_ok_1_l, IH.
Qed.

Lemma sbcast_column_r ds : sbcast (SFull ds) (column (SFull ds)) = SFull ds.
Proof.
  simpl. f_equal. induction ds as [| d ds IH]; simpl; [reflexivity |].
  now rewrite bdim_1_r, IH.
Qed.

Lemma sbcast_column_l ds : sbcast (column (SFull ds)) (SFull ds) = SFull ds.
Proof.
  simpl. f_equal. induction ds as [| d ds IH]; simpl; [reflexivity |].
  now rewrite bdim_1_l, IH.
Qed.

Lemma column_per_row ds : column (per_row (SFull ds)) = column (SFull ds).
Proof.
  simpl. f_equal. induction ds as [| d ds IH]; simpl; [reflexivity |].
  now rewrite IH.
Qed.

Lemma shape_unsqueeze_k xs : shape (unsqueeze_k (Batch xs)) = column (SBatch (List.length xs)).
Proof.
  simpl. f_equal. rewrite map_map. simpl.
  induction xs as [| x xs IH]; simpl; [reflexivity |]. now rewrite IH.
Qed.

Lemma shape_squeeze_k t : shape (squeeze_k t) = per_row (shape t).
Proof.
  destruct t as [rows | xs]; simpl; [| reflexivity].
  now rewrite !length_map.
Qed.

Lemma length_scatter_row r idx v :
  List.length (scatter_row r idx v) = List.length r.
Proof.
  unfold scatter_row. revert r. induction idx as [| i idx IH]; intros r; simpl.
  - reflexivity.
  - rewrite IH. apply length_set_nth.
Qed.

Lemma shape_scatter_k v rows irows :
  List.length rows = List.length irows ->
  shape (scatter_k v (Full irows) (Full rows)) = shape (Full rows).
Proof.
  simpl. intros H. f_equal. revert irows H.
  induction rows as [| r rows IH]; intros [| i irows]; simpl; intros H;
    try discriminate; [reflexivity |].
  rewrite length_scatter_row. f_equal. apply IH. lia.
Qed.

Lemma shape_gather_k rows irows :
  List.length rows = List.length irows ->
  shape (gather_k (Full irows) (Full rows)) = shape (Full irows).
Proof.
  simpl. intros H. f_equal. revert irows H.
  induction rows as [| r rows IH]; intros [| i irows]; simpl; intros H;
    try discriminate; [reflexivity |].
  rewrite length_map. f_equal. apply IH. lia.
Qed.

Lemma shape_where_k m x y :
  shape m = shape x -> shape x = shape y -> shape (where_k m x y) = shape x.
Proof.
  destruct m as [mr | mx], x as [xr | xx], y as [yr | yx]; simpl;
    intros H1 H2; try discriminate; f_equal.
  - inversion H1 as [H1']. inversion H2 as [H2']. clear H1 H2.
    revert mr yr H1' H2'.
    induction xr as [| a xr IH]; intros [| b mr] [| c yr]; simpl; intros H1 H2;
      try discriminate; [reflexivity |].
    inversion H1. inversion H2. rewrite length_map3.
    f_equal; [lia |]. apply IH; assumption.
  - inversion H1. inversion H2. rewrite length_map3. lia.
Qed.

Lemma shape_gradient L x : shape (gradient L x) = shape x.
Proof.
  destruct x as [rows | xs]; unfold gradient; simpl shape; f_equal.
  - apply map_length_mapi_from. intros i r. apply length_mapi.
  - apply length_mapi.
Qed.

Lemma shape_ones_like t : shape (ones_like t) = shape t.
Proof. apply shape_tmap. Qed.

Lemma shape_zeros_like t : shape (zeros_like t) = shape t.
Proof. apply shape_tmap. Qed.

(** ** Entries of the kernels *)

Lemma tensor_ext a b :
  shape a = shape b ->
  (forall i j, valid (shape a) i j -> get_entry a i j = get_entry b i j) ->
  a = b.
Proof.
  destruct a as [r1 | x], b as [r2 | y]; intros Hs H; try discriminate.
  - destruct (shape_Full_inj r1 r2 Hs) as [Hl Hr]. f_equal.
    apply (nth_ext r1 r2 [] [] Hl). intros i Hi.
    apply (nth_ext _ _ 0 0 (Hr i)). intros j Hj.
    apply (H i j). apply valid_Full. auto.
  - simpl in Hs. inversion Hs as [Hl]. f_equal.
    apply (nth_ext x y 0 0 Hl). intros i Hi. apply (H i 0%nat). exact Hi.
Qed.

Lemma get_tmap f t i j :
  valid (shape t) i j -> get_entry (tmap f t) i j = f (get_entry t i j).
Proof.
  destruct t as [rows | xs]; intros H.
  - apply valid_Full in H. destruct H as [Hi Hj]. simpl.
    rewrite (nth_map_in (map f) rows i [] []) by assumption.
    apply nth_map_in. assumption.
  - simpl in *. apply nth_map_in. assumption.
Qed.

Lemma bcast_row_same f r1 r2 :
  List.length r1 = List.length r2 -> bcast_row f r1 r2 = map2 f r1 r2.
Proof. intros H. unfold bcast_row. now rewrite H, Nat.eqb_refl. Qed.

Lemma tzip_same f a b : shape a = shape b -> tzip f a b = entrywise2 f a b.
Proof.
  destruct a as [r1 | x], b as [r2 | y]; intros Hs; try discriminate;
    [| reflexivity].
  simpl. f_equal. inversion Hs as [Hm]. clear Hs. revert r2 Hm.
  induction r1 as [| a r1 IH]; intros [| b r2]; simpl; intros Hm;
    try discriminate; [reflexivity |].
  inversion Hm. rewrite bcast_row_same by assumption. f_equal. now apply IH.
Qed.

Lemma get_tzip_same f a b i j :
  shape a = shape b -> valid (shape a) i j ->
  get_entry (tzip f a b) i j = f (get_entry a i j) (get_entry b i j).
Proof.
  destruct a as [r1 | x], b as [r2 | y]; intros Hs H; try discriminate.
  - destruct (shape_Full_inj r1 r2 Hs) as [Hl Hr].
    apply valid_Full in H. destruct H as [Hi Hj]. simpl.
    rewrite (nth_map2 (bcast_row f) r1 r2 i [] [] []) by lia.
    rewrite bcast_row_same by apply Hr.
    apply nth_map2; [assumption | rewrite <- Hr; assumption].
  - simpl in *. inversion Hs. apply nth_map2; lia.
Qed.

Lemma column_Full_inj r1 r2 :
  shape (Full r2) = column (shape (Full r1)) ->
  List.length r1 = List.length r2 /\
  forall i, (i < List.length r2)%nat -> List.length (nth i r2 []) = 1%nat.
Proof.
  simpl. intros H. inversion H as [Hm]. clear H. split.
  - apply (f_equal (@List.length nat)) in Hm. rewrite !length_map in Hm. lia.
  - intros i Hi.
    rewrite <- (nth_map_in (@List.length R) r2 i 0%nat []) by assumption.
    rewrite Hm. rewrite map_map.
    assert (Hl : List.length r1 = List.length r2).
    { apply (f_equal (@List.length nat)) in Hm. rewrite !length_map in Hm. lia. }
    rewrite (nth_map_in (fun _ => 1%nat) r1 i 0%nat []) by lia. reflexivity.
Qed.

Lemma get_tzip_column f r1 b i j :
  shape b = column (shape (Full r1)) -> valid (shape (Full r1)) i j ->
  get_entry (tzip f (Full r1) b) i j
  = f (get_entry (Full r1) i j) (get_entry b i 0).
Proof.
  intros Hs H. destruct b as [r2 | y]; [| discriminate].
  destruct (column_Full_inj r1 r2 Hs) as [Hl Hr].
  apply valid_Full in H. destruct H as [Hi Hj]. simpl.
  rewrite (nth_map2 (bcast_row f) r1 r2 i [] [] []) by lia.
  specialize (Hr i ltac:(lia)).
  destruct (nth i r2 []) as [| y [| y' r2']] eqn:E; simpl in Hr; try discriminate.
  unfold bcast_row. simpl List.length.
  destruct (Nat.eqb_spec (List.length (nth i r1 [])) 1) as [H1 | H1].
  - destruct (nth i r1 []) as [| x [| x' r1']]; simpl in H1; try discriminate.
    simpl in Hj. assert (j = 0%nat) by lia. subst j. reflexivity.
  - simpl. apply (nth_map_in (fun x => f x y) (nth i r1 []) j 0 0). assumption.
Qed.

Lemma get_fill src t i j :
  valid (shape t) i j ->
  get_entry (fill src t) i j
  = match t with Full _ => src i j | Batch _ => src i O end.
Proof.
  destruct t as [rows | xs]; intros H.
  - apply valid_Full in H. destruct H as [Hi Hj]. simpl.
    rewrite (nth_mapi _ rows i [] []) by assumption.
    now rewrite (nth_mapi _ (nth i rows []) j 0 0) by assumption.
  - simpl in *. now rewrite (nth_mapi _ xs i 0 0) by assumption.
Qed.

(** ** The clamped noise lies strictly between 0 and 1 *)

Lemma eps_pos : 0 < eps.
Proof. unfold eps. apply Rinv_0_lt_compat. apply pow_lt. lra. Qed.

Lemma eps_lt_half : eps < / 2.
Proof.
  unfold eps. apply Rinv_lt_contravar.
  - apply Rmult_lt_0_compat; [lra | apply pow_lt; lra].
  - simpl. lra.
Qed.

Lemma clamp_range x : eps <= clamp eps (1 - eps) x <= 1 - eps.
Proof.
  pose proof eps_pos. pose proof eps_lt_half.
  unfold clamp, Rmin, Rmax.
  destruct (Rle_dec x eps); destruct (Rle_dec _ (1 - eps)); lra.
Qed.

Lemma clamp_unit x : 0 < clamp eps (1 - eps) x < 1.
Proof. pose proof eps_pos. pose proof (clamp_range x). lra. Qed.

Lemma noise_unit w logits i j :
  valid (shape logits) i j -> 0 < get_entry (noise w logits) i j < 1.
Proof.
  intros H. unfold noise, clamp_probs.
  rewrite get_tmap by now rewrite shape_fill.
  apply clamp_unit.
Qed.

Lemma shape_noise w logits : shape (noise w logits) = shape logits.
Proof. unfold noise. now rewrite shape_clamp_probs, shape_fill. Qed.

(** ** Running the operations *)

Lemma binop_run f a b w :
  sbroadcastable (shape (data a)) (shape (data b)) = true ->
  binop f a b w = (Ok (op2 (tzip f) a b), w).
Proof.
  intros H. unfold binop. rewrite broadcastable_shape, H. reflexivity.
Qed.

Lemma binop_same f a b w :
  shape (data a) = shape (data b) ->
  binop f a b w = (Ok (op2 (tzip f) a b), w).
Proof.
  intros H. apply binop_run. rewrite H. apply sbroadcastable_refl.
Qed.

Lemma warning_step (cond : bool) msg w :
  exists w1,
    (if cond then warn_ msg else ret tt) w = (Ok tt, w1) /\ rng w1 = rng w.
Proof. destruct cond; eexists; split; reflexivity. Qed.

Lemma rand_like_run t w :
  rand_like t w = (Ok (constant (fill (rng w O) (data t))), after_draw w t).
Proof. reflexivity. Qed.

Lemma data_variable t : data (variable t) = data t.
Proof. reflexivity. Qed.

Lemma requires_grad_requires_grad_ t : requires_grad (requires_grad_ t) = true.
Proof.
  unfold requires_grad_, requires_grad.
  destruct (autograd t) eqn:E; simpl; [now rewrite E | reflexivity].
Qed.

Lemma data_requires_grad_ t : data (requires_grad_ t) = data t.
Proof. unfold requires_grad_. destruct (autograd t); reflexivity. Qed.

Lemma shape_softmax t : shape (rowwise softmax_row t) = shape t.
Proof. apply shape_rowwise, length_softmax_row. Qed.

Lemma shape_log_softmax t : shape (rowwise log_softmax_row t) = shape t.
Proof. apply shape_rowwise, length_log_softmax_row. Qed.

Create Rewrite HintDb shape.
#[export] Hint Rewrite shape_tmap shape_tzip shape_noise shape_fill
  shape_clamp_probs shape_ones_like shape_zeros_like shape_gradient
  shape_softmax shape_log_softmax sbcast_refl : shape.

Ltac shape_hyps :=
  repeat match goal with
         | H : shape ?x = _ |- context [shape ?x] => rewrite H
         end.

Ltac shapes :=
  simpl data; unfold clamp_probs; autorewrite with shape;
  shape_hyps; autorewrite with shape;
  try reflexivity; try assumption; try (symmetry; assumption).

Ltac valids :=
  simpl data; unfold clamp_probs; autorewrite with shape;
  shape_hyps; autorewrite with shape; assumption.
Ltac side := first [valids | shapes].

Lemma last_axis_run f t w :
  has_last_axis (data t) = true ->
  last_axis f t w = (Ok (op1 (rowwise f) t), w).
Proof.
  unfold last_axis. destruct (data t); [reflexivity | discriminate].
Qed.

(** ** Noise injection (C4) *)

Lemma to_z_bernoulli logits dist warn w :
  in_set dist BERNOULLI_SYNONYMS = true ->
  exists z w',
    to_z logits dist warn w = (Ok z, w') /\
    data z = injected Bernoulli (data logits) (noise w (data logits)) /\
    requires_grad z = true.
Proof.
  intros Hb. unfold to_z. rewrite Hb.
  match goal with
  | |- context [bind (if ?c then warn_ ?m else ret tt)] =>
      destruct (warning_step c m w) as [w1 [Hw Hr]]
  end.
  erewrite bind_ok by exact Hw.
  erewrite bind_ok by apply rand_like_run.
  erewrite bind_ok.
  2:{ erewrite bind_ok by (apply binop_same; shapes).
      apply binop_same. shapes. }
  do 2 eexists. split; [reflexivity |]. split.
  - rewrite data_requires_grad_. simpl data. rewrite Hr.
    fold (noise w (data logits)).
    unfold injected. rewrite <- tzip_same by shapes.
    apply tensor_ext; [shapes |]. intros i j Hv. autorewrite with shape in Hv.
    rewrite !get_tzip_same by side.
    rewrite !get_tmap by side.
    unfold log1p. f_equal.
  - apply requires_grad_requires_grad_.
Qed.

Lemma to_z_categorical logits dist warn w :
  in_set dist BERNOULLI_SYNONYMS = false ->
  in_set dist CATEGORICAL_SYNONYMS || in_set dist ONEHOT_SYNONYMS = true ->
  has_last_axis (data logits) = true ->
  exists z w',
    to_z logits dist warn w = (Ok z, w') /\
    data z = entrywise2 (fun x u => x - ln (- ln u))
               (rowwise log_softmax_row (data logits)) (noise w (data logits)) /\
    requires_grad z = true.
Proof.
  intros Hb Hc Hax. unfold to_z. rewrite Hb, in_set_app, Hc.
  match goal with
  | |- context [bind (if ?c then warn_ ?m else ret tt)] =>
      destruct (warning_step c m w) as [w1 [Hw Hr]]
  end.
  erewrite bind_ok by exact Hw.
  erewrite bind_ok by apply rand_like_run.
  erewrite bind_ok.
  2:{ erewrite bind_ok by (apply last_axis_run; exact Hax).
      apply binop_same. shapes. }
  do 2 eexists. split; [reflexivity |]. split.
  - rewrite data_requires_grad_. simpl data. rewrite Hr.
    fold (noise w (data logits)).
    rewrite <- tzip_same by shapes.
    apply tensor_ext; [shapes |]. intros i j Hv.
    autorewrite with shape in Hv.
    rewrite !get_tzip_same by side.
    rewrite !get_tmap by side.
    reflexivity.
  - apply requires_grad_requires_grad_.
Qed.

(** C4.  For a tag of family [fam], [to_z] returns the tensor that
    combines logits with the clamped uniform draw [u] of the shape of
    logits, every entry of which lies strictly between 0 and 1:
    [logits + log u - log (1 - u)] for the Bernoulli family and
    [log_softmax(logits) - log (- log u)] along the last axis for the two
    categorical families; the tensor returned requires gradient. *)
Theorem to_z_injects_noise
  (logits : Tensor) (dist : string) (warn : bool) (w : world) (fam : family) :
  family_of dist = Some fam ->
  (fam <> Bernoulli -> has_last_axis (data logits) = true) ->
  exists z w',
    to_z logits dist warn w = (Ok z, w') /\
    data z = injected fam (data logits) (noise w (data logits)) /\
    shape (noise w (data logits)) = shape (data logits) /\
    (forall i j, valid (shape (data logits)) i j ->
                 0 < get_entry (noise w (data logits)) i j < 1) /\
    requires_grad z = true.
Proof.
  intros Hfam Hax.
  assert (H : exists z w',
             to_z logits dist warn w = (Ok z, w') /\
             data z = injected fam (data logits) (noise w (data logits)) /\
             requires_grad z = true).
  { destruct fam.
    - apply to_z_bernoulli. now apply family_of_Bernoulli.
    - apply family_of_Categorical in Hfam. destruct Hfam as [Hb Hc].
      apply to_z_categorical; [assumption | now rewrite Hc |].
      apply Hax. discriminate.
    - apply family_of_OneHot in Hfam. destruct Hfam as [Hb [Hc Ho]].
      apply to_z_categorical; [assumption | now rewrite Ho, orb_true_r |].
      apply Hax. discriminate. }
  destruct H as [z [w' [Hrun [Hdata Hreq]]]].
  exists z, w'. repeat split; try assumption.
  - apply shape_noise.
  - apply noise_unit; assumption.
  - apply noise_unit; assumption.
Qed.

(** ** Real analysis of the conditional surrogate *)

Lemma sigmoid_neg_spec l :
  0 < sigmoid (- l) < 1 /\ sigmoid (- l) * (1 + exp l) = 1.
Proof.
  unfold sigmoid. rewrite Ropp_involutive.
  pose proof (exp_pos l) as Ha.
  assert (H1 : 0 < / (1 + exp l)) by (apply Rinv_0_lt_compat; lra).
  assert (H2 : / (1 + exp l) * (1 + exp l) = 1) by (apply Rinv_l; lra).
  split; [| exact H2]. split; [exact H1 | nra].
Qed.

Lemma ln_plus_lt l x y :
  0 < x -> 0 < y -> y < exp l * x -> ln y < l + ln x.
Proof.
  intros Hx Hy H.
  rewrite <- (ln_exp l) at 1. rewrite <- ln_mult by (auto using exp_pos).
  apply ln_increasing; assumption.
Qed.

Lemma ln_plus_gt l x y :
  0 < x -> 0 < y -> exp l * x < y -> l + ln x < ln y.
Proof.
  intros Hx Hy H.
  rewrite <- (ln_exp l) at 1. rewrite <- ln_mult by (auto using exp_pos).
  apply ln_increasing; [| assumption].
  apply Rmult_lt_0_compat; auto using exp_pos.
Qed.

Lemma z_tilde_bern_1 l v : 0 < v < 1 -> 0 < z_tilde_bern l 1 v.
Proof.
  intros Hv. unfold z_tilde_bern, v_prime, log1p.
  destruct (sigmoid_neg_spec l) as [Hw Hwa]. pose proof (exp_pos l) as Ha.
  set (om := sigmoid (- l)) in *. set (a := exp l) in *.
  assert (Hvp : 0 < 1 * (v * (1 - om) + om) + (1 - 1) * v * om < 1) by nra.
  set (vp := 1 * (v * (1 - om) + om) + (1 - 1) * v * om) in *.
  assert (ln (1 + - vp) < l + ln vp); [| lra].
  apply ln_plus_lt; try lra. fold a. subst vp. nra.
Qed.

Lemma z_tilde_bern_0 l v : 0 < v < 1 -> z_tilde_bern l 0 v < 0.
Proof.
  intros Hv. unfold z_tilde_bern, v_prime, log1p.
  destruct (sigmoid_neg_spec l) as [Hw Hwa]. pose proof (exp_pos l) as Ha.
  set (om := sigmoid (- l)) in *. set (a := exp l) in *.
  assert (Hvp : 0 < 0 * (v * (1 - om) + om) + (1 - 0) * v * om < 1) by nra.
  set (vp := 0 * (v * (1 - om) + om) + (1 - 0) * v * om) in *.
  assert (l + ln vp < ln (1 + - vp)); [| lra].
  apply ln_plus_gt; try lra. fold a. subst vp. nra.
Qed.

(** ** Arg-max, indices and softmax *)

Lemma argmax_from_keep best bi i r :
  (forall j, (j < List.length r)%nat -> nth j r 0 <= best) ->
  argmax_from best bi i r = bi.
Proof.
  revert i. induction r as [| x r IH]; intros i H; simpl; [reflexivity |].
  destruct (Rlt_dec best x) as [Hlt | _].
  - specialize (H 0%nat ltac:(simpl; lia)). simpl in H. lra.
  - apply IH. intros j Hj. apply (H (S j)). simpl. lia.
Qed.

Lemma argmax_from_unique best bi i r k :
  (k < List.length r)%nat ->
  (forall j, (j < List.length r)%nat -> j <> k -> nth j r 0 < nth k r 0) ->
  best < nth k r 0 ->
  argmax_from best bi i r = (i + k)%nat.
Proof.
  revert best bi i k. induction r as [| x r IH]; intros best bi i k Hk H Hb;
    simpl in Hk; [lia |].
  simpl. destruct k as [| k].
  - simpl in Hb. destruct (Rlt_dec best x) as [_ | Hn]; [| contradiction].
    rewrite argmax_from_keep; [lia |].
    intros j Hj. left. apply (H (S j)); simpl; lia.
  - simpl in Hb.
    assert (Hx : x < nth k r 0) by (apply (H 0%nat); simpl; lia).
    assert (H' : forall j, (j < List.length r)%nat -> j <> k -> nth j r 0 < nth k r 0).
    { intros j Hj Hne. apply (H (S j)); simpl; lia. }
    destruct (Rlt_dec best x).
    + rewrite (IH x i (S i) k) by (auto; lia). lia.
    + rewrite (IH best bi (S i) k) by (auto; lia). lia.
Qed.

Lemma argmax_row_unique r k :
  (k < List.length r)%nat ->
  (forall j, (j < List.length r)%nat -> j <> k -> nth j r 0 < nth k r 0) ->
  argmax_row r = k.
Proof.
  intros Hk H. destruct r as [| x r]; simpl in Hk; [lia |].
  unfold argmax_row. destruct k as [| k].
  - apply argmax_from_keep. intros j Hj. left. apply (H (S j)); simpl; lia.
  - rewrite (argmax_from_unique x 0 1 r k).
    + reflexivity.
    + lia.
    + intros j Hj Hne. apply (H (S j)); simpl; lia.
    + apply (H 0%nat); simpl; lia.
Qed.

Lemma argmax_from_range best bi i r :
  argmax_from best bi i r = bi \/
  (i <= argmax_from best bi i r < i + List.length r)%nat.
Proof.
  revert best bi i. induction r as [| x r IH]; intros best bi i; simpl; [auto |].
  destruct (Rlt_dec best x).
  - destruct (IH x i (S i)) as [-> | H]; right; lia.
  - destruct (IH best bi (S i)) as [-> | H]; [auto | right; lia].
Qed.

Lemma argmax_row_lt r : nonempty r = true -> (argmax_row r < List.length r)%nat.
Proof.
  destruct r as [| x r]; [discriminate |]. intros _. simpl.
  destruct (argmax_from_range x 0 1 r) as [-> | H]; lia.
Qed.

Lemma trunc_INR k : trunc (INR k) = Z.of_nat k.
Proof.
  unfold trunc. destruct (Rle_dec 0 (INR k)) as [_ | Hn].
  - apply Int_part_INR.
  - exfalso. apply Hn. apply pos_INR.
Qed.

Lemma to_long_INR k : to_long (INR k) = INR k.
Proof. unfold to_long. rewrite trunc_INR. symmetry. apply INR_IZR_INZ. Qed.

Lemma index_of_INR k : index_of (INR k) = k.
Proof. unfold index_of. rewrite trunc_INR. apply Nat2Z.id. Qed.

Lemma index_ok_INR n k : (k < n)%nat -> index_ok n (INR k) = true.
Proof.
  intros H. unfold index_ok. rewrite trunc_INR.
  apply andb_true_iff. split; [apply Z.leb_le | apply Z.ltb_lt]; lia.
Qed.

Lemma to_byte_0 : to_byte 0 = 0.
Proof.
  unfold to_byte. change 0 with (INR 0). rewrite trunc_INR. reflexivity.
Qed.

Lemma to_byte_1 : to_byte 1 = 1.
Proof.
  unfold to_byte. change 1 with (INR 1). rewrite trunc_INR. reflexivity.
Qed.

Lemma Rsum_exp_pos r : nonempty r = true -> 0 < Rsum (map exp r).
Proof.
  destruct r as [| x r]; [discriminate |]. intros _. simpl.
  assert (H : 0 <= Rsum (map exp r)).
  { induction r as [| y r IH]; simpl; [lra |]. pose proof (exp_pos y). lra. }
  pose proof (exp_pos x). lra.
Qed.

Lemma softmax_row_pos r j :
  (j < List.length r)%nat -> 0 < nth j (softmax_row r) 0.
Proof.
  intros Hj. unfold softmax_row.
  rewrite (nth_map_in (fun x => exp x / Rsum (map exp r)) r j 0 0) by assumption.
  apply Rdiv_lt_0_compat; [apply exp_pos |].
  apply Rsum_exp_pos. destruct r; [simpl in Hj; lia | reflexivity].
Qed.

Lemma ln_unit_neg v : 0 < v < 1 -> ln v < 0.
Proof. intros H. rewrite <- ln_1. apply ln_increasing; lra. Qed.

(** The Gumbel-max conditional: the entry of the observed category beats
    every other one. *)
Lemma z_tilde_cat_order vj vk theta :
  0 < vj < 1 -> 0 < vk < 1 -> 0 < theta ->
  - ln (- ln vj / theta - ln vk) < - ln (- ln vk).
Proof.
  intros Hj Hk Ht.
  pose proof (ln_unit_neg vj Hj). pose proof (ln_unit_neg vk Hk).
  assert (0 < - ln vj / theta) by (apply Rdiv_lt_0_compat; lra).
  apply Ropp_lt_contravar. apply ln_increasing; lra.
Qed.

(** ** Conditional reparameterisation, Bernoulli family *)

Lemma reaches_requires_grad t : reaches t = true -> requires_grad t = true.
Proof. unfold reaches, requires_grad. destruct (autograd t); auto. Qed.

Lemma reaches_op1 k t : reaches (op1 k t) = reaches t.
Proof. unfold reaches, op1. simpl. destruct (autograd t); reflexivity. Qed.

Lemma reaches_op2_l k a b : reaches a = true -> reaches (op2 k a b) = true.
Proof.
  intros H. unfold reaches at 1, op2. simpl.
  rewrite (reaches_requires_grad a H). simpl. now rewrite H.
Qed.

Lemma reaches_op2_r k a b : reaches b = true -> reaches (op2 k a b) = true.
Proof.
  intros H. unfold reaches at 1, op2. simpl.
  rewrite (reaches_requires_grad b H), orb_true_r. simpl. now rewrite H, orb_true_r.
Qed.

Lemma _to_z_tilde_bernoulli logits b dist w :
  in_set dist BERNOULLI_SYNONYMS = true ->
  shape (data b) = shape (data logits) ->
  exists zt,
    _to_z_tilde logits b dist w = (Ok zt, after_draw w logits) /\
    shape (data zt) = shape (data logits) /\
    (reaches logits = true -> reaches zt = true) /\
    forall i j, valid (shape (data logits)) i j ->
      get_entry (data zt) i j
      = z_tilde_bern (get_entry (data logits) i j) (get_entry (data b) i j)
          (get_entry (noise w (data logits)) i j).
Proof.
  intros Hb Hs. unfold _to_z_tilde. rewrite Hb.
  erewrite bind_ok by apply rand_like_run.
  repeat (erewrite bind_ok by (apply binop_same; shapes)).
  eexists. split; [apply binop_same; shapes |].
  fold (noise w (data logits)).
  split; [shapes |]. split.
  - intros Hr. apply reaches_op2_l, reaches_op2_l. exact Hr.
  - intros i j Hv. simpl data. fold (noise w (data logits)).
    repeat ((rewrite get_tzip_same by side) || (rewrite get_tmap by side)).
    reflexivity.
Qed.

(** ** Entries and runs of the indexing operations *)

Lemma get_rowwise f rows i j :
  (i < List.length rows)%nat ->
  get_entry (rowwise f (Full rows)) i j = nth j (f (nth i rows [])) 0.
Proof.
  intros Hi. simpl. now rewrite (nth_map_in f rows i [] []) by assumption.
Qed.


Lemma get_entry_row t i j :
  has_last_axis t = true -> get_entry t i j = nth j (row t i) 0.
Proof. destruct t; [reflexivity | discriminate]. Qed.

Lemma get_where_k m x y i j :
  shape m = shape x -> shape x = shape y -> valid (shape x) i j ->
  get_entry (where_k m x y) i j
  = select (get_entry m i j) (get_entry x i j) (get_entry y i j).
Proof.
  destruct m as [mr | mx], x as [xr | xx], y as [yr | yx];
    intros H1 H2 Hv; try discriminate.
  - destruct (shape_Full_inj mr xr H1) as [Hl1 Hr1].
    destruct (shape_Full_inj xr yr H2) as [Hl2 Hr2].
    apply valid_Full in Hv. destruct Hv as [Hi Hj]. simpl.
    rewrite (nth_map3 (map3 select) mr xr yr i [] [] [] []) by lia.
    apply nth_map3; [rewrite Hr1 | | rewrite <- Hr2]; assumption.
  - simpl in *. inversion H1. inversion H2. apply nth_map3; lia.
Qed.

Lemma get_unsqueeze_k xs i :
  (i < List.length xs)%nat ->
  get_entry (unsqueeze_k (Batch xs)) i 0 = nth i xs 0.
Proof.
  intros Hi. simpl.
  now rewrite (nth_map_in (fun x => [x]) xs i [] 0) by assumption.
Qed.

Lemma column_row rows irows i :
  shape (Full irows) = column (shape (Full rows)) ->
  (i < List.length rows)%nat ->
  nth i irows [] = [get_entry (Full irows) i 0].
Proof.
  intros Hs Hi. destruct (column_Full_inj rows irows Hs) as [Hl Hr].
  specialize (Hr i ltac:(lia)). simpl.
  destruct (nth i irows []) as [| x [| y r]]; simpl in Hr; try discriminate.
  reflexivity.
Qed.

Lemma indices_column_ok rows irows :
  shape (Full irows) = column (shape (Full rows)) ->
  (forall i, (i < List.length rows)%nat ->
             index_ok (List.length (nth i rows [])) (get_entry (Full irows) i 0) = true) ->
  forallb2 indices_ok rows irows = true.
Proof.
  intros Hs H. destruct (column_Full_inj rows irows Hs) as [Hl Hr].
  apply (forallb2_nth indices_ok rows irows [] [] Hl). intros i Hi.
  rewrite (column_row rows irows i Hs Hi). unfold indices_ok. cbn [forallb].
  rewrite (H i Hi). reflexivity.
Qed.

Lemma get_scatter_k v rows irows i j :
  shape (Full irows) = column (shape (Full rows)) ->
  valid (shape (Full rows)) i j ->
  (index_of (get_entry (Full irows) i 0) < List.length (nth i rows []))%nat ->
  get_entry (scatter_k v (Full irows) (Full rows)) i j
  = if Nat.eqb j (index_of (get_entry (Full irows) i 0)) then v
    else get_entry (Full rows) i j.
Proof.
  intros Hs Hv Hk. destruct (column_Full_inj rows irows Hs) as [Hl Hr].
  apply valid_Full in Hv. destruct Hv as [Hi Hj].
  unfold scatter_k, get_entry.
  rewrite (nth_map2 (fun r i0 => scatter_row r i0 v) rows irows i [] [] []) by lia.
  rewrite (column_row rows irows i Hs Hi). unfold scatter_row. simpl fold_left.
  apply nth_set_nth. exact Hk.
Qed.

Lemma get_gather_k rows irows i :
  shape (Full irows) = column (shape (Full rows)) ->
  (i < List.length rows)%nat ->
  get_entry (gather_k (Full irows) (Full rows)) i 0
  = get_entry (Full rows) i (index_of (get_entry (Full irows) i 0)).
Proof.
  intros Hs Hi. destruct (column_Full_inj rows irows Hs) as [Hl Hr].
  unfold gather_k, get_entry.
  rewrite (nth_map2 (fun r i0 => map (fun x => nth (index_of x) r 0) i0)
             rows irows i [] [] []) by lia.
  rewrite (column_row rows irows i Hs Hi). reflexivity.
Qed.

Lemma unsqueeze_run t w xs :
  data t = Batch xs -> unsqueeze t w = (Ok (op1 unsqueeze_k t), w).
Proof. intros H. unfold unsqueeze. now rewrite H. Qed.

Lemma scatter_run self index v w rows irows :
  data self = Full rows -> data index = Full irows ->
  forallb2 indices_ok rows irows = true ->
  scatter_ self index v w = (Ok (op1 (scatter_k v (data index)) self), w).
Proof. intros H1 H2 H. unfold scatter_. now rewrite H1, H2, H. Qed.

Lemma gather_run self index w rows irows :
  data self = Full rows -> data index = Full irows ->
  forallb2 indices_ok rows irows = true ->
  gather self index w = (Ok (op1 (gather_k (data index)) self), w).
Proof. intros H1 H2 H. unfold gather. now rewrite H1, H2, H. Qed.

Lemma where_run mask x y w :
  shape (data mask) = shape (data x) -> shape (data x) = shape (data y) ->
  where_ mask x y w = (Ok (op2 (where_k (data mask)) x y), w).
Proof.
  intros H1 H2. unfold where_.
  rewrite H1, H2, !shape_eqb_refl. reflexivity.
Qed.

Lemma argmax_run t keepdim w rows :
  data t = Full rows -> forallb nonempty rows = true ->
  argmax t keepdim w
  = (Ok (constant (if keepdim
                   then Full (map (fun r => [INR (argmax_row r)]) rows)
                   else Batch (map (fun r => INR (argmax_row r)) rows))), w).
Proof. intros H1 H2. unfold argmax. now rewrite H1, H2. Qed.

Lemma has_last_axis_shape a b :
  shape a = shape b -> has_last_axis a = has_last_axis b.
Proof. destruct a, b; simpl; intros H; try discriminate; reflexivity. Qed.

Lemma nrows_Full rows : nrows (shape (Full rows)) = List.length rows.
Proof. simpl. apply length_map. Qed.

Lemma width_Full rows i :
  (i < List.length rows)%nat ->
  width (shape (Full rows)) i = List.length (nth i rows []).
Proof. intros H. simpl. now apply nth_map_in. Qed.


Lemma valid_iff t i j :
  has_last_axis t = true ->
  (valid (shape t) i j <-> (i < nrows (shape t))%nat /\ (j < width (shape t) i)%nat).
Proof. destruct t; [reflexivity | discriminate]. Qed.

Lemma shape_gather_column idx self :
  has_last_axis self = true -> shape idx = column (shape self) ->
  shape (gather_k idx self) = column (shape self).
Proof.
  destruct self as [rows | xs]; [| discriminate]. intros _ H.
  destruct idx as [irows | ys]; [| discriminate].
  rewrite <- H. apply shape_gather_k.
  now destruct (column_Full_inj rows irows H).
Qed.

Lemma shape_scatter_column v idx self :
  has_last_axis self = true -> shape idx = column (shape self) ->
  shape (scatter_k v idx self) = shape self.
Proof.
  destruct self as [rows | xs]; [| discriminate]. intros _ H.
  destruct idx as [irows | ys]; [| discriminate].
  apply shape_scatter_k. now destruct (column_Full_inj rows irows H).
Qed.

Lemma get_gather_column idx self i :
  has_last_axis self = true -> shape idx = column (shape self) ->
  (i < nrows (shape self))%nat ->
  get_entry (gather_k idx self) i 0
  = get_entry self i (index_of (get_entry idx i 0)).
Proof.
  destruct self as [rows | xs]; [| discriminate]. intros _ H Hi.
  destruct idx as [irows | ys]; [| discriminate].
  rewrite nrows_Full in Hi. now apply get_gather_k.
Qed.

Lemma get_scatter_column v idx self i j :
  has_last_axis self = true -> shape idx = column (shape self) ->
  valid (shape self) i j ->
  (index_of (get_entry idx i 0) < width (shape self) i)%nat ->
  get_entry (scatter_k v idx self) i j
  = if Nat.eqb j (index_of (get_entry idx i 0)) then v else get_entry self i j.
Proof.
  destruct self as [rows | xs]; [| discriminate]. intros _ H Hv Hk.
  destruct idx as [irows | ys]; [| discriminate].
  apply get_scatter_k; try assumption.
  rewrite <- width_Full; [assumption |]. apply valid_Full in Hv. tauto.
Qed.

Lemma get_tzip_col f a b i j :
  has_last_axis a = true -> shape b = column (shape a) -> valid (shape a) i j ->
  get_entry (tzip f a b) i j = f (get_entry a i j) (get_entry b i 0).
Proof.
  destruct a as [rows | xs]; [| discriminate]. intros _. apply get_tzip_column.
Qed.

Lemma indices_ok_column idx self :
  has_last_axis self = true -> shape idx = column (shape self) ->
  (forall i, (i < nrows (shape self))%nat ->
             exists k, (k < width (shape self) i)%nat /\ get_entry idx i 0 = INR k) ->
  exists rows irows, self = Full rows /\ idx = Full irows /\
                     forallb2 indices_ok rows irows = true.
Proof.
  destruct self as [rows | xs]; [| discriminate]. intros _ H Hk.
  destruct idx as [irows | ys]; [| discriminate].
  exists rows, irows. split; [reflexivity |]. split; [reflexivity |].
  apply indices_column_ok; [assumption |]. intros i Hi.
  destruct (Hk i) as [k [Hlt Hg]]; [now rewrite nrows_Full |].
  rewrite Hg. apply index_ok_INR. now rewrite <- width_Full.
Qed.

Lemma scatter_column_run self index v w :
  has_last_axis (data self) = true ->
  shape (data index) = column (shape (data self)) ->
  (forall i, (i < nrows (shape (data self)))%nat ->
             exists k, (k < width (shape (data self)) i)%nat /\
                       get_entry (data index) i 0 = INR k) ->
  scatter_ self index v w = (Ok (op1 (scatter_k v (data index)) self), w).
Proof.
  intros Ha Hs Hk.
  destruct (indices_ok_column _ _ Ha Hs Hk) as [rows [irows [H1 [H2 H3]]]].
  now apply (scatter_run self index v w rows irows).
Qed.

Lemma gather_column_run self index w :
  has_last_axis (data self) = true ->
  shape (data index) = column (shape (data self)) ->
  (forall i, (i < nrows (shape (data self)))%nat ->
             exists k, (k < width (shape (data self)) i)%nat /\
                       get_entry (data index) i 0 = INR k) ->
  gather self index w = (Ok (op1 (gather_k (data index)) self), w).
Proof.
  intros Ha Hs Hk.
  destruct (indices_ok_column _ _ Ha Hs Hk) as [rows [irows [H1 [H2 H3]]]].
  now apply (gather_run self index w rows irows).
Qed.

Arguments tmap : simpl never.
Arguments tzip : simpl never.
Arguments fill : simpl never.
Arguments rowwise : simpl never.
Arguments where_k : simpl never.
Arguments scatter_k : simpl never.
Arguments gather_k : simpl never.
Arguments unsqueeze_k : simpl never.

(** ** Conditional reparameterisation, categorical families *)

Lemma column_of_batch xs rows :
  List.length xs = List.length rows ->
  shape (unsqueeze_k (Batch xs)) = column (shape (Full rows)).
Proof.
  intros H. rewrite shape_unsqueeze_k. simpl. f_equal. rewrite map_map.
  revert rows H. induction xs as [| x xs IH]; intros [| r rows] H; simpl in *;
    try discriminate; [reflexivity |].
  f_equal. apply IH. lia.
Qed.

Lemma reaches_pointwise f t : reaches (pointwise f t) = reaches t.
Proof. apply reaches_op1. Qed.

(** The end of the two categorical branches of [_to_z_tilde]: gather the
    log-noise of the observed category, subtract it, and select. *)
Lemma conditional_tail (lv q mask index : Tensor) rows w :
  shape (data lv) = shape (Full rows) ->
  shape (data q) = shape (Full rows) ->
  shape (data mask) = shape (Full rows) ->
  shape (data index) = column (shape (Full rows)) ->
  (forall i, (i < List.length rows)%nat ->
             exists k, (k < List.length (nth i rows []))%nat /\
                       get_entry (data index) i 0 = INR k) ->
  exists zt,
    (g <- gather lv index ;;
     s <- sub q g ;;
     where_ mask (neg (log (neg lv))) (neg (log s))) w = (Ok zt, w) /\
    shape (data zt) = shape (Full rows) /\
    (reaches q = true -> reaches zt = true) /\
    forall i k j,
      (i < List.length rows)%nat -> get_entry (data index) i 0 = INR k ->
      (k < List.length (nth i rows []))%nat ->
      (j < List.length (nth i rows []))%nat ->
      get_entry (data zt) i j
      = select (get_entry (data mask) i j)
          (- ln (- get_entry (data lv) i j))
          (- ln (get_entry (data q) i j - get_entry (data lv) i k)).
Proof.
  intros Hlv Hq Hm Hidx Hsup.
  assert (Hax : has_last_axis (data lv) = true)
    by now rewrite (has_last_axis_shape _ _ Hlv).
  erewrite bind_ok.
  2:{ apply gather_column_run.
      - exact Hax.
      - now rewrite Hlv.
      - intros i Hi. rewrite Hlv in *. rewrite nrows_Full in Hi.
        rewrite width_Full by assumption. now apply Hsup. }
  assert (Hg : shape (gather_k (data index) (data lv)) = column (shape (Full rows))).
  { rewrite <- Hlv. apply shape_gather_column; [assumption | now rewrite Hlv]. }
  erewrite bind_ok.
  2:{ apply binop_run. simpl data. rewrite Hq, Hg. apply sbroadcastable_column_r. }
  assert (Hs : shape (tzip Rminus (data q) (gather_k (data index) (data lv)))
               = shape (Full rows)).
  { rewrite shape_tzip, Hq, Hg. apply sbcast_column_r. }
  eexists. split.
  { apply where_run; simpl data.
    - rewrite Hm, !shape_tmap. symmetry. exact Hlv.
    - rewrite !shape_tmap, Hs. exact Hlv. }
  simpl data. split; [| split].
  - rewrite shape_where_k; rewrite ?shape_tmap, ?Hs, ?Hm, ?Hlv; reflexivity.
  - intros Hr. apply reaches_op2_r. unfold neg, log.
    rewrite !reaches_pointwise. apply reaches_op2_l. exact Hr.
  - intros i k j Hi Hk Hkl Hj.
    assert (Hval : valid (shape (Full rows)) i j) by (apply valid_Full; auto).
    rewrite get_where_k; rewrite ?shape_tmap, ?Hs, ?Hm, ?Hlv;
      try reflexivity; try assumption.
    rewrite !get_tmap by (rewrite ?shape_tmap, ?Hs, ?Hlv; assumption).
    rewrite get_tzip_col.
    2:{ now rewrite (has_last_axis_shape _ _ Hq). }
    2:{ now rewrite Hq, Hg. }
    2:{ now rewrite Hq. }
    rewrite get_gather_column; try assumption.
    2:{ now rewrite Hlv. }
    2:{ rewrite Hlv, nrows_Full. assumption. }
    rewrite Hk, index_of_INR. reflexivity.
Qed.

Lemma _to_z_tilde_categorical al ab rows bs dist w :
  in_set dist BERNOULLI_SYNONYMS = false ->
  in_set dist CATEGORICAL_SYNONYMS = true ->
  List.length bs = List.length rows ->
  (forall i, (i < List.length rows)%nat ->
             exists k, (k < List.length (nth i rows []))%nat /\ nth i bs 0 = INR k) ->
  let logits := {| data := Full rows; autograd := al |} in
  let b := {| data := Batch bs; autograd := ab |} in
  exists zt,
    _to_z_tilde logits b dist w = (Ok zt, after_draw w logits) /\
    shape (data zt) = shape (Full rows) /\
    (reaches logits = true -> reaches zt = true) /\
    forall i k j,
      (i < List.length rows)%nat -> nth i bs 0 = INR k ->
      (k < List.length (nth i rows []))%nat ->
      (j < List.length (nth i rows []))%nat ->
      get_entry (data zt) i j
      = if Nat.eqb j k
        then - ln (- ln (get_entry (noise w (Full rows)) i j))
        else - ln (- ln (get_entry (noise w (Full rows)) i j)
                   / nth j (softmax_row (nth i rows [])) 0
                   - ln (get_entry (noise w (Full rows)) i k)).
Proof.
  intros Hb Hc Hlen Hsup logits b. unfold _to_z_tilde. rewrite Hb, Hc.
  erewrite bind_ok by apply rand_like_run.
  erewrite bind_ok by (apply last_axis_run; reflexivity).
  erewrite bind_ok by (eapply unsqueeze_run; reflexivity).
  set (v := noise w (Full rows)).
  set (idx := unsqueeze_k (tmap to_long (Batch bs))).
  assert (Hv : shape v = shape (Full rows)) by apply shape_noise.
  assert (Hidx : shape idx = column (shape (Full rows))).
  { apply (column_of_batch (map to_long bs) rows). now rewrite length_map. }
  assert (Hget : forall i k, (i < List.length rows)%nat -> nth i bs 0 = INR k ->
                             get_entry idx i 0 = INR k).
  { intros i k Hi Hk.
    change idx with (unsqueeze_k (Batch (map to_long bs))).
    rewrite get_unsqueeze_k by (rewrite length_map; lia).
    rewrite (nth_map_in to_long bs i 0 0) by lia. rewrite Hk. apply to_long_INR. }
  assert (Hin : forall i, (i < List.length rows)%nat ->
       exists k, (k < List.length (nth i rows []))%nat /\ get_entry idx i 0 = INR k).
  { intros i Hi. destruct (Hsup i Hi) as [k [Hk Hb']]. exists k.
    split; [assumption |]. now apply Hget. }
  assert (Hm : shape (scatter_k 1 idx (zeros_like (Full rows))) = shape (Full rows)).
  { rewrite shape_scatter_column; [apply shape_zeros_like | reflexivity |].
    now rewrite shape_zeros_like. }
  erewrite bind_ok.
  2:{ apply scatter_column_run; simpl data.
      - reflexivity.
      - now rewrite shape_zeros_like.
      - intros i Hi. rewrite shape_zeros_like in *. rewrite nrows_Full in Hi.
        rewrite width_Full by assumption. now apply Hin. }
  erewrite bind_ok by (apply binop_same; shapes).
  erewrite bind_ok by (eapply unsqueeze_run; reflexivity).
  match goal with
  | |- context [bind (gather ?lv ?index) (fun g => bind (sub ?q g) _)] =>
      destruct (conditional_tail lv q
                  (op1 (scatter_k 1 (data index)) (constant (zeros_like (data logits))))
                  index rows (after_draw w logits))
        as [zt [Hrun [Hshape [Hreach Hentry]]]]
  end.
  { shapes. }
  { shapes. }
  { exact Hm. }
  { exact Hidx. }
  { exact Hin. }
  exists zt. split; [exact Hrun |]. split; [exact Hshape |]. split.
  - intros Hr. apply Hreach. apply reaches_op2_r. rewrite reaches_op1. exact Hr.
  - intros i k j Hi Hk Hkl Hj.
    assert (Hval : valid (shape (Full rows)) i j) by (apply valid_Full; auto).
    assert (Hvalk : valid (shape (Full rows)) i k) by (apply valid_Full; auto).
    rewrite (Hentry i k j Hi (Hget i k Hi Hk) Hkl Hj).
    simpl data. fold (noise w (Full rows)). fold v. fold idx.
    rewrite get_scatter_column;
      try rewrite shape_zeros_like; try reflexivity; try assumption.
    2:{ rewrite (Hget i k Hi Hk), index_of_INR, width_Full; assumption. }
    rewrite (Hget i k Hi Hk), index_of_INR.
    rewrite get_tzip_same by side.
    unfold zeros_like.
    rewrite !get_tmap by (rewrite ?shape_tmap, ?Hv; assumption).
    rewrite get_rowwise by assumption.
    unfold select. destruct (Nat.eqb j k).
    + destruct (Req_dec_T 1 0); [lra | reflexivity].
    + destruct (Req_dec_T 0 0); [reflexivity | lra].
Qed.

Lemma forallb_nonempty rows :
  (forall i, (i < List.length rows)%nat -> (0 < List.length (nth i rows []))%nat) ->
  forallb nonempty rows = true.
Proof.
  induction rows as [| r rows IH]; intros H; simpl; [reflexivity |].
  apply andb_true_iff. split.
  - specialize (H 0%nat ltac:(simpl; lia)). simpl in H.
    destruct r; [simpl in H; lia | reflexivity].
  - apply IH. intros i Hi. apply (H (S i)). simpl. lia.
Qed.

Lemma shape_argmax_keepdim rows :
  shape (Full (map (fun r => [INR (argmax_row r)]) rows)) = column (shape (Full rows)).
Proof. simpl. f_equal. rewrite !map_map. reflexivity. Qed.

Lemma get_argmax_keepdim rows i :
  (i < List.length rows)%nat ->
  get_entry (Full (map (fun r => [INR (argmax_row r)]) rows)) i 0
  = INR (argmax_row (nth i rows [])).
Proof.
  intros Hi. simpl.
  now rewrite (nth_map_in (fun r => [INR (argmax_row r)]) rows i [] []) by assumption.
Qed.

Lemma argmax_row_one_hot r k :
  (k < List.length r)%nat ->
  (forall j, (j < List.length r)%nat -> nth j r 0 = one_hot_entry k j) ->
  argmax_row r = k.
Proof.
  intros Hk H. apply argmax_row_unique; [assumption |].
  intros j Hj Hne. rewrite (H j Hj), (H k Hk). unfold one_hot_entry.
  rewrite Nat.eqb_refl. destruct (Nat.eqb_spec j k); [contradiction | lra].
Qed.

Lemma byte_one_hot brows rows :
  shape (Full brows) = shape (Full rows) ->
  (forall i, (i < List.length rows)%nat ->
     exists k, (k < List.length (nth i rows []))%nat /\
       forall j, (j < List.length (nth i rows []))%nat ->
                 nth j (nth i brows []) 0 = one_hot_entry k j) ->
  tmap to_byte (Full brows) = Full brows.
Proof.
  intros Hs H. apply tensor_ext; [apply shape_tmap |].
  intros i j Hv. rewrite shape_tmap in Hv. rewrite get_tmap by assumption.
  rewrite Hs in Hv. apply valid_Full in Hv. destruct Hv as [Hi Hj].
  destruct (H i Hi) as [k [Hk Hrow]]. simpl. rewrite (Hrow j Hj).
  unfold one_hot_entry. destruct (Nat.eqb j k); [apply to_byte_1 | apply to_byte_0].
Qed.

Lemma _to_z_tilde_onehot al ab rows brows dist w :
  in_set dist BERNOULLI_SYNONYMS = false ->
  in_set dist CATEGORICAL_SYNONYMS = false ->
  in_set dist ONEHOT_SYNONYMS = true ->
  shape (Full brows) = shape (Full rows) ->
  (forall i, (i < List.length rows)%nat ->
     exists k, (k < List.length (nth i rows []))%nat /\
       forall j, (j < List.length (nth i rows []))%nat ->
                 nth j (nth i brows []) 0 = one_hot_entry k j) ->
  let logits := {| data := Full rows; autograd := al |} in
  let b := {| data := Full brows; autograd := ab |} in
  exists zt,
    _to_z_tilde logits b dist w = (Ok zt, after_draw w logits) /\
    shape (data zt) = shape (Full rows) /\
    (reaches logits = true -> reaches zt = true) /\
    forall i k j,
      (i < List.length rows)%nat ->
      (forall j', (j' < List.length (nth i rows []))%nat ->
                  nth j' (nth i brows []) 0 = one_hot_entry k j') ->
      (k < List.length (nth i rows []))%nat ->
      (j < List.length (nth i rows []))%nat ->
      get_entry (data zt) i j
      = if Nat.eqb j k
        then - ln (- ln (get_entry (noise w (Full rows)) i j))
        else - ln (- ln (get_entry (noise w (Full rows)) i j)
                   / nth j (softmax_row (nth i rows [])) 0
                   - ln (get_entry (noise w (Full rows)) i k)).
Proof.
  intros Hb Hc Ho Hsh Hsup logits b. unfold _to_z_tilde. rewrite Hb, Hc, Ho.
  destruct (shape_Full_inj brows rows Hsh) as [Hlen Hrow].
  pose proof (byte_one_hot brows rows Hsh Hsup) as Hbyte.
  erewrite bind_ok by apply rand_like_run.
  erewrite bind_ok by (apply last_axis_run; reflexivity).
  erewrite bind_ok by (apply binop_same; shapes).
  set (v := noise w (Full rows)).
  assert (Hv : shape v = shape (Full rows)) by apply shape_noise.
  assert (Hargk : forall i k, (i < List.length rows)%nat ->
            (forall j', (j' < List.length (nth i rows []))%nat ->
                  nth j' (nth i brows []) 0 = one_hot_entry k j') ->
            (k < List.length (nth i rows []))%nat ->
            argmax_row (nth i brows []) = k).
  { intros i k Hi Hk Hlt. apply argmax_row_one_hot; rewrite Hrow; assumption. }
  erewrite bind_ok.
  2:{ eapply argmax_run.
      - unfold byte. simpl data. exact Hbyte.
      - apply forallb_nonempty. intros i Hi. rewrite Hrow.
        destruct (Hsup i ltac:(lia)) as [k [Hk _]]. lia. }
  match goal with
  | |- context [bind (gather ?lv ?index) (fun g => bind (sub ?q g) _)] =>
      destruct (conditional_tail lv q (byte b) index rows (after_draw w logits))
        as [zt [Hrun [Hshape [Hreach Hentry]]]]
  end.
  { shapes. }
  { shapes. }
  { unfold byte. simpl data. now rewrite Hbyte. }
  { simpl data. now rewrite shape_argmax_keepdim, Hsh. }
  { intros i Hi. destruct (Hsup i Hi) as [k [Hk Hr]]. exists k.
    split; [assumption |]. simpl data.
    rewrite get_argmax_keepdim by lia. f_equal. now apply Hargk. }
  exists zt. split; [exact Hrun |]. split; [exact Hshape |]. split.
  - intros Hr. apply Hreach. apply reaches_op2_r. rewrite reaches_op1. exact Hr.
  - intros i k j Hi Hk Hkl Hj.
    assert (Hval : valid (shape (Full rows)) i j) by (apply valid_Full; auto).
    assert (Hvalk : valid (shape (Full rows)) i k) by (apply valid_Full; auto).
    rewrite (Hentry i k j Hi); try assumption.
    2:{ simpl data. rewrite get_argmax_keepdim by lia. f_equal. now apply Hargk. }
    unfold byte. simpl data. rewrite Hbyte.
    fold (noise w (Full rows)). fold v.
    rewrite get_tzip_same by side.
    rewrite !get_tmap by (rewrite ?shape_tmap, ?Hv; assumption).
    rewrite get_rowwise by assumption.
    change (get_entry (Full brows) i j) with (nth j (nth i brows []) 0).
    rewrite (Hk j Hj). unfold select, one_hot_entry. destruct (Nat.eqb j k).
    + destruct (Req_dec_T 1 0); [lra | reflexivity].
    + destruct (Req_dec_T 0 0); [reflexivity | lra].
Qed.

(** ** Discretisation *)

Lemma nonempty_rows_of_width t :
  has_last_axis t = true ->
  (forall i, (i < nrows (shape t))%nat -> (0 < width (shape t) i)%nat) ->
  exists rows, t = Full rows /\ forallb nonempty rows = true.
Proof.
  destruct t as [rows | xs]; [| discriminate]. intros _ H.
  exists rows. split; [reflexivity |]. apply forallb_nonempty. intros i Hi.
  rewrite <- width_Full by assumption. apply H. now rewrite nrows_Full.
Qed.

Lemma to_b_spec z dist w fam :
  family_of dist = Some fam ->
  (fam <> Bernoulli ->
   has_last_axis (data z) = true /\
   forall i, (i < nrows (shape (data z)))%nat -> (0 < width (shape (data z)) i)%nat) ->
  exists b, to_b z dist w = (Ok b, w) /\ data b = discretize fam (data z) /\
            requires_grad b = false.
Proof.
  intros Hfam Hne. unfold to_b. destruct fam.
  - apply family_of_Bernoulli in Hfam. rewrite Hfam.
    eexists. split; [reflexivity |]. split; reflexivity.
  - apply family_of_Categorical in Hfam. destruct Hfam as [Hb Hc]. rewrite Hb, Hc.
    destruct Hne as [Hax Hw]; [discriminate |].
    destruct (nonempty_rows_of_width _ Hax Hw) as [rows [Hrows Hn]].
    erewrite (argmax_run z false w rows) by assumption.
    eexists. split; [reflexivity |]. rewrite Hrows. split; reflexivity.
  - apply family_of_OneHot in Hfam. destruct Hfam as [Hb [Hc Ho]].
    rewrite Hb, Hc, Ho.
    destruct Hne as [Hax Hw]; [discriminate |].
    destruct (nonempty_rows_of_width _ Hax Hw) as [rows [Hrows Hn]].
    erewrite bind_ok by (apply (argmax_run z true w rows); assumption).
    rewrite Hrows.
    assert (Hk : forall i, (i < List.length rows)%nat ->
                           (argmax_row (nth i rows []) < List.length (nth i rows []))%nat).
    { intros i Hi. apply argmax_row_lt.
      rewrite forallb_forall in Hn. apply Hn. now apply nth_In. }
    erewrite scatter_column_run.
    + eexists. split; [reflexivity |]. split; [| reflexivity].
      simpl data. apply tensor_ext.
      * rewrite shape_scatter_column; [| reflexivity |];
          rewrite shape_zeros_like; [| apply shape_argmax_keepdim].
        simpl. f_equal. rewrite !map_map. apply map_ext. intros r.
        now rewrite length_mapi.
      * intros i j Hv.
        rewrite shape_scatter_column in Hv; [| reflexivity |];
          rewrite shape_zeros_like in *; [| apply shape_argmax_keepdim].
        pose proof Hv as Hv'. apply valid_Full in Hv'. destruct Hv' as [Hi Hj].
        rewrite get_scatter_column; try reflexivity;
          rewrite ?shape_zeros_like; try assumption;
          try apply shape_argmax_keepdim.
        2:{ rewrite get_argmax_keepdim, index_of_INR, width_Full by assumption.
            now apply Hk. }
        rewrite get_argmax_keepdim, index_of_INR by assumption.
        unfold zeros_like. rewrite get_tmap by assumption.
        simpl get_entry.
        rewrite (nth_map_in _ rows i [] []) by assumption.
        rewrite (nth_mapi _ (nth i rows []) j 0 0) by assumption.
        reflexivity.
    + reflexivity.
    + simpl data. rewrite shape_zeros_like. apply shape_argmax_keepdim.
    + simpl data. rewrite shape_zeros_like. intros i Hi.
      rewrite nrows_Full in Hi. exists (argmax_row (nth i rows [])).
      rewrite width_Full by assumption. split; [now apply Hk |].
      now apply get_argmax_keepdim.
Qed.

Lemma gt0_cases x : (0 < x /\ gt0 x = 1) \/ (~ 0 < x /\ gt0 x = 0).
Proof. unfold gt0. destruct (Rlt_dec 0 x); [left | right]; auto. Qed.

Lemma discretize_in_support fam z :
  (fam <> Bernoulli ->
   has_last_axis z = true /\
   forall i, (i < nrows (shape z))%nat -> (0 < width (shape z) i)%nat) ->
  in_support fam (shape z) (discretize fam z) /\
  discretizes fam z (discretize fam z).
Proof.
  intros Hne. destruct fam.
  - simpl. split; [split; [apply shape_tmap |] |].
    + intros i j Hv. rewrite get_tmap by assumption.
      destruct (gt0_cases (get_entry z i j)) as [[_ ->] | [_ ->]]; auto.
    + intros i j Hv. rewrite get_tmap by assumption.
      destruct (gt0_cases (get_entry z i j)) as [[H ->] | [H ->]]; split; intros;
        try assumption; try reflexivity; try lra.
  - destruct Hne as [Hax Hw]; [discriminate |].
    destruct (nonempty_rows_of_width _ Hax Hw) as [rows [-> Hn]].
    assert (Hg : forall i, (i < List.length rows)%nat ->
              get_entry (discretize Categorical (Full rows)) i 0
              = INR (argmax_row (nth i rows []))).
    { intros i Hi. simpl.
      now rewrite (nth_map_in (fun r => INR (argmax_row r)) rows i 0 []) by assumption. }
    split; [split |].
    + simpl. now rewrite !length_map.
    + intros i Hi. rewrite nrows_Full in Hi. exists (argmax_row (nth i rows [])).
      rewrite width_Full by assumption. split; [| now apply Hg].
      apply argmax_row_lt. rewrite forallb_forall in Hn. apply Hn. now apply nth_In.
    + intros i Hi. rewrite nrows_Full in Hi. now apply Hg.
  - destruct Hne as [Hax Hw]; [discriminate |].
    destruct (nonempty_rows_of_width _ Hax Hw) as [rows [-> Hn]].
    assert (Hk : forall i, (i < List.length rows)%nat ->
                           (argmax_row (nth i rows []) < List.length (nth i rows []))%nat).
    { intros i Hi. apply argmax_row_lt.
      rewrite forallb_forall in Hn. apply Hn. now apply nth_In. }
    assert (Hg : forall i j, (i < List.length rows)%nat ->
              (j < List.length (nth i rows []))%nat ->
              get_entry (discretize OneHotCategorical (Full rows)) i j
              = one_hot_entry (argmax_row (nth i rows [])) j).
    { intros i j Hi Hj. simpl.
      rewrite (nth_map_in _ rows i [] []) by assumption.
      now rewrite (nth_mapi _ (nth i rows []) j 0 0) by assumption. }
    split; [split |].
    + simpl. f_equal. rewrite map_map. apply map_ext. intros r. apply length_mapi.
    + intros i Hi. rewrite nrows_Full in Hi. exists (argmax_row (nth i rows [])).
      rewrite width_Full by assumption. split; [now apply Hk |].
      intros j Hj. now apply Hg.
    + intros i Hi. rewrite nrows_Full in Hi. simpl row.
      rewrite Hg by auto. unfold one_hot_entry. now rewrite Nat.eqb_refl.
Qed.

Lemma shape_entrywise2 f a b : shape a = shape b -> shape (entrywise2 f a b) = shape a.
Proof.
  intros H. rewrite <- tzip_same by assumption. rewrite shape_tzip, H.
  apply sbcast_refl.
Qed.

Lemma shape_injected fam logits u :
  shape u = shape logits -> shape (injected fam logits u) = shape logits.
Proof.
  intros H. destruct fam; simpl; rewrite shape_entrywise2;
    rewrite ?shape_log_softmax; auto.
Qed.

Lemma to_z_shaped logits dist warn w fam :
  family_of dist = Some fam ->
  (fam <> Bernoulli -> has_last_axis (data logits) = true) ->
  exists z w1,
    to_z logits dist warn w = (Ok z, w1) /\
    shape (data z) = shape (data logits).
Proof.
  intros Hfam Hax.
  assert (H : exists z w1,
             to_z logits dist warn w = (Ok z, w1) /\
             data z = injected fam (data logits) (noise w (data logits))).
  { destruct fam.
    - apply family_of_Bernoulli in Hfam.
      destruct (to_z_bernoulli logits dist warn w Hfam) as [z [w1 [H1 [H2 _]]]].
      eauto.
    - apply family_of_Categorical in Hfam. destruct Hfam as [Hb Hc].
      destruct (to_z_categorical logits dist warn w Hb) as [z [w1 [H1 [H2 _]]]];
        [now rewrite Hc | apply Hax; discriminate | eauto].
    - apply family_of_OneHot in Hfam. destruct Hfam as [Hb [Hc Ho]].
      destruct (to_z_categorical logits dist warn w Hb) as [z [w1 [H1 [H2 _]]]];
        [now rewrite Ho, orb_true_r | apply Hax; discriminate | eauto]. }
  destruct H as [z [w1 [Hz Hdata]]]. exists z, w1. split; [assumption |].
  rewrite Hdata. apply shape_injected. apply shape_noise.
Qed.

(** C6.  For a tag of family [fam] and logits whose rows are not empty,
    [to_b (to_z logits)] is returned and lies in the support of the family:
    every entry is 0 or 1 (Bernoulli); every entry is an index below the
    length of its row of logits (Categorical); every row has a 1 at one
    position and 0 elsewhere (OneHotCategorical). *)
Theorem sample_in_support
  (logits : Tensor) (dist : string) (warn : bool) (w : world) (fam : family) :
  family_of dist = Some fam ->
  (fam <> Bernoulli ->
   has_last_axis (data logits) = true /\
   forall i, (i < nrows (shape (data logits)))%nat ->
             (0 < width (shape (data logits)) i)%nat) ->
  exists z w1 b,
    to_z logits dist warn w = (Ok z, w1) /\
    to_b z dist w1 = (Ok b, w1) /\
    in_support fam (shape (data logits)) (data b).
Proof.
  intros Hfam Hne.
  destruct (to_z_shaped logits dist warn w fam Hfam) as [z [w1 [Hz Hsz]]].
  { intros H. now apply Hne. }
  assert (Hne' : fam <> Bernoulli ->
            has_last_axis (data z) = true /\
            forall i, (i < nrows (shape (data z)))%nat ->
                      (0 < width (shape (data z)) i)%nat).
  { intros H. rewrite Hsz, (has_last_axis_shape _ _ Hsz). now apply Hne. }
  destruct (to_b_spec z dist w1 fam Hfam Hne') as [b [Hb [Hbd _]]].
  exists z, w1, b. split; [assumption |]. split; [assumption |].
  rewrite Hbd, <- Hsz. now apply discretize_in_support.
Qed.

Lemma gt0_z_tilde_bern l b v :
  0 < v < 1 -> b = 0 \/ b = 1 -> gt0 (z_tilde_bern l b v) = b.
Proof.
  intros Hv [-> | ->].
  - pose proof (z_tilde_bern_0 l v Hv).
    destruct (gt0_cases (z_tilde_bern l 0 v)) as [[H1 _] | [_ H1]]; [lra | exact H1].
  - pose proof (z_tilde_bern_1 l v Hv).
    destruct (gt0_cases (z_tilde_bern l 1 v)) as [[_ H1] | [H1 _]]; [exact H1 | lra].
Qed.

Lemma argmax_conditional_row (zrow : list R) (k n : nat) (v theta : nat -> R) :
  List.length zrow = n -> (k < n)%nat ->
  (forall j, (j < n)%nat -> 0 < v j < 1) ->
  (forall j, (j < n)%nat -> 0 < theta j) ->
  (forall j, (j < n)%nat ->
     nth j zrow 0 = if Nat.eqb j k then - ln (- ln (v j))
                    else - ln (- ln (v j) / theta j - ln (v k))) ->
  argmax_row zrow = k.
Proof.
  intros Hl Hk Hv Ht Hz. apply argmax_row_unique; [lia |].
  intros j Hj Hne. rewrite Hl in Hj. rewrite (Hz j Hj), (Hz k Hk), Nat.eqb_refl.
  destruct (Nat.eqb_spec j k); [contradiction |].
  apply z_tilde_cat_order; auto.
Qed.

(** ** The conditional surrogate discretises to the sample (C1) *)

Lemma softmax_pos rows i j :
  (i < List.length rows)%nat -> (j < List.length (nth i rows []))%nat ->
  0 < nth j (softmax_row (nth i rows [])) 0.
Proof. intros _ Hj. now apply softmax_row_pos. Qed.

Lemma conditional_argmax rows zrows w i k :
  shape (Full zrows) = shape (Full rows) ->
  (i < List.length rows)%nat -> (k < List.length (nth i rows []))%nat ->
  (forall j, (j < List.length (nth i rows []))%nat ->
     get_entry (Full zrows) i j
     = if Nat.eqb j k
       then - ln (- ln (get_entry (noise w (Full rows)) i j))
       else - ln (- ln (get_entry (noise w (Full rows)) i j)
                  / nth j (softmax_row (nth i rows [])) 0
                  - ln (get_entry (noise w (Full rows)) i k))) ->
  argmax_row (nth i zrows []) = k.
Proof.
  intros Hs Hi Hk Hent. destruct (shape_Full_inj zrows rows Hs) as [Hl Hr].
  apply (argmax_conditional_row (nth i zrows []) k (List.length (nth i rows []))
           (fun j => get_entry (noise w (Full rows)) i j)
           (fun j => nth j (softmax_row (nth i rows [])) 0)).
  - apply Hr.
  - assumption.
  - intros j Hj. apply noise_unit. apply valid_Full. auto.
  - intros j Hj. now apply softmax_row_pos.
  - intros j Hj. apply (Hent j Hj).
Qed.

Lemma _to_z_tilde_run logits b dist w fam :
  family_of dist = Some fam ->
  (fam <> Bernoulli -> has_last_axis (data logits) = true) ->
  in_support fam (shape (data logits)) (data b) ->
  exists z_tilde,
    _to_z_tilde logits b dist w = (Ok z_tilde, after_draw w logits) /\
    shape (data z_tilde) = shape (data logits) /\
    (reaches logits = true -> reaches z_tilde = true) /\
    (fam <> Bernoulli ->
     forall i, (i < nrows (shape (data logits)))%nat ->
               (0 < width (shape (data logits)) i)%nat) /\
    discretize fam (data z_tilde) = data b.
Proof.
  intros Hfam Hax Hsup.
  destruct fam.
  - destruct Hsup as [Hsh Hent].
    apply family_of_Bernoulli in Hfam.
    destruct (_to_z_tilde_bernoulli logits b dist w Hfam Hsh)
      as [zt [Hrun [Hsz [Hre Hz]]]].
    exists zt. split; [assumption |]. split; [assumption |].
    split; [exact Hre |].
    split; [intros H; now contradiction H |].
    simpl. apply tensor_ext; [now rewrite shape_tmap, Hsz, Hsh |].
    intros i j Hv. rewrite shape_tmap in Hv. rewrite get_tmap by assumption.
    rewrite Hsz in Hv. rewrite (Hz i j Hv).
    apply gt0_z_tilde_bern; [now apply noise_unit | now apply Hent].
  - specialize (Hax ltac:(discriminate)).
    destruct logits as [[rows | xs] al]; [| discriminate].
    destruct b as [[brows | bs] ab]; destruct Hsup as [Hsh Hent];
      [discriminate |].
    simpl data in *. rewrite nrows_Full in Hent.
    assert (Hlen : List.length bs = List.length rows).
    { simpl in Hsh. inversion Hsh as [Hl]. now rewrite length_map in Hl. }
    assert (Hsup : forall i, (i < List.length rows)%nat ->
              exists k, (k < List.length (nth i rows []))%nat /\ nth i bs 0 = INR k).
    { intros i Hi. destruct (Hent i Hi) as [k [Hk Hg]].
      rewrite width_Full in Hk by assumption. eauto. }
    apply family_of_Categorical in Hfam. destruct Hfam as [Hb Hc].
    destruct (_to_z_tilde_categorical al ab rows bs dist w Hb Hc Hlen Hsup)
      as [zt [Hrun [Hsz [Hre Hz]]]].
    exists zt. split; [assumption |]. split; [assumption |].
    split; [exact Hre |]. split.
    { intros _ i Hi. simpl data in Hi. rewrite nrows_Full in Hi.
      simpl data. rewrite width_Full by assumption.
      destruct (Hsup i Hi) as [k [Hk _]]. lia. }
    destruct (data zt) as [zrows | zs]; [| discriminate].
    destruct (shape_Full_inj zrows rows Hsz) as [Hzl Hzr].
    simpl. f_equal. apply (nth_ext _ _ 0 0); [rewrite length_map; lia |].
    intros i Hi. rewrite length_map in Hi.
    rewrite (nth_map_in (fun r => INR (argmax_row r)) zrows i 0 []) by assumption.
    destruct (Hsup i ltac:(lia)) as [k [Hk Hbk]]. rewrite Hbk. f_equal.
    apply (conditional_argmax rows zrows w i k Hsz); [lia | assumption |].
    intros j Hj. apply Hz; (assumption || lia).
  - specialize (Hax ltac:(discriminate)).
    destruct logits as [[rows | xs] al]; [| discriminate].
    destruct b as [[brows | bs] ab]; destruct Hsup as [Hsh Hent];
      [| discriminate].
    simpl data in *. rewrite nrows_Full in Hent.
    assert (Hsup : forall i, (i < List.length rows)%nat ->
              exists k, (k < List.length (nth i rows []))%nat /\
                forall j, (j < List.length (nth i rows []))%nat ->
                          nth j (nth i brows []) 0 = one_hot_entry k j).
    { intros i Hi. destruct (Hent i Hi) as [k [Hk Hg]].
      rewrite width_Full in Hk, Hg by assumption. eauto. }
    apply family_of_OneHot in Hfam. destruct Hfam as [Hb [Hc Ho]].
    destruct (_to_z_tilde_onehot al ab rows brows dist w Hb Hc Ho Hsh Hsup)
      as [zt [Hrun [Hsz [Hre Hz]]]].
    exists zt. split; [assumption |]. split; [assumption |].
    split; [exact Hre |]. split.
    { intros _ i Hi. simpl data in Hi. rewrite nrows_Full in Hi.
      simpl data. rewrite width_Full by assumption.
      destruct (Hsup i Hi) as [k [Hk _]]. lia. }
    destruct (data zt) as [zrows | zs]; [| discriminate].
    destruct (shape_Full_inj zrows rows Hsz) as [Hzl Hzr].
    destruct (shape_Full_inj brows rows Hsh) as [Hbl Hbr].
    apply tensor_ext.
    { rewrite Hsh, <- Hsz. simpl. f_equal. rewrite map_map. apply map_ext.
      intros r. apply length_mapi. }
    intros i j Hv.
    assert (Hv' : valid (shape (Full zrows)) i j).
    { revert Hv. simpl. rewrite !map_map.
      assert (E : map (fun r => List.length (mapi (fun j0 (_ : R) =>
                     one_hot_entry (argmax_row r) j0) r)) zrows
                  = map (@List.length R) zrows)
        by (apply map_ext; intros r; apply length_mapi).
      now rewrite E. }
    apply valid_Full in Hv'. destruct Hv' as [Hi Hj].
    simpl get_entry.
    rewrite (nth_map_in _ zrows i [] []) by assumption.
    rewrite (nth_mapi _ (nth i zrows []) j 0 0) by assumption.
    destruct (Hsup i ltac:(lia)) as [k [Hk Hbk]].
    rewrite Hbk by (rewrite <- Hzr; assumption). f_equal.
    apply (conditional_argmax rows zrows w i k Hsz); [lia | assumption |].
    intros j' Hj'. apply Hz; (assumption || lia).
Qed.


(** ** The engine computes derivatives *)

Lemma Derive_unique f x l : derivable_pt_lim f x l -> Derive f x = l.
Proof.
  intros H. unfold Derive.
  apply (uniqueness_limite f x); [| exact H].
  apply epsilon_spec. exists l. exact H.
Qed.

Lemma derivable_pt_lim_ext f g x l :
  (forall s, f s = g s) -> derivable_pt_lim g x l -> derivable_pt_lim f x l.
Proof.
  intros Hfg Hg eps Heps. destruct (Hg eps Heps) as [delta Hd].
  exists delta. intros h Hh Hlt. rewrite !Hfg. now apply Hd.
Qed.

Lemma get_gradient L x i j :
  valid (shape x) i j ->
  get_entry (gradient L x) i j
  = Derive (fun s => L (set_entry x i j s)) (get_entry x i j).
Proof.
  destruct x as [rows | xs]; intros Hv.
  - apply valid_Full in Hv. destruct Hv as [Hi Hj]. unfold gradient, get_entry.
    rewrite (nth_mapi _ rows i [] []) by assumption.
    now rewrite (nth_mapi _ (nth i rows []) j 0 0) by assumption.
  - simpl in Hv. unfold gradient, get_entry.
    now rewrite (nth_mapi _ xs i 0 0) by assumption.
Qed.

Lemma Rsum_set_nth j v r :
  (j < List.length r)%nat -> Rsum (set_nth j v r) = Rsum r - nth j r 0 + v.
Proof.
  revert j. induction r as [| x r IH]; intros [| j] H; simpl in *; try lia.
  - lra.
  - rewrite IH by lia. lra.
Qed.

Lemma tsum_set_entry t i j v :
  valid (shape t) i j ->
  tsum (set_entry t i j v) = tsum t - get_entry t i j + v.
Proof.
  destruct t as [rows | xs]; intros Hv.
  - apply valid_Full in Hv. destruct Hv as [Hi Hj]. simpl.
    revert i Hi Hj. induction rows as [| r rows IH]; intros [| i] Hi Hj;
      simpl in *; try lia.
    + rewrite Rsum_set_nth by assumption. lra.
    + rewrite IH by (assumption || lia). lra.
  - simpl in *. now apply Rsum_set_nth.
Qed.

Lemma shape_set_entry t i j v : shape (set_entry t i j v) = shape t.
Proof.
  destruct t as [rows | xs]; simpl; f_equal.
  - revert i. induction rows as [| r rows IH]; intros [| i]; simpl; try reflexivity.
    + now rewrite length_set_nth.
    + now rewrite IH.
  - apply length_set_nth.
Qed.

Lemma get_set_entry t i j v i' j' :
  valid (shape t) i j -> valid (shape t) i' j' ->
  get_entry (set_entry t i j v) i' j'
  = match t with
    | Full _ => if Nat.eqb i' i && Nat.eqb j' j then v else get_entry t i' j'
    | Batch _ => if Nat.eqb i' i then v else get_entry t i' j'
    end.
Proof.
  destruct t as [rows | xs]; intros Hv Hv'.
  - apply valid_Full in Hv, Hv'. destruct Hv as [Hi Hj], Hv' as [Hi' Hj'].
    unfold set_entry, get_entry. rewrite nth_set_nth by assumption.
    destruct (Nat.eqb_spec i' i) as [-> | Hne]; simpl; [| reflexivity].
    now rewrite nth_set_nth by assumption.
  - simpl in *. now apply nth_set_nth.
Qed.

(** Replacing one entry of the first operand replaces that entry of the
    result, for operands of one shape. *)
Lemma tzip_set_entry_l f a b i j v :
  shape a = shape b -> valid (shape a) i j ->
  tzip f (set_entry a i j v) b
  = set_entry (tzip f a b) i j (f v (get_entry b i j)).
Proof.
  intros Hs Hv.
  assert (Hz : shape (tzip f a b) = shape a)
    by (rewrite shape_tzip, Hs; apply sbcast_refl).
  apply tensor_ext.
  - repeat (rewrite shape_tzip || rewrite shape_set_entry). reflexivity.
  - intros i' j' Hv'.
    repeat (rewrite shape_tzip in Hv' || rewrite shape_set_entry in Hv').
    rewrite <- Hs, sbcast_refl in Hv'.
    rewrite get_tzip_same by (rewrite ?shape_set_entry; assumption).
    rewrite !get_set_entry by (rewrite ?Hz; assumption).
    rewrite get_tzip_same by assumption.
    destruct a as [ra | xa], b as [rb | xb]; try discriminate; unfold tzip.
    + destruct (Nat.eqb_spec i' i) as [-> | Hi];
        destruct (Nat.eqb_spec j' j) as [-> | Hj]; simpl; reflexivity.
    + destruct (Nat.eqb_spec i' i) as [-> | Hi]; simpl; reflexivity.
Qed.

Lemma tzip_set_entry_r f a b i j v :
  shape a = shape b -> valid (shape a) i j ->
  tzip f a (set_entry b i j v)
  = set_entry (tzip f a b) i j (f (get_entry a i j) v).
Proof.
  intros Hs Hv.
  assert (Hz : shape (tzip f a b) = shape a)
    by (rewrite shape_tzip, Hs; apply sbcast_refl).
  apply tensor_ext.
  - repeat (rewrite shape_tzip || rewrite shape_set_entry). reflexivity.
  - intros i' j' Hv'.
    repeat (rewrite shape_tzip in Hv' || rewrite shape_set_entry in Hv').
    rewrite <- Hs, sbcast_refl in Hv'.
    rewrite get_tzip_same by (rewrite ?shape_set_entry; assumption).
    rewrite !get_set_entry by (rewrite ?Hz, <- ?Hs; assumption).
    rewrite get_tzip_same by assumption.
    destruct a as [ra | xa], b as [rb | xb]; try discriminate; unfold tzip.
    + destruct (Nat.eqb_spec i' i) as [-> | Hi];
        destruct (Nat.eqb_spec j' j) as [-> | Hj]; simpl; reflexivity.
    + destruct (Nat.eqb_spec i' i) as [-> | Hi]; simpl; reflexivity.
Qed.

Lemma sigmoid_pos x : 0 < sigmoid x < 1.
Proof.
  unfold sigmoid. pose proof (exp_pos (- x)) as He.
  assert (H : 0 < / (1 + exp (- x))) by (apply Rinv_0_lt_compat; lra).
  split; [exact H |].
  rewrite <- Rinv_1 at 2. apply Rinv_lt_contravar; lra.
Qed.

Lemma bernoulli_lp_softplus s y :
  bernoulli_lp s y = - (1 - y) * s - ln (1 + exp (- s)).
Proof.
  unfold bernoulli_lp, sigmoid. pose proof (exp_pos (- s)) as He.
  assert (H1 : ln (/ (1 + exp (- s))) = - ln (1 + exp (- s)))
    by (apply ln_Rinv; lra).
  assert (H2 : 1 - / (1 + exp (- s)) = exp (- s) * / (1 + exp (- s)))
    by (field; lra).
  rewrite H2, ln_mult, H1, ln_exp; [lra | lra |].
  apply Rinv_0_lt_compat. lra.
Qed.

Lemma derivable_bernoulli_lp y x :
  derivable_pt_lim (fun s => bernoulli_lp s y) x (y - sigmoid x).
Proof.
  pose proof (exp_pos (- x)) as He.
  apply (derivable_pt_lim_ext _
           (mult_real_fct (- (1 - y)) id
            - comp ln (fct_cte 1 + comp exp (- id)))%F).
  - intros s. rewrite bernoulli_lp_softplus. reflexivity.
  - replace (y - sigmoid x)
      with (- (1 - y) * 1 - / (1 + exp (- x)) * (0 + exp (- x) * - 1)).
    2:{ unfold sigmoid. field. lra. }
    apply derivable_pt_lim_minus.
    + apply derivable_pt_lim_scal. apply derivable_pt_lim_id.
    + apply derivable_pt_lim_comp.
      * apply derivable_pt_lim_plus.
        -- apply derivable_pt_lim_const.
        -- apply derivable_pt_lim_comp.
           ++ apply derivable_pt_lim_opp. apply derivable_pt_lim_id.
           ++ apply derivable_pt_lim_exp.
      * apply derivable_pt_lim_ln. unfold plus_fct, fct_cte, comp, opp_fct, id. lra.
Qed.

(** The gradient the engine returns for the Bernoulli log-probability is
    the familiar [b - sigmoid(logits)], entry by entry. *)
Lemma score_bernoulli logits b i j :
  shape b = shape logits -> valid (shape logits) i j ->
  get_entry (score Bernoulli logits b) i j
  = get_entry b i j - sigmoid (get_entry logits i j).
Proof.
  intros Hs Hv. unfold score. rewrite get_gradient by assumption.
  apply Derive_unique. cbn [log_prob].
  set (G := tzip bernoulli_lp logits b).
  assert (HG : shape G = shape logits)
    by (unfold G; rewrite shape_tzip, Hs; apply sbcast_refl).
  set (T := tzip Rmult (ones_like G) G).
  assert (HT : shape T = shape logits)
    by (unfold T; rewrite shape_tzip, shape_ones_like, HG; apply sbcast_refl).
  apply (derivable_pt_lim_ext _
           (fun s => tsum T - get_entry T i j
                     + 1 * bernoulli_lp s (get_entry b i j))).
  - intros s.
    rewrite tzip_set_entry_l by (assumption || now symmetry).
    fold G.
    rewrite tzip_set_entry_r by (rewrite shape_ones_like; (reflexivity || now rewrite HG)).
    fold T. rewrite tsum_set_entry by now rewrite HT.
    unfold ones_like. rewrite get_tmap by now rewrite HG. reflexivity.
  - replace (get_entry b i j - sigmoid (get_entry logits i j))
      with (0 + 1 * (get_entry b i j - sigmoid (get_entry logits i j))) by ring.
    apply (derivable_pt_lim_plus (fct_cte (tsum T - get_entry T i j))
             (mult_real_fct 1 (fun s => bernoulli_lp s (get_entry b i j)))).
    + apply derivable_pt_lim_const.
    + apply derivable_pt_lim_scal. apply derivable_bernoulli_lp.
Qed.

(** The same for the categorical families: the gradient of the normalised
    logit of the observed category is [onehot(b) - softmax(logits)]. *)
Lemma get_squeeze_k t i s :
  has_last_axis t = true -> shape t = column s -> (i < nrows (shape t))%nat ->
  get_entry (squeeze_k t) i 0 = get_entry t i 0.
Proof.
  destruct t as [rows | xs]; [| discriminate]. intros _ Hs Hi.
  rewrite nrows_Full in Hi. unfold squeeze_k, get_entry.
  rewrite (nth_map_in (hd 0) rows i 0 []) by assumption.
  destruct (nth i rows []); reflexivity.
Qed.

Lemma nth_log_softmax_row r k :
  (k < List.length r)%nat ->
  nth k (log_softmax_row r) 0 = nth k r 0 - ln (Rsum (map exp r)).
Proof.
  intros H. unfold log_softmax_row.
  now rewrite (nth_map_in (fun x => x - ln (Rsum (map exp r))) r k 0 0).
Qed.

Lemma nth_softmax_row r k :
  (k < List.length r)%nat ->
  nth k (softmax_row r) 0 = exp (nth k r 0) / Rsum (map exp r).
Proof.
  intros H. unfold softmax_row.
  now rewrite (nth_map_in (fun x => exp x / Rsum (map exp r)) r k 0 0).
Qed.

(** The log-probability of the Categorical family, entry by entry. *)
Lemma get_log_prob_categorical l b i k :
  has_last_axis l = true ->
  in_support Categorical (shape l) b ->
  (i < nrows (shape l))%nat -> get_entry b i 0 = INR k ->
  shape (log_prob Categorical l b) = per_row (shape l) /\
  get_entry (log_prob Categorical l b) i 0
  = nth k (row l i) 0 - ln (Rsum (map exp (row l i))).
Proof.
  intros Hax [Hsh Hent] Hi Hk.
  destruct l as [rows | xs]; [| discriminate].
  destruct b as [brows | bs]; [discriminate |].
  assert (Hlen : List.length bs = List.length rows).
  { simpl in Hsh. inversion Hsh as [Hl]. now rewrite length_map in Hl. }
  rewrite nrows_Full in Hi.
  set (idx := unsqueeze_k (tmap to_long (Batch bs))).
  assert (Hidx : shape idx = column (shape (Full rows))).
  { apply (column_of_batch (map to_long bs) rows). now rewrite length_map. }
  assert (Hg : shape (gather_k idx (rowwise log_softmax_row (Full rows)))
               = column (shape (Full rows))).
  { pose proof (shape_gather_column idx (rowwise log_softmax_row (Full rows)) eq_refl) as H.
    rewrite shape_log_softmax in H. apply H. exact Hidx. }
  assert (Hgi : get_entry idx i 0 = INR k).
  { change idx with (unsqueeze_k (Batch (map to_long bs))).
    rewrite get_unsqueeze_k by (rewrite length_map; lia).
    rewrite (nth_map_in to_long bs i 0 0) by lia.
    simpl in Hk. rewrite Hk. apply to_long_INR. }
  destruct (Hent i ltac:(now rewrite nrows_Full)) as [k' [Hk' Hk'']].
  assert (k' = k) by (apply INR_eq; congruence). subst k'.
  rewrite width_Full in Hk' by assumption.
  cbn [log_prob]. fold idx. split.
  - rewrite shape_squeeze_k, Hg. simpl. now rewrite !length_map.
  - rewrite (get_squeeze_k _ i (shape (Full rows))).
    + rewrite get_gather_column; [| reflexivity | now rewrite shape_log_softmax |
                                   now rewrite shape_log_softmax, nrows_Full].
      rewrite Hgi, index_of_INR, get_rowwise by assumption.
      now rewrite nth_log_softmax_row.
    + rewrite (has_last_axis_shape _ idx); [reflexivity | now rewrite Hg, Hidx].
    + exact Hg.
    + rewrite Hg. simpl. now rewrite !length_map.
Qed.

Lemma map_set_nth {A B : Type} (f : A -> B) j v (r : list A) :
  map f (set_nth j v r) = set_nth j (f v) (map f r).
Proof.
  revert j. induction r as [| x r IH]; intros [| j]; simpl; try reflexivity.
  now rewrite IH.
Qed.

Lemma row_set_entry rows i j s i' :
  (i < List.length rows)%nat ->
  row (set_entry (Full rows) i j s) i'
  = if Nat.eqb i' i then set_nth j s (nth i rows []) else nth i' rows [].
Proof.
  intros Hi. unfold set_entry, row.
  destruct (Nat.lt_ge_cases i' (List.length rows)) as [Hlt | Hge].
  - now rewrite nth_set_nth by assumption.
  - destruct (Nat.eqb_spec i' i); [lia |].
    rewrite !nth_overflow; try reflexivity; rewrite ?length_set_nth; lia.
Qed.

Lemma nonempty_of_length r : (0 < List.length r)%nat -> nonempty r = true.
Proof. destruct r; simpl; [lia | reflexivity]. Qed.

Lemma get_batch_any t n i j :
  shape t = SBatch n -> get_entry t i j = get_entry t i 0.
Proof. destruct t; [discriminate | reflexivity]. Qed.

Lemma derivable_log_softmax_entry (c A x : R) (hit : bool) :
  0 < A + exp x ->
  derivable_pt_lim
    (fun s => (if hit then s else c) - ln (A + exp s)) x
    ((if hit then 1 else 0) - exp x / (A + exp x)).
Proof.
  intros Hpos.
  apply (derivable_pt_lim_ext _
           ((if hit then id else fct_cte c) - comp ln (fct_cte A + exp))%F).
  - intros s. destruct hit; reflexivity.
  - replace (exp x / (A + exp x)) with (/ (A + exp x) * (0 + exp x))
      by (field; lra).
    apply derivable_pt_lim_minus.
    + destruct hit; [apply derivable_pt_lim_id | apply derivable_pt_lim_const].
    + apply derivable_pt_lim_comp.
      * apply derivable_pt_lim_plus;
          [apply derivable_pt_lim_const | apply derivable_pt_lim_exp].
      * apply derivable_pt_lim_ln. exact Hpos.
Qed.

(** The gradient the engine returns for the Categorical log-probability
    is the one-hot vector of the sample minus the softmax of the row. *)
Lemma score_categorical l b i j k :
  has_last_axis l = true ->
  in_support Categorical (shape l) b ->
  valid (shape l) i j -> get_entry b i 0 = INR k ->
  get_entry (score Categorical l b) i j
  = one_hot_entry k j - nth j (softmax_row (row l i)) 0.
Proof.
  intros Hax Hsup Hv Hk. unfold score. rewrite get_gradient by assumption.
  apply Derive_unique.
  destruct l as [rows | xs]; [| discriminate].
  pose proof Hv as Hv'. apply valid_Full in Hv'. destruct Hv' as [Hi Hj].
  set (l := Full rows) in *.
  assert (Hn : (i < nrows (shape l))%nat) by (unfold l; now rewrite nrows_Full).
  set (r := nth i rows []).
  set (LP := fun l' => log_prob Categorical l' b).
  set (ones := ones_like (LP l)).
  set (T := tzip Rmult ones (LP l)).
  destruct (get_log_prob_categorical l b i k Hax Hsup Hn Hk) as [HsLP HgLP].
  assert (Hso : shape ones = per_row (shape l))
    by (unfold ones; now rewrite shape_ones_like).
  assert (HsT : shape T = per_row (shape l)).
  { unfold T. rewrite shape_tzip, Hso. fold (LP l) in HsLP. rewrite HsLP.
    apply sbcast_refl. }
  assert (HvT : valid (shape T) i 0) by (rewrite HsT; exact Hn).
  set (A := Rsum (map exp r) - exp (nth j r 0)).
  set (c := nth k r 0).
  assert (HF : forall s,
             tsum (tzip Rmult ones (LP (set_entry l i j s)))
             = tsum T - get_entry T i 0
               + 1 * ((if Nat.eqb k j then s else c) - ln (A + exp s))).
  { intros s.
    assert (Hss : shape (set_entry l i j s) = shape l) by apply shape_set_entry.
    assert (Haxs : has_last_axis (set_entry l i j s) = true)
      by now rewrite (has_last_axis_shape _ _ Hss).
    assert (Hsups : in_support Categorical (shape (set_entry l i j s)) b)
      by now rewrite Hss.
    rewrite <- tsum_set_entry by exact HvT. f_equal.
    apply tensor_ext.
    - rewrite shape_tzip, shape_set_entry, HsT, Hso.
      destruct (get_log_prob_categorical _ b i k Haxs Hsups
                  ltac:(now rewrite Hss) Hk) as [Hs' _].
      fold (LP (set_entry l i j s)) in Hs'. rewrite Hs', Hss. apply sbcast_refl.
    - intros i' j' Hv'.
      assert (HsLPs : shape (LP (set_entry l i j s)) = per_row (shape l)).
      { destruct (get_log_prob_categorical _ b i k Haxs Hsups
                    ltac:(now rewrite Hss) Hk) as [Hs' _].
        fold (LP (set_entry l i j s)) in Hs'. now rewrite Hs', Hss. }
      rewrite shape_tzip, Hso, HsLPs, sbcast_refl in Hv'.
      assert (Hi' : (i' < nrows (shape l))%nat) by exact Hv'.
      rewrite get_tzip_same by (rewrite ?Hso, ?HsLPs; (reflexivity || assumption)).
      rewrite (get_batch_any (set_entry T i 0 _) (nrows (shape l)))
        by (rewrite shape_set_entry, HsT; reflexivity).
      rewrite (get_batch_any (LP (set_entry l i j s)) (nrows (shape l)))
        by (rewrite HsLPs; reflexivity).
      rewrite (get_batch_any ones (nrows (shape l)))
        by (rewrite Hso; reflexivity).
      rewrite get_set_entry by (rewrite HsT; assumption).
      assert (HTB : exists ts, T = Batch ts).
      { destruct T; [discriminate | eauto]. }
      destruct HTB as [ts HTB]. rewrite HTB. rewrite <- HTB.
      destruct (proj2 Hsup i' Hi') as [k' [Hk'lt Hk']].
      destruct (get_log_prob_categorical _ b i' k' Haxs Hsups
                  ltac:(now rewrite Hss) Hk') as [_ Hgs].
      fold (LP (set_entry l i j s)) in Hgs. rewrite Hgs.
      unfold ones at 1, ones_like.
      rewrite get_tmap by (fold (LP l) in HsLP; rewrite HsLP; exact Hi').
      unfold l at 1 2. rewrite !row_set_entry by assumption.
      destruct (Nat.eqb_spec i' i) as [-> | Hne].
      + assert (k' = k) by (apply INR_eq; congruence). subst k'.
        fold r. rewrite map_set_nth.
        rewrite Rsum_set_nth by (rewrite length_map; exact Hj).
        rewrite (nth_map_in exp r j 0 0) by exact Hj.
        rewrite nth_set_nth by exact Hj.
        fold c. fold A. reflexivity.
      + fold (LP l) in HsLP. unfold T.
        rewrite get_tzip_same by (rewrite ?Hso, ?HsLP; (reflexivity || assumption)).
        destruct (get_log_prob_categorical l b i' k' Hax Hsup Hi' Hk') as [_ Hg0].
        fold (LP l) in Hg0. rewrite Hg0.
        unfold ones, ones_like.
        rewrite get_tmap by (fold (LP l) in HsLP; rewrite HsLP; exact Hi').
        reflexivity. }
  apply (derivable_pt_lim_ext _
           (fun s => tsum T - get_entry T i 0
                     + 1 * ((if Nat.eqb k j then s else c) - ln (A + exp s)))).
  { exact HF. }
  assert (Hsum : A + exp (nth j r 0) = Rsum (map exp r)) by (unfold A; ring).
  assert (Hpos : 0 < A + exp (get_entry l i j)).
  { change (get_entry l i j) with (nth j r 0). rewrite Hsum.
    apply Rsum_exp_pos. apply nonempty_of_length. unfold r. lia. }
  replace (one_hot_entry k j - nth j (softmax_row (row l i)) 0)
    with (0 + 1 * ((if Nat.eqb k j then 1 else 0)
                   - exp (get_entry l i j) / (A + exp (get_entry l i j)))).
  2:{ change (row l i) with r. rewrite nth_softmax_row by exact Hj.
      change (get_entry l i j) with (nth j r 0). rewrite Hsum.
      unfold one_hot_entry. rewrite (Nat.eqb_sym j k). ring. }
  apply (derivable_pt_lim_plus (fct_cte (tsum T - get_entry T i 0))
           (mult_real_fct 1 (fun s => (if Nat.eqb k j then s else c) - ln (A + exp s)))).
  - apply derivable_pt_lim_const.
  - apply derivable_pt_lim_scal. apply derivable_log_softmax_entry. exact Hpos.
Qed.

Lemma score_onehot l b i j :
  has_last_axis l = true ->
  in_support OneHotCategorical (shape l) b ->
  valid (shape l) i j ->
  get_entry (score OneHotCategorical l b) i j
  = get_entry b i j - nth j (softmax_row (row l i)) 0.
Proof.
  intros Hax [Hsh Hent] Hv.
  assert (Hi : (i < nrows (shape l))%nat /\ (j < width (shape l) i)%nat)
    by now apply (proj1 (valid_iff l i j Hax)).
  destruct Hi as [Hi Hj].
  assert (Hne : Categorical <> Bernoulli ->
            has_last_axis b = true /\
            forall i, (i < nrows (shape b))%nat -> (0 < width (shape b) i)%nat).
  { intros _. rewrite Hsh, (has_last_axis_shape _ _ Hsh). split; [assumption |].
    intros i' Hi'. destruct (Hent i' Hi') as [k [Hk _]]. lia. }
  destruct (discretize_in_support Categorical b Hne) as [Hsup Hdis].
  rewrite Hsh in Hsup. simpl in Hdis. specialize (Hdis i ltac:(now rewrite Hsh)).
  change (score OneHotCategorical l b)
    with (score Categorical l (discretize Categorical b)).
  rewrite (score_categorical l _ i j (argmax_row (row b i)) Hax Hsup Hv Hdis).
  f_equal. destruct (Hent i Hi) as [k [Hk Hrow]].
  assert (Hb : exists brows, b = Full brows).
  { destruct b; [eauto | ]. destruct l; discriminate. }
  destruct Hb as [brows ->].
  destruct l as [rows | xs]; [| discriminate].
  destruct (shape_Full_inj brows rows Hsh) as [Hl Hr].
  rewrite nrows_Full in Hi. rewrite width_Full in Hj, Hk, Hrow by assumption.
  simpl row.
  rewrite (argmax_row_one_hot (nth i brows []) k).
  - symmetry. now apply Hrow.
  - now rewrite Hr.
  - intros j' Hj'. apply Hrow. now rewrite <- Hr.
Qed.

Lemma score_closed_form fam logits b i j :
  (fam <> Bernoulli -> has_last_axis logits = true) ->
  in_support fam (shape logits) b ->
  valid (shape logits) i j ->
  get_entry (score fam logits b) i j = closed_score fam logits b i j.
Proof.
  intros Hax Hsup Hv. destruct fam; simpl closed_score.
  - apply score_bernoulli; [apply Hsup | assumption].
  - specialize (Hax ltac:(discriminate)).
    assert (Hi : (i < nrows (shape logits))%nat)
      by now apply (proj1 (valid_iff logits i j Hax)).
    destruct (proj2 Hsup i Hi) as [k [_ Hk]].
    rewrite Hk, index_of_INR. now apply score_categorical.
  - apply score_onehot; auto. apply Hax. discriminate.
Qed.

(** ** The score-function estimator (C3) *)

Lemma autograd_grad_run output logits seed create_graph w n :
  autograd output = Some n ->
  requires_grad logits = true ->
  reaches_logits n = true ->
  shape seed = shape (data output) ->
  autograd_grad output logits seed create_graph w
  = (Ok {| data := vjp n seed (data logits);
           autograd := if create_graph
                       then Some {| reaches_logits := true;
                                    replay := vjp n seed |}
                       else None |}, w).
Proof.
  intros Ha Hr Hn Hs. unfold autograd_grad.
  rewrite Ha, Hr, Hn, Hs, shape_eqb_refl. reflexivity.
Qed.

Lemma shape_vjp n seed l : shape (vjp n seed l) = shape l.
Proof. apply shape_gradient. Qed.

Lemma squeeze_run t w s :
  has_last_axis (data t) = true -> shape (data t) = column s ->
  squeeze t w = (Ok (op1 squeeze_k t), w).
Proof.
  intros Hax Hs. unfold squeeze.
  destruct (data t) as [rows | xs]; [| discriminate].
  assert (H : forallb (fun r => Nat.eqb (List.length r) 1) rows = true).
  { apply forallb_forall. intros r Hr. apply Nat.eqb_eq.
    apply (in_map (@List.length R)) in Hr. simpl in Hs.
    destruct s as [ds | n]; simpl in Hs; inversion Hs as [Hm]; rewrite Hm in Hr.
    - apply in_map_iff in Hr. destruct Hr as [x [Hx _]]. auto.
    - apply repeat_spec in Hr. auto. }
  now rewrite H.
Qed.

Lemma Categorical_log_prob_run logits value w :
  has_last_axis (data logits) = true ->
  in_support Categorical (shape (data logits)) (data value) ->
  Categorical_log_prob logits value w
  = (Ok (op1 squeeze_k
           (op1 (gather_k (unsqueeze_k (tmap to_long (data value))))
              (op1 (rowwise log_softmax_row) logits))), w).
Proof.
  intros Hax [Hsh Hent]. unfold Categorical_log_prob.
  destruct (data logits) as [rows | xs] eqn:El; [| discriminate].
  destruct (data value) as [brows | bs] eqn:Ev; [discriminate |].
  assert (Hlen : List.length bs = List.length rows).
  { simpl in Hsh. inversion Hsh as [Hl]. now rewrite length_map in Hl. }
  erewrite bind_ok by (apply last_axis_run; now rewrite El).
  erewrite bind_ok by (eapply unsqueeze_run; simpl data; rewrite Ev; reflexivity).
  assert (Hidx : shape (unsqueeze_k (tmap to_long (Batch bs)))
                 = column (shape (Full rows))).
  { apply (column_of_batch (map to_long bs) rows). now rewrite length_map. }
  erewrite bind_ok.
  2:{ apply gather_column_run; simpl data; rewrite ?El, ?Ev, ?shape_log_softmax.
      - reflexivity.
      - exact Hidx.
      - intros i Hi. destruct (Hent i Hi) as [k [Hk Hg]]. exists k.
        split; [assumption |]. rewrite nrows_Full in Hi.
        change (unsqueeze_k (tmap to_long (Batch bs)))
          with (unsqueeze_k (Batch (map to_long bs))).
        rewrite get_unsqueeze_k by (rewrite length_map; lia).
        rewrite (nth_map_in to_long bs i 0 0) by lia.
        simpl in Hg. rewrite Hg. apply to_long_INR. }
  assert (Hg : shape (gather_k (unsqueeze_k (tmap to_long (Batch bs)))
                        (rowwise log_softmax_row (Full rows)))
               = column (shape (Full rows))).
  { pose proof (shape_gather_column (unsqueeze_k (tmap to_long (Batch bs)))
                  (rowwise log_softmax_row (Full rows)) eq_refl) as H.
    rewrite shape_log_softmax in H. apply H. exact Hidx. }
  erewrite (squeeze_run _ _ (shape (Full rows))).
  - simpl data. rewrite Ev. reflexivity.
  - simpl data. rewrite El, Ev.
    rewrite (has_last_axis_shape _ (unsqueeze_k (tmap to_long (Batch bs)))); [reflexivity |].
    now rewrite Hidx.
  - simpl data. rewrite El, Ev. exact Hg.
Qed.

Lemma OneHotCategorical_log_prob_run logits value w :
  has_last_axis (data logits) = true ->
  shape (data value) = shape (data logits) ->
  (forall i, (i < nrows (shape (data logits)))%nat ->
             (0 < width (shape (data logits)) i)%nat) ->
  OneHotCategorical_log_prob logits value w
  = (Ok (op1 squeeze_k
           (op1 (gather_k (unsqueeze_k
                             (tmap to_long (discretize Categorical (data value)))))
              (op1 (rowwise log_softmax_row) logits))), w).
Proof.
  intros Hax Hsh Hw. unfold OneHotCategorical_log_prob.
  assert (Hne : Categorical <> Bernoulli ->
            has_last_axis (data value) = true /\
            forall i, (i < nrows (shape (data value)))%nat ->
                      (0 < width (shape (data value)) i)%nat).
  { intros _. rewrite Hsh, (has_last_axis_shape _ _ Hsh). auto. }
  destruct (nonempty_rows_of_width _ (proj1 (Hne ltac:(discriminate)))
              (proj2 (Hne ltac:(discriminate)))) as [brows [Hb Hn]].
  erewrite bind_ok by (apply (argmax_run value false w brows); assumption).
  rewrite Categorical_log_prob_run.
  - simpl data. rewrite Hb. reflexivity.
  - assumption.
  - simpl data. rewrite <- Hsh.
    change (Batch (map (fun r => INR (argmax_row r)) brows))
      with (discretize Categorical (Full brows)).
    rewrite <- Hb. now apply discretize_in_support.
Qed.

Lemma log_prob_run fam logits b w :
  requires_grad logits = true ->
  (fam <> Bernoulli -> has_last_axis (data logits) = true) ->
  sample_ok fam (shape (data logits)) (data b) ->
  log_prob_of fam (variable logits) (detach b) w
  = (Ok {| data := log_prob fam (data logits) (data b);
           autograd := Some {| reaches_logits := true;
                               replay := fun l => log_prob fam l (data b) |} |}, w).
Proof.
  intros Hreq Hax Hok.
  destruct logits as [dl [n0 |]]; [| discriminate]. simpl data in *.
  destruct fam; simpl log_prob_of.
  - unfold Bernoulli_log_prob. rewrite binop_same by (simpl data; now rewrite Hok).
    reflexivity.
  - rewrite Categorical_log_prob_run; [reflexivity | now apply Hax | exact Hok].
  - destruct Hok as [Hsh Hw].
    rewrite OneHotCategorical_log_prob_run; [reflexivity | now apply Hax | | ];
      assumption.
Qed.

Lemma requires_grad_variable t : requires_grad (variable t) = requires_grad t.
Proof. unfold variable, requires_grad. simpl. destruct (autograd t); reflexivity. Qed.

Lemma shape_score fam logits b : shape (score fam logits b) = shape logits.
Proof. apply shape_gradient. Qed.

Lemma batch_of_per_row t s :
  shape t = per_row s -> exists xs, t = Batch xs.
Proof.
  destruct t as [rows | xs]; [| eauto]. destruct s; discriminate.
Qed.

Lemma mul_aligned_ok fam fb d s :
  (fam <> Bernoulli -> exists ds, s = SFull ds) ->
  shape fb = match fam with Bernoulli => s | _ => per_row s end ->
  shape d = s ->
  sbroadcastable (shape (aligned fam fb)) (shape d) = true /\
  sbcast (shape (aligned fam fb)) (shape d) = s.
Proof.
  intros Hs Hfb Hd. rewrite Hd. destruct fam.
  - simpl aligned. rewrite Hfb. split; [apply sbroadcastable_refl | apply sbcast_refl].
  - destruct Hs as [ds ->]; [discriminate |].
    destruct (batch_of_per_row _ _ Hfb) as [xs ->]. simpl aligned.
    rewrite shape_unsqueeze_k.
    assert (E : SBatch (List.length xs) = per_row (SFull ds)) by exact Hfb.
    rewrite E, column_per_row.
    split; [apply sbroadcastable_column_l | apply sbcast_column_l].
  - destruct Hs as [ds ->]; [discriminate |].
    destruct (batch_of_per_row _ _ Hfb) as [xs ->]. simpl aligned.
    rewrite shape_unsqueeze_k.
    assert (E : SBatch (List.length xs) = per_row (SFull ds)) by exact Hfb.
    rewrite E, column_per_row.
    split; [apply sbroadcastable_column_l | apply sbcast_column_l].
Qed.

Lemma full_shape t : has_last_axis t = true -> exists ds, shape t = SFull ds.
Proof. destruct t; [simpl; eauto | discriminate]. Qed.

Lemma reinforce_run fb b logits dist w fam :
  family_of dist = Some fam ->
  requires_grad logits = true ->
  (fam <> Bernoulli -> has_last_axis (data logits) = true) ->
  compatible fam (shape (data logits)) (data fb) (data b) ->
  reinforce fb b logits dist w
  = (Ok {| data := tzip Rmult (aligned fam (data fb))
                     (score fam (data logits) (data b));
           autograd := None |}, w).
Proof.
  intros Hfam Hreq Hax [Hfb Hb].
  pose proof (log_prob_run fam logits b w Hreq Hax Hb) as Hlp.
  assert (Hmul : sbroadcastable (shape (aligned fam (data fb)))
                   (shape (score fam (data logits) (data b))) = true).
  { apply (mul_aligned_ok fam (data fb) _ (shape (data logits))).
    - intros H. apply full_shape. now apply Hax.
    - exact Hfb.
    - apply shape_score. }
  unfold reinforce. destruct fam; cbn [log_prob_of] in Hlp.
  - apply family_of_Bernoulli in Hfam. rewrite Hfam.
    erewrite bind_ok.
    2:{ unfold bind. rewrite Hlp. reflexivity. }
    cbv beta iota. erewrite bind_ok.
    2:{ eapply autograd_grad_run; [reflexivity | | reflexivity | apply shape_ones_like].
        now rewrite requires_grad_variable. }
    unfold mul. rewrite binop_run by exact Hmul. reflexivity.
  - apply family_of_Categorical in Hfam. destruct Hfam as [HB HC]. rewrite HB, HC.
    destruct (batch_of_per_row _ _ Hfb) as [xs Hxs].
    erewrite bind_ok.
    2:{ unfold bind. rewrite Hlp.
        rewrite (unsqueeze_run (detach fb) w xs) by exact Hxs. reflexivity. }
    cbv beta iota. erewrite bind_ok.
    2:{ eapply autograd_grad_run; [reflexivity | | reflexivity | apply shape_ones_like].
        now rewrite requires_grad_variable. }
    unfold mul. rewrite binop_run by exact Hmul. reflexivity.
  - apply family_of_OneHot in Hfam. destruct Hfam as [HB [HC HO]].
    rewrite HB, HC, HO.
    destruct (batch_of_per_row _ _ Hfb) as [xs Hxs].
    erewrite bind_ok.
    2:{ unfold bind. rewrite Hlp.
        rewrite (unsqueeze_run (detach fb) w xs) by exact Hxs. reflexivity. }
    cbv beta iota. erewrite bind_ok.
    2:{ eapply autograd_grad_run; [reflexivity | | reflexivity | apply shape_ones_like].
        now rewrite requires_grad_variable. }
    unfold mul. rewrite binop_run by exact Hmul. reflexivity.
Qed.

Lemma get_tzip_col_l f a b i j :
  has_last_axis b = true -> shape a = column (shape b) -> valid (shape b) i j ->
  get_entry (tzip f a b) i j = f (get_entry a i 0) (get_entry b i j).
Proof.
  destruct b as [r2 | y]; [| discriminate]. intros _ Hs Hv.
  destruct a as [r1 | x]; [| discriminate].
  destruct (column_Full_inj r2 r1 Hs) as [Hl Hr].
  apply valid_Full in Hv. destruct Hv as [Hi Hj]. unfold tzip, get_entry.
  rewrite (nth_map2 (bcast_row f) r1 r2 i [] [] []) by lia.
  specialize (Hr i ltac:(lia)).
  destruct (nth i r1 []) as [| x [| x' r1']] eqn:E; simpl in Hr; try discriminate.
  unfold bcast_row. simpl List.length.
  destruct (Nat.eqb_spec 1 (List.length (nth i r2 []))) as [H1 | H1].
  - destruct (nth i r2 []) as [| y [| y' r2']]; simpl in H1; try discriminate.
    simpl in Hj. assert (j = 0%nat) by lia. subst j. reflexivity.
  - simpl. apply (nth_map_in (f x) (nth i r2 []) j 0 0). assumption.
Qed.

Lemma get_aligned_mul fam fb d i j :
  (fam <> Bernoulli -> has_last_axis d = true) ->
  shape fb = match fam with Bernoulli => shape d | _ => per_row (shape d) end ->
  valid (shape d) i j ->
  get_entry (tzip Rmult (aligned fam fb) d) i j
  = get_entry fb i j * get_entry d i j.
Proof.
  intros Hax Hfb Hv.
  assert (Hcat : fam <> Bernoulli ->
            get_entry (tzip Rmult (unsqueeze_k fb) d) i j
            = get_entry fb i j * get_entry d i j).
  { intros Hne. specialize (Hax Hne).
    assert (Hfb' : shape fb = per_row (shape d)) by (destruct fam; tauto).
    destruct (batch_of_per_row _ _ Hfb') as [xs ->].
    destruct (full_shape d Hax) as [ds Hds].
    rewrite get_tzip_col_l; try assumption.
    - rewrite get_unsqueeze_k; [reflexivity |].
      rewrite Hds in Hv, Hfb'. simpl in Hv, Hfb'. inversion Hfb'. lia.
    - rewrite shape_unsqueeze_k.
      assert (E : SBatch (List.length xs) = per_row (shape d)) by exact Hfb'.
      rewrite E, Hds. apply column_per_row. }
  destruct fam.
  - simpl aligned. cbv beta iota in Hfb.
    apply get_tzip_same; [exact Hfb | now rewrite Hfb].
  - apply Hcat. discriminate.
  - apply Hcat. discriminate.
Qed.

(** C3.  For a tag of family [fam], logits that require gradient and
    arguments of compatible shapes, [reinforce] returns the product of [fb]
    -- unsqueezed on the last axis for the two categorical families -- and
    the gradient with respect to logits of the log-probability of [b], for
    the all-ones seed: entry by entry, the objective value of the entry
    (Bernoulli) or of the row (categorical families) times the entry of
    the gradient.  For a sample of the support that gradient is the
    closed form of the family, [b - sigmoid(logits)] or
    [onehot(b) - softmax(logits)].  The result has the shape of logits, and
    it is the same whatever tracking [fb] and [b] arrive with: they are
    detached. *)
Theorem reinforce_is_fb_times_score
  (fb b logits : Tensor) (dist : string) (w : world) (fam : family) :
  family_of dist = Some fam ->
  requires_grad logits = true ->
  (fam <> Bernoulli -> has_last_axis (data logits) = true) ->
  compatible fam (shape (data logits)) (data fb) (data b) ->
  exists g,
    reinforce fb b logits dist w = (Ok g, w) /\
    data g = tzip Rmult (aligned fam (data fb)) (score fam (data logits) (data b)) /\
    (forall i j, valid (shape (data logits)) i j ->
       get_entry (data g) i j
       = get_entry (data fb) i j * get_entry (score fam (data logits) (data b)) i j) /\
    (in_support fam (shape (data logits)) (data b) ->
     forall i j, valid (shape (data logits)) i j ->
       get_entry (data g) i j
       = get_entry (data fb) i j * closed_score fam (data logits) (data b) i j) /\
    shape (data g) = shape (data logits) /\
    (forall fb' b', data fb' = data fb -> data b' = data b ->
                    reinforce fb' b' logits dist w = (Ok g, w)).
Proof.
  intros Hfam Hreq Hax Hc.
  assert (Hentry : forall i j, valid (shape (data logits)) i j ->
            get_entry (tzip Rmult (aligned fam (data fb))
                         (score fam (data logits) (data b))) i j
            = get_entry (data fb) i j
              * get_entry (score fam (data logits) (data b)) i j).
  { intros i j Hv. apply get_aligned_mul.
    - intros Hne. rewrite (has_last_axis_shape _ (data logits)); [auto |].
      apply shape_score.
    - rewrite shape_score. apply Hc.
    - now rewrite shape_score. }
  eexists. split; [now apply (reinforce_run fb b logits dist w fam) |].
  cbn [data]. split; [reflexivity |]. split; [exact Hentry |]. split; [| split].
  - intros Hsup i j Hv. rewrite (Hentry i j Hv).
    now rewrite score_closed_form.
  - rewrite shape_tzip.
    apply (mul_aligned_ok fam (data fb) _ (shape (data logits))).
    + intros H. apply full_shape. now apply Hax.
    + apply Hc.
    + apply shape_score.
  - intros fb' b' Hfb' Hb'.
    rewrite (reinforce_run fb' b' logits dist w fam); try assumption.
    + now rewrite Hfb', Hb'.
    + now rewrite Hfb', Hb'.
Qed.

(** ** The control-variate estimator (C2) *)

Lemma bind_assoc {A B C : Type} (c : M A) (k : A -> M B) (g : B -> M C) w :
  bind (bind c k) g w = bind c (fun x => bind (k x) g) w.
Proof. unfold bind. destruct (c w) as [[a | e] w']; reflexivity. Qed.

Lemma bind_ext {A B : Type} (c : M A) (k k' : A -> M B) w :
  (forall a w', k a w' = k' a w') -> bind c k w = bind c k' w.
Proof. intros H. unfold bind. destruct (c w) as [[a | e] w']; auto. Qed.

(** The estimate is the combination of the components, on every input. *)
Lemma relax_refines_components fb b logits z c dist w :
  relax fb b logits z c dist false w
  = bind (relax fb b logits z c dist true) reconstruct w.
Proof.
  unfold relax.
  rewrite bind_assoc; apply bind_ext; intros z_tilde w1.
  rewrite bind_assoc; apply bind_ext; intros c_z w2.
  rewrite bind_assoc; apply bind_ext; intros c_z_tilde w3.
  rewrite bind_assoc; apply bind_ext; intros diff w4.
  rewrite bind_assoc; apply bind_ext; intros [log_pb diff'] w5.
  rewrite bind_assoc; apply bind_ext; intros dlog_pb w6.
  rewrite bind_assoc; apply bind_ext; intros dc_z w7.
  rewrite bind_assoc; apply bind_ext; intros dc_z_tilde w8.
  rewrite bind_ret. unfold reconstruct, combine.
  rewrite !bind_assoc. apply bind_ext. intros t w9.
  rewrite !bind_assoc. apply bind_ext. intros t' w10.
  reflexivity.
Qed.

Lemma in_support_sample_ok fam s b :
  in_support fam s b -> sample_ok fam s b.
Proof.
  destruct fam; simpl; intros H.
  - apply H.
  - exact H.
  - destruct H as [Hs H]. split; [assumption |]. intros i Hi.
    destruct (H i Hi) as [k [Hk _]]. lia.
Qed.

Lemma reaches_node t :
  reaches t = true -> exists n, autograd t = Some n /\ reaches_logits n = true.
Proof.
  unfold reaches. destruct (autograd t) as [n |]; [eauto | discriminate].
Qed.

Lemma reaches_variable t : requires_grad t = true -> reaches (variable t) = true.
Proof. intros H. unfold reaches, variable. simpl. now rewrite H. Qed.

Lemma invoke_run c x w y w' :
  c x {| rng := rng w; trace := trace w ++ [Invoke x] |} = (Ok y, w') ->
  invoke c x w = (Ok y, w').
Proof. intros H. unfold invoke, bind, emit. exact H. Qed.

Lemma requires_grad_of_reaches t : reaches t = true -> requires_grad t = true.
Proof.
  unfold reaches, requires_grad. destruct (autograd t); [reflexivity | discriminate].
Qed.

Lemma requires_grad_op1 k t : requires_grad (op1 k t) = requires_grad t.
Proof. unfold requires_grad, op1. simpl. now destruct (autograd t). Qed.

Lemma requires_grad_op2_l k a b :
  requires_grad a = true -> requires_grad (op2 k a b) = true.
Proof. intros H. unfold requires_grad at 1, op2. simpl. now rewrite H. Qed.

Lemma requires_grad_op2_r k a b :
  requires_grad b = true -> requires_grad (op2 k a b) = true.
Proof.
  intros H. unfold requires_grad at 1, op2. simpl. rewrite H.
  now rewrite orb_true_r.
Qed.

(** What [relax] returns on valid arguments, term by term. *)
Lemma relax_run fb b logits z c dist w fam :
  family_of dist = Some fam ->
  requires_grad logits = true ->
  (fam <> Bernoulli -> has_last_axis (data logits) = true) ->
  shape (data fb) = match fam with Bernoulli => shape (data logits)
                                 | _ => per_row (shape (data logits)) end ->
  in_support fam (shape (data logits)) (data b) ->
  shape (data z) = shape (data logits) ->
  reaches z = true ->
  control_variate c fam (shape (data logits)) ->
  exists diff dlog_pb dc_z dc_z_tilde w',
    relax fb b logits z c dist true w
    = (Ok (Components diff dlog_pb dc_z dc_z_tilde), w') /\
    shape (data diff) = shape (aligned fam (data fb)) /\
    shape (data dlog_pb) = shape (data logits) /\
    shape (data dc_z) = shape (data logits) /\
    shape (data dc_z_tilde) = shape (data logits) /\
    data dlog_pb = score fam (data logits) (data b) /\
    requires_grad diff = true.
Proof.
  intros Hfam Hreq Hax Hfb Hsup Hz Hrz Hc.
  destruct (_to_z_tilde_run (variable logits) (detach b) dist w fam Hfam Hax Hsup)
    as [zt [Hzt [Hszt [Hrzt _]]]].
  specialize (Hrzt (reaches_variable logits Hreq)).
  set (w1 := after_draw w (variable logits)) in *.
  destruct (Hc z {| rng := rng w1; trace := trace w1 ++ [Invoke z] |} Hz Hrz)
    as [cz [w2 [Hcz [Hrcz Hscz]]]].
  destruct (Hc zt {| rng := rng w2; trace := trace w2 ++ [Invoke zt] |} Hszt Hrzt)
    as [czt [w3 [Hczt [Hrczt Hsczt]]]].
  pose proof (log_prob_run fam logits b w3 Hreq Hax
                (in_support_sample_ok _ _ _ Hsup)) as Hlp.
  destruct (reaches_node cz Hrcz) as [ncz [Hacz Hncz]].
  destruct (reaches_node czt Hrczt) as [nczt [Haczt Hnczt]].
  assert (Hdiff : shape (data fb) = shape (data czt)) by now rewrite Hfb, Hsczt.
  unfold relax.
  erewrite bind_ok by exact Hzt.
  erewrite bind_ok by (apply invoke_run; exact Hcz).
  erewrite bind_ok by (apply invoke_run; exact Hczt).
  erewrite bind_ok by (apply binop_same; exact Hdiff).
  assert (Hsd : shape (data (op2 (tzip Rminus) (detach fb) czt)) = shape (data fb)).
  { simpl data. rewrite shape_tzip, <- Hdiff. apply sbcast_refl. }
  assert (Hrd : requires_grad (op2 (tzip Rminus) (detach fb) czt) = true).
  { apply requires_grad_op2_r. now apply requires_grad_of_reaches. }
  destruct fam; cbn [log_prob_of] in Hlp.
  - apply family_of_Bernoulli in Hfam. rewrite Hfam.
    erewrite bind_ok.
    2:{ unfold bind. rewrite Hlp. reflexivity. }
    cbv beta iota.
    erewrite bind_ok.
    2:{ eapply autograd_grad_run; [reflexivity | | reflexivity | apply shape_ones_like].
        now rewrite requires_grad_variable. }
    erewrite bind_ok.
    2:{ eapply autograd_grad_run; [exact Hacz | | exact Hncz | apply shape_ones_like].
        now rewrite requires_grad_variable. }
    erewrite bind_ok.
    2:{ eapply autograd_grad_run; [exact Haczt | | exact Hnczt | apply shape_ones_like].
        now rewrite requires_grad_variable. }
    do 5 eexists. split; [reflexivity |].
    cbn [data]. rewrite !shape_vjp. repeat split; try reflexivity.
    + exact Hsd.
    + exact Hrd.
  - apply family_of_Categorical in Hfam. destruct Hfam as [HB HC]. rewrite HB, HC.
    destruct (batch_of_per_row (data (op2 (tzip Rminus) (detach fb) czt))
                (shape (data logits))) as [xs Hxs]; [now rewrite Hsd |].
    erewrite bind_ok.
    2:{ unfold bind. rewrite Hlp.
        rewrite (unsqueeze_run _ w3 xs) by exact Hxs. reflexivity. }
    cbv beta iota.
    erewrite bind_ok.
    2:{ eapply autograd_grad_run; [reflexivity | | reflexivity | apply shape_ones_like].
        now rewrite requires_grad_variable. }
    erewrite bind_ok.
    2:{ eapply autograd_grad_run; [exact Hacz | | exact Hncz | apply shape_ones_like].
        now rewrite requires_grad_variable. }
    erewrite bind_ok.
    2:{ eapply autograd_grad_run; [exact Haczt | | exact Hnczt | apply shape_ones_like].
        now rewrite requires_grad_variable. }
    do 5 eexists. split; [reflexivity |].
    cbn [data]. rewrite !shape_vjp. repeat split; try reflexivity.
    + destruct (batch_of_per_row _ _ Hfb) as [ys Hys].
      change (data (op2 (tzip Rminus) (detach fb) czt))
        with (tzip Rminus (data fb) (data czt)) in Hsd, Hxs.
      simpl data. simpl aligned. rewrite Hxs, Hys, !shape_unsqueeze_k. f_equal.
      rewrite Hxs, Hys in Hsd. exact Hsd.
    + rewrite requires_grad_op1. exact Hrd.
  - apply family_of_OneHot in Hfam. destruct Hfam as [HB [HC HO]].
    rewrite HB, HC, HO.
    destruct (batch_of_per_row (data (op2 (tzip Rminus) (detach fb) czt))
                (shape (data logits))) as [xs Hxs]; [now rewrite Hsd |].
    erewrite bind_ok.
    2:{ unfold bind. rewrite Hlp.
        rewrite (unsqueeze_run _ w3 xs) by exact Hxs. reflexivity. }
    cbv beta iota.
    erewrite bind_ok.
    2:{ eapply autograd_grad_run; [reflexivity | | reflexivity | apply shape_ones_like].
        now rewrite requires_grad_variable. }
    erewrite bind_ok.
    2:{ eapply autograd_grad_run; [exact Hacz | | exact Hncz | apply shape_ones_like].
        now rewrite requires_grad_variable. }
    erewrite bind_ok.
    2:{ eapply autograd_grad_run; [exact Haczt | | exact Hnczt | apply shape_ones_like].
        now rewrite requires_grad_variable. }
    do 5 eexists. split; [reflexivity |].
    cbn [data]. rewrite !shape_vjp. repeat split; try reflexivity.
    + destruct (batch_of_per_row _ _ Hfb) as [ys Hys].
      change (data (op2 (tzip Rminus) (detach fb) czt))
        with (tzip Rminus (data fb) (data czt)) in Hsd, Hxs.
      simpl data. simpl aligned. rewrite Hxs, Hys, !shape_unsqueeze_k. f_equal.
      rewrite Hxs, Hys in Hsd. exact Hsd.
    + rewrite requires_grad_op1. exact Hrd.
Qed.

Lemma combine_run fam fb diff dlog_pb dc_z dc_z_tilde s w :
  (fam <> Bernoulli -> exists ds, s = SFull ds) ->
  shape fb = match fam with Bernoulli => s | _ => per_row s end ->
  shape (data diff) = shape (aligned fam fb) ->
  shape (data dlog_pb) = s ->
  shape (data dc_z) = s ->
  shape (data dc_z_tilde) = s ->
  exists g,
    combine diff dlog_pb dc_z dc_z_tilde w = (Ok g, w) /\
    data g = tzip Rminus
               (tzip Rplus (tzip Rmult (data diff) (data dlog_pb)) (data dc_z))
               (data dc_z_tilde) /\
    shape (data g) = s /\
    (requires_grad diff = true -> requires_grad g = true).
Proof.
  intros Hs Hfb Hd Hl Hz Hzt.
  destruct (mul_aligned_ok fam fb (data dlog_pb) s Hs Hfb Hl) as [Hok Hsh].
  rewrite <- Hd in Hok, Hsh.
  assert (H1 : shape (tzip Rmult (data diff) (data dlog_pb)) = s)
    by now rewrite shape_tzip.
  assert (H2 : shape (tzip Rplus (tzip Rmult (data diff) (data dlog_pb)) (data dc_z)) = s).
  { rewrite shape_tzip, H1, Hz. apply sbcast_refl. }
  unfold combine.
  erewrite bind_ok by (apply binop_run; exact Hok).
  erewrite bind_ok by (apply binop_same; simpl data; now rewrite H1, Hz).
  eexists. split; [apply binop_same; simpl data; now rewrite H2, Hzt |].
  simpl data. split; [reflexivity |]. split.
  - rewrite shape_tzip, H2, Hzt. apply sbcast_refl.
  - intros Hrd. do 3 apply requires_grad_op2_l. exact Hrd.
Qed.

(** C2.  On valid arguments -- a tag of family [fam], logits that require
    gradient, [fb] and [b] of compatible shapes with [b] in the support, [z]
    tracked from logits and of their shape, [c] a control variate -- and
    for one world, hence one draw of the noise, [relax] with
    [components=True] returns four terms, [relax] with [components=False]
    returns an estimate [g], [diff * dlog_pb + dc_z - dc_z_tilde] evaluates
    to exactly that [g], and [g] has the shape of logits. *)
Theorem relax_components_give_estimate
  (fb b logits z : Tensor) (c : Tensor -> M Tensor) (dist : string)
  (w : world) (fam : family) :
  family_of dist = Some fam ->
  requires_grad logits = true ->
  (fam <> Bernoulli -> has_last_axis (data logits) = true) ->
  shape (data fb) = match fam with Bernoulli => shape (data logits)
                                 | _ => per_row (shape (data logits)) end ->
  in_support fam (shape (data logits)) (data b) ->
  shape (data z) = shape (data logits) ->
  reaches z = true ->
  control_variate c fam (shape (data logits)) ->
  exists diff dlog_pb dc_z dc_z_tilde g w',
    relax fb b logits z c dist true w
    = (Ok (Components diff dlog_pb dc_z dc_z_tilde), w') /\
    relax fb b logits z c dist false w = (Ok (Estimate g), w') /\
    combine diff dlog_pb dc_z dc_z_tilde w' = (Ok g, w') /\
    data g = tzip Rminus
               (tzip Rplus (tzip Rmult (data diff) (data dlog_pb)) (data dc_z))
               (data dc_z_tilde) /\
    shape (data g) = shape (data logits).
Proof.
  intros Hfam Hreq Hax Hfb Hsup Hz Hrz Hc.
  destruct (relax_run fb b logits z c dist w fam Hfam Hreq Hax Hfb Hsup Hz Hrz Hc)
    as [diff [dlog_pb [dc_z [dc_z_tilde [w' [Hrun [Hd [Hl [Hcz [Hczt _]]]]]]]]]].
  destruct (combine_run fam (data fb) diff dlog_pb dc_z dc_z_tilde
              (shape (data logits)) w') as [g [Hg [Hdata [Hshape _]]]]; try assumption.
  { intros H. apply full_shape. now apply Hax. }
  exists diff, dlog_pb, dc_z, dc_z_tilde, g, w'.
  split; [exact Hrun |]. split; [| auto].
  rewrite relax_refines_components.
  erewrite bind_ok by exact Hrun.
  unfold reconstruct. erewrite bind_ok by exact Hg. reflexivity.
Qed.

(** ** The score-function estimate is not tracked (C9) *)

(** The estimate of [relax] stays tracked: it is computed from what the
    control variate returns. *)
Lemma relax_estimate_requires_grad fb b logits z c dist w fam :
  family_of dist = Some fam ->
  requires_grad logits = true ->
  (fam <> Bernoulli -> has_last_axis (data logits) = true) ->
  shape (data fb) = match fam with Bernoulli => shape (data logits)
                                 | _ => per_row (shape (data logits)) end ->
  in_support fam (shape (data logits)) (data b) ->
  shape (data z) = shape (data logits) ->
  reaches z = true ->
  control_variate c fam (shape (data logits)) ->
  exists g w',
    relax fb b logits z c dist false w = (Ok (Estimate g), w') /\
    requires_grad g = true.
Proof.
  intros Hfam Hreq Hax Hfb Hsup Hz Hrz Hc.
  destruct (relax_run fb b logits z c dist w fam Hfam Hreq Hax Hfb Hsup Hz Hrz Hc)
    as [diff [dlog_pb [dc_z [dc_z_tilde [w' [Hrun [Hd [Hl [Hcz [Hczt [_ Hrd]]]]]]]]]]].
  destruct (combine_run fam (data fb) diff dlog_pb dc_z dc_z_tilde
              (shape (data logits)) w') as [g [Hg [_ [_ Hreqg]]]]; try assumption.
  { intros H. apply full_shape. now apply Hax. }
  exists g, w'. split; [| exact (Hreqg Hrd)].
  rewrite relax_refines_components.
  erewrite bind_ok by exact Hrun.
  unfold reconstruct. erewrite bind_ok by exact Hg. reflexivity.
Qed.

(** C9.  For a tag of family [fam], logits that require gradient and
    arguments of compatible shapes, the tensor that [reinforce] returns
    does not require gradient, whatever tracking its arguments have: it is
    the product of the detached [fb] and of a gradient taken without
    [create_graph], and carries no record, so that differentiating it
    against logits raises.  The estimate of [relax] on the same [fb], [b]
    and logits, for a sample of the support and any control variate, does
    require gradient. *)
Theorem reinforce_result_requires_no_grad
  (fb b logits : Tensor) (dist : string) (w : world) (fam : family) :
  family_of dist = Some fam ->
  requires_grad logits = true ->
  (fam <> Bernoulli -> has_last_axis (data logits) = true) ->
  compatible fam (shape (data logits)) (data fb) (data b) ->
  exists g,
    reinforce fb b logits dist w = (Ok g, w) /\
    requires_grad g = false /\
    autograd g = None /\
    (forall seed create_graph w',
       autograd_grad g logits seed create_graph w'
       = (Raise (RuntimeError
                   "element 0 of tensors does not require grad and does not have a grad_fn"),
          w')) /\
    (forall z c,
       in_support fam (shape (data logits)) (data b) ->
       shape (data z) = shape (data logits) ->
       reaches z = true ->
       control_variate c fam (shape (data logits)) ->
       exists g' w',
         relax fb b logits z c dist false w = (Ok (Estimate g'), w') /\
         requires_grad g' = true).
Proof.
  intros Hfam Hreq Hax Hc.
  eexists. split; [now apply (reinforce_run fb b logits dist w fam) |].
  split; [reflexivity |]. split; [reflexivity |]. split.
  - intros seed create_graph w'. reflexivity.
  - intros z c Hsup Hz Hrz Hcv.
    apply (relax_estimate_requires_grad fb b logits z c dist w fam);
      try assumption.
    apply Hc.
Qed.

(** ** Concrete runs *)

Lemma categorical_sample_example :
  in_support Categorical (SFull [2%nat]) (Batch [1]).
Proof.
  split; [reflexivity |]. intros i Hi. simpl in Hi.
  assert (i = 0%nat) by lia. subst i. exists 1%nat.
  split; [simpl; lia | reflexivity].
Qed.


Lemma to_z_injects_noise_example :
  exists z w',
    to_z (leaf (Full [[0]])) "bern" true quiet = (Ok z, w') /\
    data z = injected Bernoulli (Full [[0]]) (noise quiet (Full [[0]])) /\
    shape (noise quiet (Full [[0]])) = SFull [1%nat] /\
    (forall i j, valid (SFull [1%nat]) i j ->
                 0 < get_entry (noise quiet (Full [[0]])) i j < 1) /\
    requires_grad z = true.
Proof.
  apply (to_z_injects_noise (leaf (Full [[0]])) "bern" true quiet Bernoulli).
  - reflexivity.
  - intros H. reflexivity.
Defined.

Lemma sample_in_support_example :
  exists z w1 b,
    to_z (leaf (Full [[0; 1]])) "onehot" true quiet = (Ok z, w1) /\
    to_b z "onehot" w1 = (Ok b, w1) /\
    in_support OneHotCategorical (SFull [2%nat]) (data b).
Proof.
  apply (sample_in_support (leaf (Full [[0; 1]])) "onehot" true quiet
           OneHotCategorical).
  - reflexivity.
  - intros _. split; [reflexivity |]. intros i Hi. simpl in Hi.
    assert (i = 0%nat) by lia. subst i. simpl. lia.
Defined.

Lemma reinforce_is_fb_times_score_example :
  exists g,
    reinforce (constant (Batch [2])) (constant (Batch [1]))
      (leaf (Full [[0; 0]])) "cat" quiet = (Ok g, quiet) /\
    get_entry (data g) 0 0 = -1 /\
    get_entry (data g) 0 1 = 1 /\
    shape (data g) = SFull [2%nat].
Proof.
  destruct (reinforce_is_fb_times_score
              (constant (Batch [2])) (constant (Batch [1]))
              (leaf (Full [[0; 0]])) "cat" quiet Categorical)
    as [g [Hrun [_ [_ [Hclosed [Hshape _]]]]]].
  - reflexivity.
  - reflexivity.
  - reflexivity.
  - split; [reflexivity | exact categorical_sample_example].
  - exists g. split; [exact Hrun |].
    specialize (Hclosed categorical_sample_example).
    assert (Hk : index_of (get_entry (Batch [1]) 0 0) = 1%nat)
      by exact (index_of_INR 1).
    split; [| split; [| exact Hshape]].
    + rewrite (Hclosed 0%nat 0%nat) by (simpl; lia).
      unfold closed_score, one_hot_entry, constant, leaf. cbn [data].
      rewrite Hk. simpl. rewrite exp_0. lra.
    + rewrite (Hclosed 0%nat 1%nat) by (simpl; lia).
      unfold closed_score, one_hot_entry, constant, leaf. cbn [data].
      rewrite Hk. simpl. rewrite exp_0. lra.
Defined.

Lemma reinforce_result_requires_no_grad_example :
  exists g,
    reinforce (leaf (Full [[2]])) (leaf (Full [[1]]))
      (leaf (Full [[0]])) "bern" quiet = (Ok g, quiet) /\
    requires_grad g = false.
Proof.
  destruct (reinforce_result_requires_no_grad
              (leaf (Full [[2]])) (leaf (Full [[1]]))
              (leaf (Full [[0]])) "bern" quiet Bernoulli)
    as [g [Hrun [Hreq _]]].
  - reflexivity.
  - reflexivity.
  - intros H. reflexivity.
  - split; reflexivity.
  - exists g. split; [exact Hrun | exact Hreq].
Defined.

Lemma identity_control_variate s :
  control_variate (fun x => ret x) Bernoulli s.
Proof. intros x w Hs Hr. exists x, w. auto. Qed.

Lemma bernoulli_sample_example : in_support Bernoulli (SFull [1%nat]) (Full [[1]]).
Proof.
  split; [reflexivity |]. intros i j [Hi Hj]. simpl in Hi.
  assert (i = 0%nat) by lia. subst i. simpl in Hj.
  assert (j = 0%nat) by lia. subst j. right. reflexivity.
Qed.

Lemma relax_components_give_estimate_example :
  exists diff dlog_pb dc_z dc_z_tilde g w',
    relax (constant (Full [[2]])) (constant (Full [[1]]))
      (leaf (Full [[0]])) (leaf (Full [[0]])) (fun x => ret x) "bern" true quiet
    = (Ok (Components diff dlog_pb dc_z dc_z_tilde), w') /\
    relax (constant (Full [[2]])) (constant (Full [[1]]))
      (leaf (Full [[0]])) (leaf (Full [[0]])) (fun x => ret x) "bern" false quiet
    = (Ok (Estimate g), w') /\
    combine diff dlog_pb dc_z dc_z_tilde w' = (Ok g, w') /\
    shape (data g) = SFull [1%nat].
Proof.
  destruct (relax_components_give_estimate
              (constant (Full [[2]])) (constant (Full [[1]]))
              (leaf (Full [[0]])) (leaf (Full [[0]])) (fun x => ret x) "bern"
              quiet Bernoulli)
    as [diff [dlog_pb [dc_z [dc_z_tilde [g [w' [H1 [H2 [H3 [_ H5]]]]]]]]]].
  - reflexivity.
  - reflexivity.
  - intros H. reflexivity.
  - reflexivity.
  - exact bernoulli_sample_example.
  - reflexivity.
  - reflexivity.
  - apply identity_control_variate.
  - exists diff, dlog_pb, dc_z, dc_z_tilde, g, w'. auto.
Defined.


(** * Further properties of the module *)

(** ** Effects of the sampling functions *)

Lemma binop_world f a b w : snd (binop f a b w) = w.
Proof. unfold binop. now destruct (broadcastable (data a) (data b)). Qed.

Lemma last_axis_world f t w : snd (last_axis f t w) = w.
Proof. unfold last_axis. now destruct (data t). Qed.

Lemma bind_world {A B : Type} (c : M A) (k : A -> M B) w :
  snd (c w) = w -> (forall a, snd (k a w) = w) -> snd (bind c k w) = w.
Proof.
  intros Hc Hk. unfold bind. destruct (c w) as [[a | e] w'] eqn:E; simpl in Hc; subst w'.
  - apply Hk.
  - reflexivity.
Qed.

Lemma to_z_world :
  exists msg, forall logits dist warn w,
    snd (to_z logits dist warn w)
    = after_draw (if warn && negb (requires_grad logits)
                  then {| rng := rng w; trace := trace w ++ [Warning msg] |}
                  else w) logits.
Proof.
  eexists. intros logits dist warn w. unfold to_z. rewrite requires_grad_variable.
  assert (Hbody : forall r w',
            snd ((z <- (if in_set dist BERNOULLI_SYNONYMS then
                          t <- add (variable logits) (log (clamp_probs_ r)) ;;
                          sub t (tlog1p (neg (clamp_probs_ r)))
                        else if in_set dist (CATEGORICAL_SYNONYMS ++ ONEHOT_SYNONYMS) then
                          log_theta <- log_softmax (variable logits) ;;
                          sub log_theta (log (neg (log (clamp_probs_ r))))
                        else raise (unknown_distribution dist)) ;;
                  ret (requires_grad_ z)) w') = w').
  { intros r w'. apply bind_world; [| reflexivity].
    destruct (in_set dist BERNOULLI_SYNONYMS).
    - apply bind_world; [apply binop_world | intros a; apply binop_world].
    - destruct (in_set dist (CATEGORICAL_SYNONYMS ++ ONEHOT_SYNONYMS)).
      + apply bind_world; [apply last_axis_world | intros a; apply binop_world].
      + reflexivity. }
  destruct (warn && negb (requires_grad logits)).
  - erewrite bind_ok by (unfold warn_, emit; reflexivity).
    erewrite bind_ok by apply rand_like_run.
    rewrite Hbody. reflexivity.
  - erewrite bind_ok by reflexivity.
    erewrite bind_ok by apply rand_like_run.
    rewrite Hbody. reflexivity.
Qed.

(** X1.  Whatever the tag and the tensors are, and whether it returns or
    raises, [to_z] takes exactly one draw from the random source, for a
    tensor of the shape of logits, and warns beforehand exactly when [warn]
    is set and logits do not require gradient. *)
Theorem to_z_draws_once_and_warns (logits : Tensor) (dist : string) (warn : bool) (w : world) :
  exists msg,
    trace (snd (to_z logits dist warn w))
    = trace w
      ++ (if warn && negb (requires_grad logits) then [Warning msg] else [])
      ++ [RandLike (shape (data logits))] /\
    rng (snd (to_z logits dist warn w)) = fun k => rng w (S k).
Proof.
  destruct to_z_world as [msg H]. exists msg. rewrite H.
  destruct (warn && negb (requires_grad logits)); simpl.
  - rewrite <- app_assoc. split; reflexivity.
  - split; reflexivity.
Qed.

Lemma reaches_requires_grad_ t : reaches (requires_grad_ t) = reaches t.
Proof.
  destruct t as [d [n |]]; reflexivity.
Qed.

Lemma reaches_constant_op1 k d : autograd (op1 k (constant d)) = None.
Proof. reflexivity. Qed.

Lemma reaches_op2_variable_l k logits c :
  autograd c = None ->
  reaches (op2 k (variable logits) c) = requires_grad logits.
Proof.
  destruct c as [dc [nc |]]; [discriminate | intros _].
  destruct logits as [d [n |]]; reflexivity.
Qed.

Lemma reaches_op2_const_r k a c :
  autograd c = None -> reaches (op2 k a c) = reaches a.
Proof.
  destruct c as [dc [nc |]]; [discriminate | intros _].
  destruct a as [d [n |]]; [| reflexivity].
  unfold reaches, op2, requires_grad. simpl. now rewrite orb_false_r.
Qed.

Lemma reaches_op1_variable k logits :
  reaches (op1 k (variable logits)) = requires_grad logits.
Proof.
  destruct logits as [d [n |]]; reflexivity.
Qed.

Lemma to_z_reaches logits dist warn w fam :
  family_of dist = Some fam ->
  (fam <> Bernoulli -> has_last_axis (data logits) = true) ->
  exists z w',
    to_z logits dist warn w = (Ok z, w') /\
    shape (data z) = shape (data logits) /\
    requires_grad z = true /\
    reaches z = requires_grad logits.
Proof.
  intros Hfam Hax. unfold to_z.
  match goal with
  | |- context [bind (if ?c then warn_ ?m else ret tt)] =>
      destruct (warning_step c m w) as [w1 [Hw Hr]]
  end.
  erewrite bind_ok by exact Hw.
  erewrite bind_ok by apply rand_like_run.
  destruct fam.
  - apply family_of_Bernoulli in Hfam. rewrite Hfam.
    erewrite bind_ok.
    2:{ erewrite bind_ok by (apply binop_same; shapes).
        apply binop_same. shapes. }
    do 2 eexists. split; [reflexivity |]. split; [| split].
    + rewrite data_requires_grad_. shapes.
    + apply requires_grad_requires_grad_.
    + rewrite reaches_requires_grad_, reaches_op2_const_r by reflexivity.
      apply reaches_op2_variable_l. reflexivity.
  - apply family_of_Categorical in Hfam. destruct Hfam as [HB HC].
    rewrite HB, in_set_app, HC. cbn [orb].
    specialize (Hax ltac:(discriminate)).
    erewrite bind_ok.
    2:{ erewrite bind_ok by (apply last_axis_run; now rewrite data_variable).
        apply binop_same. shapes. }
    do 2 eexists. split; [reflexivity |]. split; [| split].
    + rewrite data_requires_grad_. shapes.
    + apply requires_grad_requires_grad_.
    + rewrite reaches_requires_grad_, reaches_op2_const_r by reflexivity.
      apply reaches_op1_variable.
  - apply family_of_OneHot in Hfam. destruct Hfam as [HB [HC HO]].
    rewrite HB, in_set_app, HC, HO. cbn [orb].
    specialize (Hax ltac:(discriminate)).
    erewrite bind_ok.
    2:{ erewrite bind_ok by (apply last_axis_run; now rewrite data_variable).
        apply binop_same. shapes. }
    do 2 eexists. split; [reflexivity |]. split; [| split].
    + rewrite data_requires_grad_. shapes.
    + apply requires_grad_requires_grad_.
    + rewrite reaches_requires_grad_, reaches_op2_const_r by reflexivity.
      apply reaches_op1_variable.
Qed.

(** X2.  The surrogate that [to_z] returns always requires gradient, but
    it is connected to logits only when logits themselves require
    gradient: then it can be differentiated against logits, the gradient
    having the shape of logits; otherwise it is a leaf of its own and
    differentiating it against logits raises a [RuntimeError] -- the
    situation the warning of [to_z] announces. *)
Theorem to_z_tracks_logits
  (logits : Tensor) (dist : string) (warn : bool) (w : world) (fam : family) :
  family_of dist = Some fam ->
  (fam <> Bernoulli -> has_last_axis (data logits) = true) ->
  exists z w',
    to_z logits dist warn w = (Ok z, w') /\
    requires_grad z = true /\
    reaches z = requires_grad logits /\
    (requires_grad logits = true ->
     forall create_graph w1, exists d,
       autograd_grad z logits (ones_like (data z)) create_graph w1 = (Ok d, w1) /\
       shape (data d) = shape (data logits)) /\
    (requires_grad logits = false ->
     forall seed create_graph w1, exists msg,
       autograd_grad z logits seed create_graph w1 = (Raise (RuntimeError msg), w1)).
Proof.
  intros Hfam Hax.
  destruct (to_z_reaches logits dist warn w fam Hfam Hax) as [z [w' [Hrun [Hs [Hrq Hre]]]]].
  exists z, w'. split; [exact Hrun |]. split; [exact Hrq |]. split; [exact Hre |].
  split.
  - intros Hl create_graph w1. rewrite Hl in Hre.
    destruct (reaches_node z Hre) as [n [Hn Hrn]].
    eexists. split.
    + eapply autograd_grad_run; [exact Hn | exact Hl | exact Hrn | apply shape_ones_like].
    + cbn [data]. apply shape_vjp.
  - intros Hl seed create_graph w1. unfold autograd_grad.
    destruct (autograd z) as [n |] eqn:Hn; [| eexists; reflexivity].
    rewrite Hl. cbn [negb]. eexists. reflexivity.
Qed.

Lemma to_z_tracks_logits_example :
  exists z w',
    to_z (constant (Full [[0; 0]])) "cat" false quiet = (Ok z, w') /\
    requires_grad z = true /\ reaches z = false.
Proof.
  destruct (to_z_tracks_logits (constant (Full [[0; 0]])) "cat" false quiet Categorical)
    as [z [w' [Hrun [Hrq [Hre _]]]]].
  - reflexivity.
  - reflexivity.
  - exists z, w'. split; [exact Hrun |]. split; [exact Hrq | exact Hre].
Defined.

Lemma argmax_inv t keepdim w r w' :
  argmax t keepdim w = (Ok r, w') -> w' = w /\ autograd r = None.
Proof.
  unfold argmax. destruct (data t) as [rows | xs]; [| discriminate].
  destruct (forallb nonempty rows); [| discriminate].
  intros H. inversion H. split; reflexivity.
Qed.

Lemma scatter_inv self index v w r w' :
  scatter_ self index v w = (Ok r, w') ->
  w' = w /\ requires_grad r = requires_grad self.
Proof.
  unfold scatter_. destruct (data self) as [rows | xs]; [| discriminate].
  destruct (data index) as [irows | ixs]; [| discriminate].
  destruct (forallb2 indices_ok rows irows); [| discriminate].
  intros H. inversion H. split; [reflexivity | apply requires_grad_op1].
Qed.

(** X3.  Whenever [to_b] returns, for any tag and any surrogate, tracked
    or not, the sample it returns does not require gradient, and nothing
    else has happened: no draw, no warning. *)
Theorem to_b_returns_untracked_sample
  (z : Tensor) (dist : string) (w : world) (b : Tensor) (w' : world) :
  to_b z dist w = (Ok b, w') ->
  w' = w /\ requires_grad b = false.
Proof.
  unfold to_b.
  destruct (in_set dist BERNOULLI_SYNONYMS).
  { intros H. inversion H. split; reflexivity. }
  destruct (in_set dist CATEGORICAL_SYNONYMS).
  { intros H. apply argmax_inv in H. destruct H as [-> Ha].
    split; [reflexivity | unfold requires_grad; now rewrite Ha]. }
  destruct (in_set dist ONEHOT_SYNONYMS); [| discriminate].
  unfold bind. destruct (argmax z true w) as [[index | e] w1] eqn:E; [| discriminate].
  apply argmax_inv in E. destruct E as [-> _].
  intros H. apply scatter_inv in H. destruct H as [-> Hr].
  split; [reflexivity | exact Hr].
Qed.

Lemma to_b_returns_untracked_sample_example :
  to_b (leaf (Full [[0; 1]])) "bern" quiet
  = (Ok (gt_zero (leaf (Full [[0; 1]]))), quiet) /\
  requires_grad (gt_zero (leaf (Full [[0; 1]]))) = false.
Proof.
  split; [reflexivity |].
  refine (proj2 (to_b_returns_untracked_sample
                   (leaf (Full [[0; 1]])) "bern" quiet _ quiet _)).
  reflexivity.
Defined.

(** ** Tags *)

Lemma family_tests dist fam :
  family_of dist = Some fam ->
  in_set dist BERNOULLI_SYNONYMS
  = match fam with Bernoulli => true | _ => false end /\
  in_set dist CATEGORICAL_SYNONYMS
  = match fam with Categorical => true | _ => false end /\
  in_set dist ONEHOT_SYNONYMS
  = match fam with OneHotCategorical => true | _ => false end.
Proof.
  intros H. pose proof (synonyms_disjoint dist) as [HB HC]. destruct fam.
  - apply family_of_Bernoulli in H. destruct (HB H) as [H1 H2]. now rewrite H, H1, H2.
  - apply family_of_Categorical in H. destruct H as [H1 H2].
    now rewrite H1, H2, (HC H2).
  - apply family_of_OneHot in H. destruct H as [H1 [H2 H3]]. now rewrite H1, H2, H3.
Qed.

(** X4.  The spellings of one family are interchangeable: two tags of the
    same family make [to_z], [to_b], [reinforce] and [relax] behave
    identically -- same result, same effects -- on all arguments. *)
Theorem synonyms_are_interchangeable (d1 d2 : string) (fam : family) :
  family_of d1 = Some fam ->
  family_of d2 = Some fam ->
  (forall logits warn w, to_z logits d1 warn w = to_z logits d2 warn w) /\
  (forall z w, to_b z d1 w = to_b z d2 w) /\
  (forall fb b logits w, reinforce fb b logits d1 w = reinforce fb b logits d2 w) /\
  (forall fb b logits z c components w,
      relax fb b logits z c d1 components w = relax fb b logits z c d2 components w).
Proof.
  intros H1 H2.
  destruct (family_tests d1 fam H1) as [B1 [C1 O1]].
  destruct (family_tests d2 fam H2) as [B2 [C2 O2]].
  repeat split; intros; destruct fam.
  all: unfold to_z, to_b, reinforce, relax, _to_z_tilde;
    rewrite ?in_set_app, ?B1, ?C1, ?O1, ?B2, ?C2, ?O2; reflexivity.
Qed.

Lemma synonyms_are_interchangeable_example :
  to_b (leaf (Full [[0; 1]])) "cat" quiet
  = to_b (leaf (Full [[0; 1]])) "Categorical" quiet.
Proof.
  exact (proj1 (proj2 (synonyms_are_interchangeable "cat" "Categorical" Categorical
                         eq_refl eq_refl))
           (leaf (Full [[0; 1]])) quiet).
Defined.

(** ** Construction of the control variate *)

(** X5.  With a positive start temperature and a tag outside the three
    families, the constructor of [REBARControlVariate] raises the
    [ValueError] that names the tag, and nothing else happens. *)
Theorem rebar_init_unknown_tag
  (f : Tensor -> M Tensor) (dist : string) (start_temp start_eta : R)
  (warn : bool) (w : world) :
  0 < start_temp ->
  family_of dist = None ->
  REBARControlVariate.__init__ f dist start_temp start_eta warn w
  = (Raise (ValueError ("Unknown distribution " ++ dist)%string), w).
Proof.
  intros Hpos Hnone. apply family_of_None in Hnone. destruct Hnone as [HB [HC HO]].
  unfold REBARControlVariate.__init__.
  destruct (Rle_dec start_temp 0) as [Hle | _]; [lra |].
  rewrite HB, HC, HO. reflexivity.
Qed.

Lemma rebar_init_unknown_tag_example :
  REBARControlVariate.__init__ (fun x => ret x) "poisson" 1 1 true quiet
  = (Raise (ValueError "Unknown distribution poisson"), quiet).
Proof.
  apply (rebar_init_unknown_tag (fun x => ret x) "poisson" 1 1 true quiet).
  - lra.
  - reflexivity.
Defined.

(** X6.  A construction that succeeds warns exactly when [warn] is set and
    the tag is one of the index-based categorical spellings; for the
    Bernoulli and one-hot spellings nothing is recorded.  No noise is
    drawn. *)
Theorem rebar_init_warns_for_index_tags
  (f : Tensor -> M Tensor) (dist : string) (start_temp start_eta : R)
  (warn : bool) (w : world) (fam : family) :
  0 < start_temp ->
  family_of dist = Some fam ->
  exists cv w' msg,
    REBARControlVariate.__init__ f dist start_temp start_eta warn w = (Ok cv, w') /\
    rng w' = rng w /\
    trace w'
    = trace w ++ (if warn && match fam with Categorical => true | _ => false end
                  then [Warning msg] else []).
Proof.
  intros Hpos Hfam. unfold REBARControlVariate.__init__.
  destruct (Rle_dec start_temp 0) as [Hle | _]; [lra |].
  destruct (family_tests dist fam Hfam) as [HB [HC HO]].
  rewrite HB, HC, HO. destruct fam.
  - do 3 eexists. split; [reflexivity |]. split; [reflexivity |].
    rewrite andb_false_r, app_nil_r. reflexivity.
  - destruct warn.
    + do 3 eexists. split; [reflexivity |]. split; reflexivity.
    + do 3 eexists. split; [reflexivity |]. split; [reflexivity |].
      simpl. now rewrite app_nil_r.
  - do 3 eexists. split; [reflexivity |]. split; [reflexivity |].
    rewrite andb_false_r, app_nil_r. reflexivity.
  Unshelve. all: exact EmptyString.
Qed.

Lemma rebar_init_warns_for_index_tags_example :
  exists cv w' msg,
    REBARControlVariate.__init__ (fun x => ret x) "cat" 1 1 true quiet = (Ok cv, w') /\
    trace w' = [Warning msg].
Proof.
  destruct (rebar_init_warns_for_index_tags (fun x => ret x) "cat" 1 1 true quiet
              Categorical) as [cv [w' [msg [Hrun [_ Htr]]]]].
  - lra.
  - reflexivity.
  - exists cv, w', msg. split; [exact Hrun | exact Htr].
Defined.



(** ** What the samples are *)

Lemma get_entrywise2 f a b i j :
  shape a = shape b -> valid (shape a) i j ->
  get_entry (entrywise2 f a b) i j = f (get_entry a i j) (get_entry b i j).
Proof.
  intros Hs Hv. rewrite <- tzip_same by assumption. now apply get_tzip_same.
Qed.

Lemma sigmoid_exp l : sigmoid l = exp l / (1 + exp l).
Proof.
  unfold sigmoid. rewrite exp_Ropp.
  pose proof (exp_pos l) as H. field. split; lra.
Qed.

Lemma logistic_threshold l u :
  0 < u < 1 ->
  (0 < l + ln u - ln (1 - u) <-> 1 - sigmoid l < u).
Proof.
  intros [Hu0 Hu1].
  pose proof (exp_pos l) as HE.
  assert (Hmid : 0 < l + ln u - ln (1 - u) <-> 1 - u < exp l * u).
  { replace (l + ln u) with (ln (exp l * u))
      by (rewrite ln_mult by assumption; now rewrite ln_exp).
    split; intros H.
    - apply ln_lt_inv; [lra | nra | lra].
    - assert (ln (1 - u) < ln (exp l * u)) by (apply ln_increasing; [lra | assumption]).
      lra. }
  rewrite Hmid, sigmoid_exp.
  assert (E : 1 - exp l / (1 + exp l) = / (1 + exp l)) by (field; lra).
  rewrite E. split; intros H.
  - apply (Rmult_lt_reg_r (1 + exp l)); [lra |].
    rewrite Rinv_l by lra. nra.
  - apply (Rmult_lt_compat_r (1 + exp l)) in H; [| lra].
    rewrite Rinv_l in H by lra. nra.
Qed.

(** X8.  Sampling for the Bernoulli family thresholds the noise: with [u]
    the clamped uniform draw of [to_z], the sample [to_b (to_z logits)] is 1
    exactly where [u > 1 - sigmoid(logits)] and 0 elsewhere, an event of
    probability [sigmoid(logits)] under a uniform draw. *)
Theorem bernoulli_sample_thresholds_noise
  (logits : Tensor) (dist : string) (warn : bool) (w : world) :
  family_of dist = Some Bernoulli ->
  exists z w1 b,
    to_z logits dist warn w = (Ok z, w1) /\
    to_b z dist w1 = (Ok b, w1) /\
    forall i j, valid (shape (data logits)) i j ->
      (1 - sigmoid (get_entry (data logits) i j)
       < get_entry (noise w (data logits)) i j ->
       get_entry (data b) i j = 1) /\
      (get_entry (noise w (data logits)) i j
       <= 1 - sigmoid (get_entry (data logits) i j) ->
       get_entry (data b) i j = 0).
Proof.
  intros Hfam.
  destruct (to_z_bernoulli logits dist warn w (proj1 (family_of_Bernoulli dist) Hfam))
    as [z [w1 [Hz [Hdz _]]]].
  destruct (to_b_spec z dist w1 Bernoulli Hfam) as [b [Hb [Hdb _]]];
    [intros H; now elim H |].
  exists z, w1, b. split; [exact Hz |]. split; [exact Hb |].
  intros i j Hv.
  assert (Hsz : shape (data z) = shape (data logits)).
  { rewrite Hdz. apply shape_injected, shape_noise. }
  assert (Hu := noise_unit w (data logits) i j Hv).
  assert (Hentry : get_entry (data b) i j
                   = gt0 (get_entry (data logits) i j
                          + ln (get_entry (noise w (data logits)) i j)
                          - ln (1 - get_entry (noise w (data logits)) i j))).
  { rewrite Hdb. cbn [discretize]. rewrite get_tmap by now rewrite Hsz.
    rewrite Hdz. cbn [injected].
    rewrite get_entrywise2; [reflexivity | now rewrite shape_noise | assumption]. }
  rewrite Hentry. unfold gt0.
  split; intros H.
  - apply (logistic_threshold _ _ Hu) in H.
    destruct (Rlt_dec 0 _); [reflexivity | contradiction].
  - destruct (Rlt_dec 0 _) as [Hp | _]; [| reflexivity].
    apply (logistic_threshold _ _ Hu) in Hp. lra.
Qed.

Lemma bernoulli_sample_thresholds_noise_example :
  exists z w1 b,
    to_z (leaf (Full [[0]])) "bern" true quiet = (Ok z, w1) /\
    to_b z "bern" w1 = (Ok b, w1).
Proof.
  destruct (bernoulli_sample_thresholds_noise (leaf (Full [[0]])) "bern" true quiet)
    as [z [w1 [b [Hz [Hb _]]]]].
  - reflexivity.
  - exists z, w1, b. split; assumption.
Defined.

Lemma argmax_from_max best bi i r :
  (argmax_from best bi i r = bi /\
   forall j, (j < List.length r)%nat -> nth j r 0 <= best) \/
  ((i <= argmax_from best bi i r < i + List.length r)%nat /\
   best < nth (argmax_from best bi i r - i) r 0 /\
   forall j, (j < List.length r)%nat ->
             nth j r 0 <= nth (argmax_from best bi i r - i) r 0).
Proof.
  revert best bi i. induction r as [| x r IH]; intros best bi i.
  - left. split; [reflexivity |]. simpl. intros j Hj. lia.
  - cbn [argmax_from]. destruct (Rlt_dec best x) as [Hlt | Hge].
    + right. destruct (IH x i (S i)) as [[Hm Hall] | [Hr [Hb Hall]]].
      * rewrite Hm. replace (i - i)%nat with 0%nat by lia. cbn [nth List.length].
        split; [lia |]. split; [assumption |].
        intros [| j] Hj; [lra | apply Hall; simpl in Hj; lia].
      * set (m := argmax_from x i (S i) r) in *.
        replace (m - i)%nat with (S (m - S i)) by lia. cbn [nth List.length].
        split; [lia |]. split; [lra |].
        intros [| j] Hj; [lra | apply Hall; simpl in Hj; lia].
    + destruct (IH best bi (S i)) as [[Hm Hall] | [Hr [Hb Hall]]].
      * left. split; [assumption |].
        intros [| j] Hj; cbn [nth]; [lra | apply Hall; simpl in Hj; lia].
      * right. set (m := argmax_from best bi (S i) r) in *.
        replace (m - i)%nat with (S (m - S i)) by lia. cbn [nth List.length].
        split; [lia |]. split; [assumption |].
        intros [| j] Hj; [lra | apply Hall; simpl in Hj; lia].
Qed.

Lemma argmax_row_max r j :
  (j < List.length r)%nat -> nth j r 0 <= nth (argmax_row r) r 0.
Proof.
  destruct r as [| x r]; [simpl; lia |]. intros Hj.
  unfold argmax_row.
  destruct (argmax_from_max x 0 1 r) as [[Hm Hall] | [Hr [Hb Hall]]].
  - rewrite Hm. destruct j as [| j]; cbn [nth]; [lra |].
    apply Hall. simpl in Hj. lia.
  - set (m := argmax_from x 0 1 r) in *.
    assert (E : nth m (x :: r) 0 = nth (m - 1) r 0).
    { destruct m as [| m']; [lia |]. simpl. now rewrite Nat.sub_0_r. }
    rewrite E.
    destruct j as [| j]; cbn [nth]; [lra |].
    apply Hall. simpl in Hj. lia.
Qed.

(** X9.  Sampling for the two categorical families is the Gumbel-max
    trick on the logits as given: the category that [to_b (to_z logits)]
    selects in a row -- the index of the sample, or the position of the 1
    of its one-hot row -- maximises [logits + gumbel(u)] over the row, the
    normalisation of the logits playing no part. *)
Theorem categorical_sample_is_gumbel_max
  (logits : Tensor) (dist : string) (warn : bool) (w : world) (fam : family) :
  family_of dist = Some fam ->
  fam <> Bernoulli ->
  has_last_axis (data logits) = true ->
  (forall i, (i < nrows (shape (data logits)))%nat ->
             (0 < width (shape (data logits)) i)%nat) ->
  exists z w1 b,
    to_z logits dist warn w = (Ok z, w1) /\
    to_b z dist w1 = (Ok b, w1) /\
    data b = discretize fam (data z) /\
    forall i, (i < nrows (shape (data logits)))%nat ->
      let k := argmax_row (row (data z) i) in
      (k < width (shape (data logits)) i)%nat /\
      forall j, (j < width (shape (data logits)) i)%nat ->
        get_entry (data logits) i j + gumbel (get_entry (noise w (data logits)) i j)
        <= get_entry (data logits) i k + gumbel (get_entry (noise w (data logits)) i k).
Proof.
  intros Hfam Hne Hax Hw.
  assert (Hin : in_set dist BERNOULLI_SYNONYMS = false /\
                in_set dist CATEGORICAL_SYNONYMS || in_set dist ONEHOT_SYNONYMS = true).
  { destruct fam; [now elim Hne | |].
    - apply family_of_Categorical in Hfam. destruct Hfam as [-> ->]. split; reflexivity.
    - apply family_of_OneHot in Hfam. destruct Hfam as [-> [_ ->]].
      split; [reflexivity | apply orb_true_r]. }
  destruct Hin as [HB HC].
  destruct (to_z_categorical logits dist warn w HB HC Hax) as [z [w1 [Hz [Hdz _]]]].
  assert (Hsz : shape (data z) = shape (data logits)).
  { rewrite Hdz. rewrite shape_entrywise2; shapes. }
  assert (Hzw : fam <> Bernoulli ->
            has_last_axis (data z) = true /\
            forall i, (i < nrows (shape (data z)))%nat ->
                      (0 < width (shape (data z)) i)%nat).
  { intros _. rewrite Hsz, (has_last_axis_shape _ _ Hsz). split; assumption. }
  destruct (to_b_spec z dist w1 fam Hfam Hzw) as [b [Hb [Hdb _]]].
  exists z, w1, b. split; [exact Hz |]. split; [exact Hb |]. split; [exact Hdb |].
  intros i Hi k.
  destruct (data logits) as [rows | xs] eqn:El; [| discriminate].
  rewrite nrows_Full in Hi. rewrite width_Full by assumption.
  specialize (Hw i). rewrite nrows_Full, width_Full in Hw by assumption.
  specialize (Hw Hi).
  assert (Hz_full : exists zrows, data z = Full zrows).
  { destruct (data z); [eauto | discriminate]. }
  destruct Hz_full as [zrows Ezr].
  assert (Hlen : List.length (nth i zrows []) = List.length (nth i rows [])).
  { rewrite Ezr in Hsz. destruct (shape_Full_inj zrows rows Hsz) as [_ Hr]. apply Hr. }
  assert (Hzi : forall j, (j < List.length (nth i rows []))%nat ->
            nth j (nth i zrows []) 0
            = get_entry (Full rows) i j + gumbel (get_entry (noise w (Full rows)) i j)
              - ln (Rsum (map exp (nth i rows [])))).
  { intros j Hj.
    change (nth j (nth i zrows []) 0) with (get_entry (Full zrows) i j).
    rewrite <- Ezr, Hdz.
    rewrite get_entrywise2.
    - rewrite get_rowwise by assumption.
      rewrite nth_log_softmax_row by assumption. unfold gumbel. cbn [get_entry]. ring.
    - shapes.
    - rewrite shape_rowwise by apply length_log_softmax_row.
      apply valid_Full. split; assumption. }
  subst k. rewrite Ezr. cbn [row].
  assert (Hk : (argmax_row (nth i zrows []) < List.length (nth i rows []))%nat).
  { rewrite <- Hlen. apply argmax_row_lt. apply nonempty_of_length. lia. }
  split; [exact Hk |].
  intros j Hj.
  pose proof (argmax_row_max (nth i zrows []) j ltac:(lia)) as Hmax.
  rewrite (Hzi j Hj), (Hzi _ Hk) in Hmax. lra.
Qed.

Lemma categorical_sample_is_gumbel_max_example :
  exists z w1 b,
    to_z (leaf (Full [[0; 1]])) "cat" true quiet = (Ok z, w1) /\
    to_b z "cat" w1 = (Ok b, w1) /\
    data b = discretize Categorical (data z).
Proof.
  destruct (categorical_sample_is_gumbel_max (leaf (Full [[0; 1]])) "cat" true quiet
              Categorical) as [z [w1 [b [Hz [Hb [Hd _]]]]]].
  - reflexivity.
  - discriminate.
  - reflexivity.
  - intros i Hi. simpl in Hi. assert (i = 0%nat) by lia. subst i. simpl. lia.
  - exists z, w1, b. repeat split; assumption.
Defined.

(** ** Only the softmax of the logits matters *)

Lemma Rsum_exp_shift c r :
  Rsum (map exp (map (fun x => x + c) r)) = exp c * Rsum (map exp r).
Proof.
  induction r as [| x r IH]; simpl.
  - ring.
  - unfold Rsum in *. simpl. rewrite IH, exp_plus. ring.
Qed.

Lemma nonempty_of_In (x : R) r : In x r -> nonempty r = true.
Proof. destruct r; [contradiction | reflexivity]. Qed.

Lemma softmax_row_shift c r :
  softmax_row (map (fun x => x + c) r) = softmax_row r.
Proof.
  unfold softmax_row. rewrite map_map, Rsum_exp_shift.
  apply map_ext_in. intros x Hx.
  pose proof (Rsum_exp_pos r (nonempty_of_In x r Hx)) as HS.
  pose proof (exp_pos c) as Hc.
  rewrite exp_plus. field. split; lra.
Qed.

Lemma log_softmax_row_shift c r :
  log_softmax_row (map (fun x => x + c) r) = log_softmax_row r.
Proof.
  unfold log_softmax_row. rewrite map_map, Rsum_exp_shift.
  apply map_ext_in. intros x Hx.
  pose proof (Rsum_exp_pos r (nonempty_of_In x r Hx)) as HS.
  rewrite ln_mult by (assumption || apply exp_pos). rewrite ln_exp. ring.
Qed.

Lemma shape_shift_rows c t : shape (shift_rows c t) = shape t.
Proof.
  destruct t as [rows | xs]; [| reflexivity].
  unfold shift_rows, shape. f_equal. unfold mapi. generalize 0%nat.
  induction rows as [| r rows IH]; intros n; simpl; [reflexivity |].
  now rewrite IH, length_map.
Qed.

Lemma row_shift_rows c rows i :
  (i < List.length rows)%nat ->
  row (shift_rows c (Full rows)) i = map (fun x => x + c i) (nth i rows []).
Proof.
  intros Hi. unfold shift_rows, row. now rewrite (nth_mapi _ rows i [] []).
Qed.

Lemma rowwise_shift_rows f c rows :
  (forall k r, f (map (fun x => x + k) r) = f r) ->
  rowwise f (shift_rows c (Full rows)) = rowwise f (Full rows).
Proof.
  intros Hf. unfold rowwise, shift_rows. f_equal. unfold mapi. generalize 0%nat.
  induction rows as [| r rows IH]; intros n; simpl; [reflexivity |].
  now rewrite IH, Hf.
Qed.

Lemma fill_shape src a b : shape a = shape b -> fill src a = fill src b.
Proof.
  intros Hs. apply tensor_ext.
  - now rewrite !shape_fill.
  - intros i j Hv. rewrite shape_fill in Hv.
    rewrite !get_fill by (rewrite <- ?Hs; assumption).
    destruct a, b; try discriminate; reflexivity.
Qed.

Lemma noise_shape w a b : shape a = shape b -> noise w a = noise w b.
Proof. intros Hs. unfold noise. now rewrite (fill_shape _ a b Hs). Qed.

Lemma world_eta (w : world) : {| rng := rng w; trace := trace w |} = w.
Proof. now destruct w. Qed.

(** X10.  For the two categorical families [to_z] depends on logits only
    through their softmax: adding a constant to every logit of a row, a
    different one for each row if need be, changes neither the surrogate
    returned nor the effects. *)
Theorem to_z_shift_invariant
  (logits logits' : Tensor) (dist : string) (warn : bool) (w : world)
  (fam : family) (c : nat -> R) :
  family_of dist = Some fam ->
  fam <> Bernoulli ->
  has_last_axis (data logits) = true ->
  data logits' = shift_rows c (data logits) ->
  requires_grad logits' = requires_grad logits ->
  exists z z' w',
    to_z logits dist warn w = (Ok z, w') /\
    to_z logits' dist warn w = (Ok z', w') /\
    data z' = data z.
Proof.
  intros Hfam Hne Hax Hd Hrq.
  assert (Hin : in_set dist BERNOULLI_SYNONYMS = false /\
                in_set dist CATEGORICAL_SYNONYMS || in_set dist ONEHOT_SYNONYMS = true).
  { destruct fam; [now elim Hne | |].
    - apply family_of_Categorical in Hfam. destruct Hfam as [-> ->]. split; reflexivity.
    - apply family_of_OneHot in Hfam. destruct Hfam as [-> [_ ->]].
      split; [reflexivity | apply orb_true_r]. }
  destruct Hin as [HB HC].
  assert (Hs : shape (data logits') = shape (data logits))
    by (rewrite Hd; apply shape_shift_rows).
  assert (Hax' : has_last_axis (data logits') = true)
    by now rewrite (has_last_axis_shape _ _ Hs).
  destruct (to_z_categorical logits dist warn w HB HC Hax) as [z [w1 [Hz [Hdz _]]]].
  destruct (to_z_categorical logits' dist warn w HB HC Hax') as [z' [w2 [Hz' [Hdz' _]]]].
  assert (Hw : w2 = w1).
  { destruct to_z_world as [msg Hworld].
    pose proof (Hworld logits dist warn w) as H1.
    pose proof (Hworld logits' dist warn w) as H2.
    rewrite Hz in H1. rewrite Hz' in H2. cbn [snd] in H1, H2.
    rewrite H1, H2, Hrq. unfold after_draw. now rewrite Hs. }
  subst w2. exists z, z', w1. split; [exact Hz |]. split; [exact Hz' |].
  rewrite Hdz, Hdz', (noise_shape w _ _ Hs), Hd.
  destruct (data logits) as [rows | xs]; [| discriminate].
  rewrite rowwise_shift_rows; [reflexivity |].
  intros k r. apply log_softmax_row_shift.
Qed.

Lemma to_z_shift_invariant_example :
  exists z z' w',
    to_z (leaf (Full [[0; 1]])) "onehot" true quiet = (Ok z, w') /\
    to_z (leaf (Full [[5; 6]])) "onehot" true quiet = (Ok z', w') /\
    data z' = data z.
Proof.
  apply (to_z_shift_invariant (leaf (Full [[0; 1]])) (leaf (Full [[5; 6]])) "onehot"
           true quiet OneHotCategorical (fun _ => 5)).
  - reflexivity.
  - discriminate.
  - reflexivity.
  - simpl. unfold shift_rows, mapi. simpl. do 3 f_equal; [| f_equal]; ring.
  - reflexivity.
Defined.

(** ** The score-function estimate of the categorical families *)

Lemma closed_score_shift fam c rows b i j :
  (i < List.length rows)%nat ->
  closed_score fam (shift_rows c (Full rows)) b i j
  = match fam with
    | Bernoulli => get_entry b i j - sigmoid (get_entry (shift_rows c (Full rows)) i j)
    | _ => closed_score fam (Full rows) b i j
    end.
Proof.
  intros Hi. destruct fam; unfold closed_score; [reflexivity | |];
    rewrite row_shift_rows by assumption; cbn [row];
    now rewrite softmax_row_shift.
Qed.

Lemma score_shift_rows fam c l b :
  fam <> Bernoulli ->
  has_last_axis l = true ->
  in_support fam (shape l) b ->
  score fam (shift_rows c l) b = score fam l b.
Proof.
  intros Hne Hax Hsup.
  assert (Hs : shape (shift_rows c l) = shape l) by apply shape_shift_rows.
  apply tensor_ext.
  - now rewrite !shape_score.
  - intros i j Hv. rewrite shape_score, Hs in Hv.
    rewrite (score_closed_form fam (shift_rows c l) b i j).
    + rewrite (score_closed_form fam l b i j); [| auto | assumption | assumption].
      destruct l as [rows | xs]; [| discriminate].
      rewrite closed_score_shift by (apply valid_Full in Hv; tauto).
      destruct fam; [now elim Hne | reflexivity | reflexivity].
    + intros _. now rewrite (has_last_axis_shape _ _ Hs).
    + now rewrite Hs.
    + now rewrite Hs.
Qed.

(** X11.  For the two categorical families the estimate of [reinforce]
    depends on logits only through their softmax: adding a constant to
    every logit of a row leaves the estimate unchanged. *)
Theorem reinforce_shift_invariant
  (fb b logits logits' : Tensor) (dist : string) (w : world)
  (fam : family) (c : nat -> R) :
  family_of dist = Some fam ->
  fam <> Bernoulli ->
  requires_grad logits = true ->
  requires_grad logits' = true ->
  has_last_axis (data logits) = true ->
  data logits' = shift_rows c (data logits) ->
  shape (data fb) = per_row (shape (data logits)) ->
  in_support fam (shape (data logits)) (data b) ->
  exists g,
    reinforce fb b logits dist w = (Ok g, w) /\
    reinforce fb b logits' dist w = (Ok g, w).
Proof.
  intros Hfam Hne Hrq Hrq' Hax Hd Hfb Hsup.
  assert (Hs : shape (data logits') = shape (data logits))
    by (rewrite Hd; apply shape_shift_rows).
  assert (Hc : compatible fam (shape (data logits)) (data fb) (data b)).
  { split; [destruct fam; [now elim Hne | assumption | assumption] |].
    now apply in_support_sample_ok. }
  eexists. split.
  - apply (reinforce_run fb b logits dist w fam); auto.
  - rewrite (reinforce_run fb b logits' dist w fam); auto.
    + rewrite Hd, score_shift_rows by assumption. reflexivity.
    + intros _. now rewrite (has_last_axis_shape _ _ Hs).
    + now rewrite Hs.
Qed.

Lemma reinforce_shift_invariant_example :
  exists g,
    reinforce (constant (Batch [2])) (constant (Batch [1]))
      (leaf (Full [[0; 0]])) "cat" quiet = (Ok g, quiet) /\
    reinforce (constant (Batch [2])) (constant (Batch [1]))
      (leaf (Full [[3; 3]])) "cat" quiet = (Ok g, quiet).
Proof.
  apply (reinforce_shift_invariant (constant (Batch [2])) (constant (Batch [1]))
           (leaf (Full [[0; 0]])) (leaf (Full [[3; 3]])) "cat" quiet Categorical
           (fun _ => 3)).
  - reflexivity.
  - discriminate.
  - reflexivity.
  - reflexivity.
  - reflexivity.
  - simpl. unfold shift_rows, mapi. simpl. do 3 f_equal; [| f_equal]; ring.
  - reflexivity.
  - exact categorical_sample_example.
Defined.

Lemma Rsum_map_seq_nth l :
  Rsum l = Rsum (map (fun j => nth j l 0) (seq 0 (List.length l))).
Proof.
  f_equal. apply (nth_ext _ _ 0 0).
  - now rewrite length_map, length_seq.
  - intros n Hn.
    rewrite (nth_map_in (fun j => nth j l 0) _ n 0 0%nat) by now rewrite length_seq.
    now rewrite seq_nth.
Qed.

Lemma Rsum_map_ext {A : Type} (f g : A -> R) l :
  (forall x, In x l -> f x = g x) -> Rsum (map f l) = Rsum (map g l).
Proof. intros H. f_equal. now apply map_ext_in. Qed.

Lemma Rsum_map_scal_minus {A : Type} a (f g : A -> R) l :
  Rsum (map (fun x => a * (f x - g x)) l)
  = a * (Rsum (map f l) - Rsum (map g l)).
Proof.
  induction l as [| x l IH]; unfold Rsum in *; simpl; [ring |].
  rewrite IH. ring.
Qed.

Lemma Rsum_one_hot k a n :
  Rsum (map (one_hot_entry k) (seq a n))
  = if (a <=? k)%nat && (k <? a + n)%nat then 1 else 0.
Proof.
  revert a. induction n as [| n IH]; intros a.
  - simpl. destruct (a <=? k)%nat eqn:E1; [| reflexivity].
    destruct (k <? a + 0)%nat eqn:E2; [| reflexivity].
    apply Nat.leb_le in E1. apply Nat.ltb_lt in E2. lia.
  - cbn [seq map]. unfold Rsum in *. cbn [fold_right]. rewrite IH.
    unfold one_hot_entry.
    destruct (Nat.eqb_spec a k) as [-> | Hak].
    + assert (E1 : (S k <=? k)%nat = false) by (apply Nat.leb_gt; lia).
      assert (E2 : (k <=? k)%nat = true) by (apply Nat.leb_le; lia).
      assert (E3 : (k <? k + S n)%nat = true) by (apply Nat.ltb_lt; lia).
      rewrite E1, E2, E3. simpl. ring.
    + destruct (a <=? k)%nat eqn:E1, (S a <=? k)%nat eqn:E1';
        destruct (k <? S a + n)%nat eqn:E2, (k <? a + S n)%nat eqn:E2';
        rewrite ?Nat.leb_le, ?Nat.leb_gt, ?Nat.ltb_lt, ?Nat.ltb_ge in *;
        simpl; try lia; ring.
Qed.

Lemma Rsum_map_div (S : R) r :
  Rsum (map (fun x => exp x / S) r) = Rsum (map exp r) / S.
Proof.
  induction r as [| x r IH]; unfold Rsum in *; simpl; [unfold Rdiv; ring |].
  rewrite IH. unfold Rdiv. ring.
Qed.

Lemma Rsum_softmax_row r : nonempty r = true -> Rsum (softmax_row r) = 1.
Proof.
  intros Hn. unfold softmax_row. rewrite Rsum_map_div.
  pose proof (Rsum_exp_pos r Hn). field. lra.
Qed.

Lemma support_category fam l b i :
  fam <> Bernoulli ->
  has_last_axis l = true ->
  in_support fam (shape l) b ->
  (i < nrows (shape l))%nat ->
  exists k, (k < width (shape l) i)%nat /\
    forall j, (j < width (shape l) i)%nat ->
      closed_score fam l b i j
      = one_hot_entry k j - nth j (softmax_row (row l i)) 0.
Proof.
  intros Hne Hax Hsup Hi. destruct fam; [now elim Hne | |].
  - destruct (proj2 Hsup i Hi) as [k [Hk Hb]]. exists k. split; [assumption |].
    intros j Hj. unfold closed_score. now rewrite Hb, index_of_INR.
  - destruct (proj2 Hsup i Hi) as [k [Hk Hb]]. exists k. split; [assumption |].
    intros j Hj. unfold closed_score. now rewrite Hb.
Qed.

(** X12.  For the two categorical families every row of the estimate of
    [reinforce] sums to zero: the estimate has no component along the
    direction that adds one constant to all logits of a row. *)
Theorem reinforce_rows_sum_to_zero
  (fb b logits : Tensor) (dist : string) (w : world) (fam : family) :
  family_of dist = Some fam ->
  fam <> Bernoulli ->
  requires_grad logits = true ->
  has_last_axis (data logits) = true ->
  shape (data fb) = per_row (shape (data logits)) ->
  in_support fam (shape (data logits)) (data b) ->
  exists g,
    reinforce fb b logits dist w = (Ok g, w) /\
    forall i, (i < nrows (shape (data logits)))%nat -> Rsum (row (data g) i) = 0.
Proof.
  intros Hfam Hne Hrq Hax Hfb Hsup.
  assert (Hc : compatible fam (shape (data logits)) (data fb) (data b)).
  { split; [destruct fam; [now elim Hne | assumption | assumption] |].
    now apply in_support_sample_ok. }
  eexists. split; [apply (reinforce_run fb b logits dist w fam); auto |].
  cbn [data]. intros i Hi.
  set (g := tzip Rmult (aligned fam (data fb)) (score fam (data logits) (data b))).
  assert (Hsg : shape g = shape (data logits)).
  { unfold g. rewrite shape_tzip.
    apply (mul_aligned_ok fam (data fb) _ (shape (data logits))).
    - intros _. now apply full_shape.
    - apply Hc.
    - apply shape_score. }
  assert (Hgax : has_last_axis g = true) by now rewrite (has_last_axis_shape _ _ Hsg).
  destruct (support_category fam (data logits) (data b) i Hne Hax Hsup Hi)
    as [k [Hk Hcs]].
  assert (Hlen : List.length (row g i) = width (shape (data logits)) i).
  { rewrite <- Hsg. destruct g as [grows | gs]; [| discriminate].
    rewrite width_Full; [reflexivity |]. rewrite <- nrows_Full, Hsg. assumption. }
  assert (Hwl : width (shape (data logits)) i = List.length (row (data logits) i)).
  { destruct (data logits) as [rows | xs]; [| discriminate].
    rewrite nrows_Full in Hi. now rewrite width_Full. }
  rewrite Rsum_map_seq_nth, Hlen.
  rewrite (Rsum_map_ext _
             (fun j => get_entry (data fb) i 0
                       * (one_hot_entry k j
                          - nth j (softmax_row (row (data logits) i)) 0))).
  - rewrite Rsum_map_scal_minus, Rsum_one_hot.
    assert (E1 : (0 <=? k)%nat = true) by (apply Nat.leb_le; lia).
    assert (E2 : (k <? 0 + width (shape (data logits)) i)%nat = true)
      by (apply Nat.ltb_lt; lia).
    rewrite E1, E2. cbn [andb].
    replace (width (shape (data logits)) i)
      with (List.length (softmax_row (row (data logits) i)))
      by (rewrite length_softmax_row; now symmetry).
    rewrite <- Rsum_map_seq_nth, Rsum_softmax_row; [ring |].
    apply nonempty_of_length. lia.
  - intros j Hj. apply in_seq in Hj.
    assert (Hv : valid (shape (data logits)) i j).
    { apply (proj2 (valid_iff (data logits) i j Hax)). split; [assumption | lia]. }
    rewrite <- (get_entry_row g i j Hgax). unfold g.
    rewrite (get_aligned_mul fam).
    + rewrite score_closed_form by auto. rewrite Hcs by lia.
      destruct (batch_of_per_row _ _ Hfb) as [xs Hxs]. rewrite Hxs. reflexivity.
    + intros _. rewrite (has_last_axis_shape _ (data logits)); [auto |].
      apply shape_score.
    + rewrite shape_score. apply Hc.
    + now rewrite shape_score.
Qed.

Lemma reinforce_rows_sum_to_zero_example :
  exists g,
    reinforce (constant (Batch [2])) (constant (Batch [1]))
      (leaf (Full [[0; 0]])) "cat" quiet = (Ok g, quiet) /\
    Rsum (row (data g) 0) = 0.
Proof.
  destruct (reinforce_rows_sum_to_zero (constant (Batch [2])) (constant (Batch [1]))
              (leaf (Full [[0; 0]])) "cat" quiet Categorical) as [g [Hrun Hsum]].
  - reflexivity.
  - discriminate.
  - reflexivity.
  - reflexivity.
  - reflexivity.
  - exact categorical_sample_example.
  - exists g. split; [exact Hrun |]. apply Hsum. simpl. lia.
Defined.

(** ** How the estimators compose *)

Lemma autograd_grad_variable output logits seed create_graph :
  autograd_grad output (variable logits) seed create_graph
  = autograd_grad output logits seed create_graph.
Proof.
  unfold autograd_grad. now rewrite requires_grad_variable, data_variable.
Qed.

(** [relax], step by step, on the values its calls return. *)
Lemma relax_steps fb b logits z c dist w fam zt cz czt w1 w2 w3 :
  family_of dist = Some fam ->
  requires_grad logits = true ->
  (fam <> Bernoulli -> has_last_axis (data logits) = true) ->
  shape (data fb) = match fam with Bernoulli => shape (data logits)
                                 | _ => per_row (shape (data logits)) end ->
  sample_ok fam (shape (data logits)) (data b) ->
  _to_z_tilde (variable logits) (detach b) dist w = (Ok zt, w1) ->
  invoke c z w1 = (Ok cz, w2) ->
  invoke c zt w2 = (Ok czt, w3) ->
  reaches cz = true ->
  reaches czt = true ->
  shape (data czt) = shape (data fb) ->
  exists diff dlog_pb dc_z dc_z_tilde,
    relax fb b logits z c dist true w
    = (Ok (Components diff dlog_pb dc_z dc_z_tilde), w3) /\
    data diff = aligned fam (tzip Rminus (data fb) (data czt)) /\
    requires_grad diff = true /\
    data dlog_pb = score fam (data logits) (data b) /\
    autograd_grad cz logits (ones_like (data cz)) true w3 = (Ok dc_z, w3) /\
    autograd_grad czt logits (ones_like (data czt)) true w3 = (Ok dc_z_tilde, w3) /\
    shape (data dc_z) = shape (data logits) /\
    shape (data dc_z_tilde) = shape (data logits).
Proof.
  intros Hfam Hreq Hax Hfb Hsup Hzt Hcz Hczt Hrcz Hrczt Hsczt.
  pose proof (log_prob_run fam logits b w3 Hreq Hax Hsup) as Hlp.
  destruct (reaches_node cz Hrcz) as [ncz [Hacz Hncz]].
  destruct (reaches_node czt Hrczt) as [nczt [Haczt Hnczt]].
  assert (Hdiff : shape (data fb) = shape (data czt)) by now symmetry.
  assert (Hsd : shape (data (op2 (tzip Rminus) (detach fb) czt)) = shape (data fb)).
  { simpl data. rewrite shape_tzip, <- Hdiff. apply sbcast_refl. }
  assert (Hrd : requires_grad (op2 (tzip Rminus) (detach fb) czt) = true).
  { apply requires_grad_op2_r. now apply requires_grad_of_reaches. }
  assert (Hgz : autograd_grad cz logits (ones_like (data cz)) true w3
                = (Ok {| data := vjp ncz (ones_like (data cz)) (data logits);
                         autograd := Some {| reaches_logits := true;
                                             replay := vjp ncz (ones_like (data cz)) |} |},
                   w3)).
  { unfold autograd_grad. rewrite Hacz, Hreq, Hncz. cbn [negb].
    now rewrite shape_ones_like, shape_eqb_refl. }
  assert (Hgzt : autograd_grad czt logits (ones_like (data czt)) true w3
                 = (Ok {| data := vjp nczt (ones_like (data czt)) (data logits);
                          autograd := Some {| reaches_logits := true;
                                              replay := vjp nczt (ones_like (data czt)) |} |},
                    w3)).
  { unfold autograd_grad. rewrite Haczt, Hreq, Hnczt. cbn [negb].
    now rewrite shape_ones_like, shape_eqb_refl. }
  unfold relax.
  erewrite bind_ok by exact Hzt.
  erewrite bind_ok by exact Hcz.
  erewrite bind_ok by exact Hczt.
  erewrite bind_ok by (apply binop_same; exact Hdiff).
  destruct fam; cbn [log_prob_of] in Hlp.
  - apply family_of_Bernoulli in Hfam. rewrite Hfam.
    erewrite bind_ok.
    2:{ unfold bind. rewrite Hlp. reflexivity. }
    cbv beta iota.
    erewrite bind_ok.
    2:{ eapply autograd_grad_run; [reflexivity | | reflexivity | apply shape_ones_like].
        now rewrite requires_grad_variable. }
    rewrite !autograd_grad_variable.
    erewrite bind_ok by exact Hgz.
    erewrite bind_ok by exact Hgzt.
    do 4 eexists. split; [reflexivity |].
    cbn [data]. rewrite !shape_vjp.
    split; [reflexivity |]. split; [exact Hrd |]. split; [reflexivity |].
    split; [exact Hgz |]. split; [exact Hgzt |]. split; reflexivity.
  - apply family_of_Categorical in Hfam. destruct Hfam as [HB HC]. rewrite HB, HC.
    destruct (batch_of_per_row (data (op2 (tzip Rminus) (detach fb) czt))
                (shape (data logits))) as [xs Hxs]; [now rewrite Hsd |].
    erewrite bind_ok.
    2:{ unfold bind. rewrite Hlp.
        rewrite (unsqueeze_run _ w3 xs) by exact Hxs. reflexivity. }
    cbv beta iota.
    erewrite bind_ok.
    2:{ eapply autograd_grad_run; [reflexivity | | reflexivity | apply shape_ones_like].
        now rewrite requires_grad_variable. }
    rewrite !autograd_grad_variable.
    erewrite bind_ok by exact Hgz.
    erewrite bind_ok by exact Hgzt.
    do 4 eexists. split; [reflexivity |].
    cbn [data]. rewrite !shape_vjp.
    split; [reflexivity |].
    split; [rewrite requires_grad_op1; exact Hrd |]. split; [reflexivity |].
    split; [exact Hgz |]. split; [exact Hgzt |]. split; reflexivity.
  - apply family_of_OneHot in Hfam. destruct Hfam as [HB [HC HO]].
    rewrite HB, HC, HO.
    destruct (batch_of_per_row (data (op2 (tzip Rminus) (detach fb) czt))
                (shape (data logits))) as [xs Hxs]; [now rewrite Hsd |].
    erewrite bind_ok.
    2:{ unfold bind. rewrite Hlp.
        rewrite (unsqueeze_run _ w3 xs) by exact Hxs. reflexivity. }
    cbv beta iota.
    erewrite bind_ok.
    2:{ eapply autograd_grad_run; [reflexivity | | reflexivity | apply shape_ones_like].
        now rewrite requires_grad_variable. }
    rewrite !autograd_grad_variable.
    erewrite bind_ok by exact Hgz.
    erewrite bind_ok by exact Hgzt.
    do 4 eexists. split; [reflexivity |].
    cbn [data]. rewrite !shape_vjp.
    split; [reflexivity |].
    split; [rewrite requires_grad_op1; exact Hrd |]. split; [reflexivity |].
    split; [exact Hgz |]. split; [exact Hgzt |]. split; reflexivity.
Qed.


Lemma shape_aligned_diff fb czt s :
  shape fb = per_row s -> shape czt = shape fb ->
  shape (unsqueeze_k (tzip Rminus fb czt)) = shape (unsqueeze_k fb).
Proof.
  intros Hfb Hsf.
  assert (Ht : shape (tzip Rminus fb czt) = shape fb)
    by (rewrite shape_tzip, Hsf; apply sbcast_refl).
  destruct (batch_of_per_row _ _ Hfb) as [xs ->].
  destruct (batch_of_per_row (tzip Rminus (Batch xs) czt) s) as [ys Hys];
    [now rewrite Ht |].
  rewrite Hys in *. rewrite !shape_unsqueeze_k.
  simpl in Ht. injection Ht as Ht. now rewrite Ht.
Qed.

Lemma relax_anatomy fb b logits z c dist w fam :
  family_of dist = Some fam ->
  requires_grad logits = true ->
  (fam <> Bernoulli -> has_last_axis (data logits) = true) ->
  shape (data fb) = match fam with Bernoulli => shape (data logits)
                                 | _ => per_row (shape (data logits)) end ->
  in_support fam (shape (data logits)) (data b) ->
  shape (data z) = shape (data logits) ->
  reaches z = true ->
  control_variate c fam (shape (data logits)) ->
  exists zt cz czt w2 w3 diff dlog_pb dc_z dc_z_tilde g,
    _to_z_tilde (variable logits) (detach b) dist w = (Ok zt, after_draw w logits) /\
    c z (invoked (after_draw w logits) z) = (Ok cz, w2) /\
    c zt (invoked w2 zt) = (Ok czt, w3) /\
    shape (data czt) = shape (data fb) /\
    relax fb b logits z c dist true w
    = (Ok (Components diff dlog_pb dc_z dc_z_tilde), w3) /\
    relax fb b logits z c dist false w = (Ok (Estimate g), w3) /\
    data diff = aligned fam (tzip Rminus (data fb) (data czt)) /\
    data dlog_pb = score fam (data logits) (data b) /\
    autograd_grad cz logits (ones_like (data cz)) true w3 = (Ok dc_z, w3) /\
    autograd_grad czt logits (ones_like (data czt)) true w3 = (Ok dc_z_tilde, w3) /\
    data g = tzip Rminus
               (tzip Rplus (tzip Rmult (data diff) (data dlog_pb)) (data dc_z))
               (data dc_z_tilde) /\
    shape (data g) = shape (data logits).
Proof.
  intros Hfam Hreq Hax Hfb Hsup Hz Hrz Hc.
  destruct (_to_z_tilde_run (variable logits) (detach b) dist w fam Hfam Hax Hsup)
    as [zt [Hzt [Hszt [Hrzt _]]]].
  specialize (Hrzt (reaches_variable logits Hreq)).
  change (after_draw w (variable logits)) with (after_draw w logits) in Hzt.
  destruct (Hc z (invoked (after_draw w logits) z) Hz Hrz)
    as [cz [w2 [Hcz [Hrcz Hscz]]]].
  destruct (Hc zt (invoked w2 zt) Hszt Hrzt) as [czt [w3 [Hczt [Hrczt Hsczt]]]].
  assert (Hsf : shape (data czt) = shape (data fb)) by now rewrite Hfb, Hsczt.
  destruct (relax_steps fb b logits z c dist w fam zt cz czt _ w2 w3
              Hfam Hreq Hax Hfb (in_support_sample_ok _ _ _ Hsup) Hzt
              (invoke_run c z _ cz w2 Hcz) (invoke_run c zt _ czt w3 Hczt)
              Hrcz Hrczt Hsf)
    as [diff [dlog_pb [dc_z [dc_z_tilde [Hrun [Hd [Hrd [Hl [Hgz [Hgzt [Hsz Hszt']]]]]]]]]]].
  destruct (combine_run fam (data fb) diff dlog_pb dc_z dc_z_tilde
              (shape (data logits)) w3) as [g [Hg [Hdata [Hshape _]]]]; try assumption.
  { intros H. apply full_shape. now apply Hax. }
  { rewrite Hd. destruct fam; cbn [aligned].
    - rewrite shape_tzip, Hsf. apply sbcast_refl.
    - apply (shape_aligned_diff _ _ (shape (data logits))); assumption.
    - apply (shape_aligned_diff _ _ (shape (data logits))); assumption. }
  { rewrite Hl. apply shape_score. }
  exists zt, cz, czt, w2, w3, diff, dlog_pb, dc_z, dc_z_tilde, g.
  repeat (split; [assumption |]).
  split.
  { rewrite relax_refines_components.
    erewrite bind_ok by exact Hrun.
    unfold reconstruct. erewrite bind_ok by exact Hg. reflexivity. }
  repeat (split; [assumption |]). assumption.
Qed.

(** X13.  On valid arguments [relax] draws the noise of the conditional
    surrogate once, then calls the control variate exactly twice: first on
    [z], then on the conditional surrogate [z_tilde]; nothing else of
    [relax] has an effect, whether the estimate or its components are asked
    for.  With a control variate that has no effect of its own, the trace
    gains the draw and the two invocations, in that order. *)
Theorem relax_calls_c_on_z_then_z_tilde
  (fb b logits z : Tensor) (c : Tensor -> M Tensor) (dist : string)
  (components : bool) (w : world) (fam : family) :
  family_of dist = Some fam ->
  requires_grad logits = true ->
  (fam <> Bernoulli -> has_last_axis (data logits) = true) ->
  shape (data fb) = match fam with Bernoulli => shape (data logits)
                                 | _ => per_row (shape (data logits)) end ->
  in_support fam (shape (data logits)) (data b) ->
  shape (data z) = shape (data logits) ->
  reaches z = true ->
  control_variate c fam (shape (data logits)) ->
  exists z_tilde c_z c_z_tilde w2 w3 e,
    _to_z_tilde (variable logits) (detach b) dist w
    = (Ok z_tilde, after_draw w logits) /\
    c z (invoked (after_draw w logits) z) = (Ok c_z, w2) /\
    c z_tilde (invoked w2 z_tilde) = (Ok c_z_tilde, w3) /\
    relax fb b logits z c dist components w = (Ok e, w3) /\
    ((forall x w', snd (c x w') = w') ->
     rng w3 = (fun k => rng w (S k)) /\
     trace w3 = trace w ++ [RandLike (shape (data logits)); Invoke z; Invoke z_tilde]).
Proof.
  intros Hfam Hreq Hax Hfb Hsup Hz Hrz Hc.
  destruct (relax_anatomy fb b logits z c dist w fam Hfam Hreq Hax Hfb Hsup Hz Hrz Hc)
    as (zt & cz & czt & w2 & w3 & diff & dlog_pb & dc_z & dc_z_tilde & g
        & Hzt & Hcz & Hczt & Hsf & Hrun & Hrun' & Hd & Hl & Hgz & Hgzt & Hg & Hsg).
  exists zt, cz, czt, w2, w3.
  exists (if components then Components diff dlog_pb dc_z dc_z_tilde else Estimate g).
  split; [exact Hzt |]. split; [exact Hcz |]. split; [exact Hczt |].
  split; [destruct components; assumption |].
  intros Hpure.
  pose proof (Hpure z (invoked (after_draw w logits) z)) as H2.
  pose proof (Hpure zt (invoked w2 zt)) as H3.
  rewrite Hcz in H2. rewrite Hczt in H3. cbn [snd] in H2, H3.
  subst w3 w2. simpl. split; [reflexivity |].
  rewrite <- !app_assoc. reflexivity.
Qed.

Lemma relax_calls_c_on_z_then_z_tilde_example :
  exists z_tilde w3 e,
    relax (constant (Full [[2]])) (constant (Full [[1]])) (leaf (Full [[0]]))
      (leaf (Full [[3]])) (fun x => ret x) "bern" false quiet = (Ok e, w3) /\
    trace w3 = [RandLike (SFull [1%nat]); Invoke (leaf (Full [[3]])); Invoke z_tilde].
Proof.
  destruct (relax_calls_c_on_z_then_z_tilde
              (constant (Full [[2]])) (constant (Full [[1]])) (leaf (Full [[0]]))
              (leaf (Full [[3]])) (fun x => ret x) "bern" false quiet Bernoulli)
    as (zt & cz & czt & w2 & w3 & e & _ & _ & _ & Hrun & Htr).
  - reflexivity.
  - reflexivity.
  - intros H. now elim H.
  - reflexivity.
  - exact bernoulli_sample_example.
  - reflexivity.
  - reflexivity.
  - apply identity_control_variate.
  - exists zt, w3, e. split; [exact Hrun |].
    apply Htr. intros x w'. reflexivity.
Defined.

(** X14.  [relax] is [reinforce] with a baseline, corrected: with
    [c_z = c(z)] and [c_z_tilde = c(z_tilde)] as [relax] obtains them, the
    estimate of [relax] is the estimate of [reinforce] for the objective
    [fb - c_z_tilde], plus the gradient of [c_z] with respect to logits,
    minus the gradient of [c_z_tilde], both for the all-ones seed. *)
Theorem relax_is_reinforce_with_baseline
  (fb b logits z : Tensor) (c : Tensor -> M Tensor) (dist : string)
  (w : world) (fam : family) :
  family_of dist = Some fam ->
  requires_grad logits = true ->
  (fam <> Bernoulli -> has_last_axis (data logits) = true) ->
  shape (data fb) = match fam with Bernoulli => shape (data logits)
                                 | _ => per_row (shape (data logits)) end ->
  in_support fam (shape (data logits)) (data b) ->
  shape (data z) = shape (data logits) ->
  reaches z = true ->
  control_variate c fam (shape (data logits)) ->
  exists z_tilde c_z c_z_tilde w2 w3 g d r dc_z dc_z_tilde,
    _to_z_tilde (variable logits) (detach b) dist w
    = (Ok z_tilde, after_draw w logits) /\
    c z (invoked (after_draw w logits) z) = (Ok c_z, w2) /\
    c z_tilde (invoked w2 z_tilde) = (Ok c_z_tilde, w3) /\
    relax fb b logits z c dist false w = (Ok (Estimate g), w3) /\
    sub fb c_z_tilde w3 = (Ok d, w3) /\
    reinforce d b logits dist w3 = (Ok r, w3) /\
    autograd_grad c_z logits (ones_like (data c_z)) true w3 = (Ok dc_z, w3) /\
    autograd_grad c_z_tilde logits (ones_like (data c_z_tilde)) true w3
    = (Ok dc_z_tilde, w3) /\
    data g = tzip Rminus (tzip Rplus (data r) (data dc_z)) (data dc_z_tilde).
Proof.
  intros Hfam Hreq Hax Hfb Hsup Hz Hrz Hc.
  destruct (relax_anatomy fb b logits z c dist w fam Hfam Hreq Hax Hfb Hsup Hz Hrz Hc)
    as (zt & cz & czt & w2 & w3 & diff & dlog_pb & dc_z & dc_z_tilde & g
        & Hzt & Hcz & Hczt & Hsf & Hrun & Hrun' & Hd & Hl & Hgz & Hgzt & Hg & Hsg).
  exists zt, cz, czt, w2, w3, g.
  exists (op2 (tzip Rminus) fb czt).
  eexists. exists dc_z, dc_z_tilde.
  split; [exact Hzt |]. split; [exact Hcz |]. split; [exact Hczt |].
  split; [exact Hrun' |].
  split; [apply binop_same; now symmetry |].
  split.
  { apply (reinforce_run _ b logits dist w3 fam); try assumption.
    split; [| now apply in_support_sample_ok].
    simpl data. rewrite shape_tzip, Hsf, sbcast_refl. exact Hfb. }
  split; [exact Hgz |]. split; [exact Hgzt |].
  rewrite Hg, Hd, Hl. reflexivity.
Qed.

Lemma relax_is_reinforce_with_baseline_example :
  exists g w3,
    relax (constant (Full [[2]])) (constant (Full [[1]])) (leaf (Full [[0]]))
      (leaf (Full [[3]])) (fun x => ret x) "bern" false quiet = (Ok (Estimate g), w3).
Proof.
  destruct (relax_is_reinforce_with_baseline
              (constant (Full [[2]])) (constant (Full [[1]])) (leaf (Full [[0]]))
              (leaf (Full [[3]])) (fun x => ret x) "bern" quiet Bernoulli)
    as (zt & cz & czt & w2 & w3 & g & d & r & dcz & dczt & _ & _ & _ & Hrun & _).
  - reflexivity.
  - reflexivity.
  - intros H. now elim H.
  - reflexivity.
  - exact bernoulli_sample_example.
  - reflexivity.
  - reflexivity.
  - apply identity_control_variate.
  - exists g, w3. exact Hrun.
Defined.

Lemma log_prob_run_untracked fam logits b w :
  requires_grad logits = false ->
  (fam <> Bernoulli -> has_last_axis (data logits) = true) ->
  sample_ok fam (shape (data logits)) (data b) ->
  log_prob_of fam (variable logits) (detach b) w
  = (Ok (constant (log_prob fam (data logits) (data b))), w).
Proof.
  intros Hreq Hax Hok.
  destruct logits as [dl [n0 |]]; [discriminate |]. simpl data in *.
  destruct fam; simpl log_prob_of.
  - unfold Bernoulli_log_prob. rewrite binop_same by (simpl data; now rewrite Hok).
    reflexivity.
  - rewrite Categorical_log_prob_run; [reflexivity | now apply Hax | exact Hok].
  - destruct Hok as [Hsh Hw].
    rewrite OneHotCategorical_log_prob_run; [reflexivity | now apply Hax | | ];
      assumption.
Qed.

(** X15.  [reinforce] needs logits that require gradient: on logits that
    do not, with a supported tag and arguments of compatible shapes, the
    log-probability it computes is not tracked and the call to
    [torch.autograd.grad] raises a [RuntimeError]; no estimate is
    returned. *)
Theorem reinforce_needs_tracked_logits
  (fb b logits : Tensor) (dist : string) (w : world) (fam : family) :
  family_of dist = Some fam ->
  requires_grad logits = false ->
  (fam <> Bernoulli -> has_last_axis (data logits) = true) ->
  compatible fam (shape (data logits)) (data fb) (data b) ->
  exists msg, reinforce fb b logits dist w = (Raise (RuntimeError msg), w).
Proof.
  intros Hfam Hreq Hax [Hfb Hok].
  pose proof (log_prob_run_untracked fam logits b w Hreq Hax Hok) as Hlp.
  unfold reinforce.
  destruct fam; cbn [log_prob_of] in Hlp.
  - apply family_of_Bernoulli in Hfam. rewrite Hfam.
    erewrite bind_ok.
    2:{ unfold bind. rewrite Hlp. reflexivity. }
    cbv beta iota. eexists. reflexivity.
  - apply family_of_Categorical in Hfam. destruct Hfam as [HB HC]. rewrite HB, HC.
    destruct (batch_of_per_row _ _ Hfb) as [xs Hxs].
    erewrite bind_ok.
    2:{ unfold bind. rewrite Hlp.
        rewrite (unsqueeze_run _ w xs) by exact Hxs. reflexivity. }
    cbv beta iota. eexists. reflexivity.
  - apply family_of_OneHot in Hfam. destruct Hfam as [HB [HC HO]].
    rewrite HB, HC, HO.
    destruct (batch_of_per_row _ _ Hfb) as [xs Hxs].
    erewrite bind_ok.
    2:{ unfold bind. rewrite Hlp.
        rewrite (unsqueeze_run _ w xs) by exact Hxs. reflexivity. }
    cbv beta iota. eexists. reflexivity.
Qed.

Lemma reinforce_needs_tracked_logits_example :
  exists msg,
    reinforce (constant (Full [[2]])) (constant (Full [[1]]))
      (constant (Full [[0]])) "bern" quiet = (Raise (RuntimeError msg), quiet).
Proof.
  apply (reinforce_needs_tracked_logits (constant (Full [[2]])) (constant (Full [[1]]))
           (constant (Full [[0]])) "bern" quiet Bernoulli).
  - reflexivity.
  - reflexivity.
  - intros H. now elim H.
  - split; reflexivity.
Defined.

Lemma reaches_with_parameter k x :
  reaches (REBARControlVariate.with_parameter k x) = reaches x.
Proof. reflexivity. Qed.

(** X16.  The forward pass of [REBARControlVariate] is a control variate
    in the sense [relax] expects whenever [f] is: if [f] maps a tracked
    tensor of the shape of [z] to a tracked tensor with one value per
    sample, so does the instance, for every value of its two parameters. *)
Theorem rebar_forward_is_control_variate
  (f : Tensor -> M Tensor) (dist : string) (start_temp start_eta : R)
  (warn : bool) (w0 w1 : world) (cv : REBARControlVariate.t) (fam : family)
  (log_temp eta : R) (s : shape_t) :
  REBARControlVariate.__init__ f dist start_temp start_eta warn w0 = (Ok cv, w1) ->
  family_of dist = Some fam ->
  (fam <> Bernoulli -> exists ds, s = SFull ds) ->
  control_variate f fam s ->
  control_variate (REBARControlVariate.forward (perturbed cv log_temp eta)) fam s.
Proof.
  intros Hinit Hfam Hs Hf.
  apply init_inv in Hinit. destruct Hinit as [_ [fam' [Hfam' ->]]].
  rewrite Hfam in Hfam'. inversion Hfam'. subst fam'. clear Hfam'.
  intros x w Hx Hrx.
  unfold REBARControlVariate.forward.
  cbn [perturbed REBARControlVariate.log_temp REBARControlVariate.eta
       REBARControlVariate._bernoulli REBARControlVariate.f].
  set (zt := REBARControlVariate.with_parameter (tmap (fun v => v / exp log_temp)) x).
  assert (Hszt : shape (data zt) = s) by (unfold zt; simpl data; now rewrite shape_tmap).
  assert (Hrzt : reaches zt = true) by exact Hrx.
  assert (Hcat : fam <> Bernoulli ->
            exists y w',
              (s0 <- softmax zt ;;
               y <- f s0 ;;
               ret (REBARControlVariate.with_parameter (tmap (fun v => eta * v)) y)) w
              = (Ok y, w') /\ reaches y = true /\ shape (data y) = per_row s).
  { intros Hne. destruct (Hs Hne) as [ds Hds].
    assert (Hax : has_last_axis (data zt) = true).
    { destruct (data zt); [reflexivity |]. rewrite Hds in Hszt. discriminate. }
    erewrite bind_ok by (apply last_axis_run; exact Hax).
    destruct (Hf (op1 (rowwise softmax_row) zt) w) as [y [w' [Hy [Hry Hsy]]]].
    - simpl data. rewrite shape_rowwise by apply length_softmax_row. exact Hszt.
    - now rewrite reaches_op1.
    - erewrite bind_ok by exact Hy.
      do 2 eexists. split; [reflexivity |]. split; [exact Hry |].
      simpl data. rewrite shape_tmap.
      destruct fam; [now elim Hne | exact Hsy | exact Hsy]. }
  destruct fam.
  - destruct (Hf (tsigmoid zt) w) as [y [w' [Hy [Hry Hsy]]]].
    + simpl data. now rewrite shape_tmap.
    + unfold tsigmoid, pointwise. now rewrite reaches_op1.
    + erewrite bind_ok by exact Hy.
      do 2 eexists. split; [reflexivity |]. split; [exact Hry |].
      simpl data. now rewrite shape_tmap.
  - apply Hcat. discriminate.
  - apply Hcat. discriminate.
Qed.

Lemma rebar_forward_is_control_variate_example :
  exists cv,
    REBARControlVariate.__init__ (fun x => ret x) "bern" 1 1 true quiet = (Ok cv, quiet) /\
    control_variate (REBARControlVariate.forward (perturbed cv 0 2)) Bernoulli
      (SFull [1%nat]).
Proof.
  eexists. split; [unfold REBARControlVariate.__init__;
                   destruct (Rle_dec 1 0); [lra | reflexivity] |].
  apply (rebar_forward_is_control_variate (fun x => ret x) "bern" 1 1 true quiet quiet).
  - unfold REBARControlVariate.__init__. destruct (Rle_dec 1 0); [lra | reflexivity].
  - reflexivity.
  - intros H. now elim H.
  - apply identity_control_variate.
Defined.

(** X17.  The sampling functions produce what the estimators expect: for
    logits that require gradient, [z = to_z logits] and [b = to_b z] are
    returned, and with them and any objective values [fb] of the
    documented shape, [reinforce] returns an estimate of the shape of
    logits, and so does [relax] for any control variate. *)
Theorem samples_feed_the_estimators
  (logits : Tensor) (dist : string) (warn : bool) (w : world) (fam : family) :
  family_of dist = Some fam ->
  requires_grad logits = true ->
  (fam <> Bernoulli ->
   has_last_axis (data logits) = true /\
   forall i, (i < nrows (shape (data logits)))%nat ->
             (0 < width (shape (data logits)) i)%nat) ->
  exists z w1 b,
    to_z logits dist warn w = (Ok z, w1) /\
    to_b z dist w1 = (Ok b, w1) /\
    forall fb w2,
      shape (data fb) = match fam with Bernoulli => shape (data logits)
                                     | _ => per_row (shape (data logits)) end ->
      (exists g, reinforce fb b logits dist w2 = (Ok g, w2) /\
                 shape (data g) = shape (data logits)) /\
      (forall c, control_variate c fam (shape (data logits)) ->
         exists g w3, relax fb b logits z c dist false w2 = (Ok (Estimate g), w3) /\
                      shape (data g) = shape (data logits)).
Proof.
  intros Hfam Hreq Hne.
  assert (Hax : fam <> Bernoulli -> has_last_axis (data logits) = true)
    by (intros H; now apply Hne).
  destruct (to_z_reaches logits dist warn w fam Hfam Hax)
    as [z [w1 [Hz [Hsz [_ Hrz]]]]].
  rewrite Hreq in Hrz.
  assert (Hzw : fam <> Bernoulli ->
            has_last_axis (data z) = true /\
            forall i, (i < nrows (shape (data z)))%nat ->
                      (0 < width (shape (data z)) i)%nat).
  { intros H. rewrite Hsz, (has_last_axis_shape _ _ Hsz). now apply Hne. }
  destruct (to_b_spec z dist w1 fam Hfam Hzw) as [b [Hb [Hdb _]]].
  destruct (discretize_in_support fam (data z) Hzw) as [Hsup _].
  rewrite <- Hdb, Hsz in Hsup.
  exists z, w1, b. split; [exact Hz |]. split; [exact Hb |].
  intros fb w2 Hfb. split.
  - eexists. split.
    + apply (reinforce_run fb b logits dist w2 fam); try assumption.
      split; [assumption | now apply in_support_sample_ok].
    + cbn [data]. rewrite shape_tzip.
      apply (mul_aligned_ok fam (data fb) _ (shape (data logits))).
      * intros H. apply full_shape. now apply Hax.
      * assumption.
      * apply shape_score.
  - intros c Hc.
    destruct (relax_anatomy fb b logits z c dist w2 fam Hfam Hreq Hax Hfb Hsup Hsz Hrz Hc)
      as (zt & cz & czt & w2' & w3 & diff & dlog_pb & dc_z & dc_z_tilde & g
          & _ & _ & _ & _ & _ & Hrun & _ & _ & _ & _ & _ & Hsg).
    exists g, w3. split; assumption.
Qed.

Lemma samples_feed_the_estimators_example :
  exists z w1 b g,
    to_z (leaf (Full [[0; 1]])) "onehot" true quiet = (Ok z, w1) /\
    to_b z "onehot" w1 = (Ok b, w1) /\
    reinforce (constant (Batch [2])) b (leaf (Full [[0; 1]])) "onehot" quiet
    = (Ok g, quiet).
Proof.
  destruct (samples_feed_the_estimators (leaf (Full [[0; 1]])) "onehot" true quiet
              OneHotCategorical) as (z & w1 & b & Hz & Hb & Hest).
  - reflexivity.
  - reflexivity.
  - intros _. split; [reflexivity |].
    intros i Hi. simpl in Hi. assert (i = 0%nat) by lia. subst i. simpl. lia.
  - destruct (Hest (constant (Batch [2])) quiet eq_refl) as [[g [Hg _]] _].
    exists z, w1, b, g. repeat split; assumption.
Defined.

(** ** Index samples and one-hot samples *)

Lemma gt0_0 : gt0 0 = 0.
Proof. unfold gt0. destruct (Rlt_dec 0 0); [lra | reflexivity]. Qed.

Lemma gt0_1 : gt0 1 = 1.
Proof. unfold gt0. destruct (Rlt_dec 0 1); [reflexivity | lra]. Qed.

Lemma shape_mapi_rows (f : nat -> list R -> list R) rows :
  (forall i r, List.length (f i r) = List.length r) ->
  map (@List.length R) (mapi f rows) = map (@List.length R) rows.
Proof.
  intros Hf. unfold mapi. generalize 0%nat.
  induction rows as [| r rows IH]; intros n; simpl; [reflexivity |].
  now rewrite IH, Hf.
Qed.

Lemma shape_one_hot l b : has_last_axis l = true -> shape (one_hot l b) = shape l.
Proof.
  destruct l as [rows | xs]; [intros _ | discriminate].
  unfold one_hot, shape. f_equal. apply shape_mapi_rows.
  intros i r. apply length_mapi.
Qed.

Lemma get_one_hot rows b i j :
  (i < List.length rows)%nat -> (j < List.length (nth i rows []))%nat ->
  get_entry (one_hot (Full rows) b) i j
  = one_hot_entry (index_of (get_entry b i 0)) j.
Proof.
  intros Hi Hj. unfold one_hot, get_entry at 1.
  rewrite (nth_mapi _ rows i [] []) by assumption.
  now rewrite (nth_mapi _ (nth i rows []) j 0 0) by assumption.
Qed.

Lemma discretize_fixed fam b :
  fam <> Categorical ->
  (fam <> Bernoulli -> has_last_axis b = true) ->
  in_support fam (shape b) b ->
  discretize fam b = b.
Proof.
  intros Hnc Hax Hsup. destruct fam; [| now elim Hnc |].
  - cbn [discretize]. apply tensor_ext; [apply shape_tmap |].
    intros i j Hv. rewrite shape_tmap in Hv. rewrite get_tmap by assumption.
    destruct (proj2 Hsup i j Hv) as [-> | ->]; [apply gt0_0 | apply gt0_1].
  - specialize (Hax ltac:(discriminate)).
    destruct b as [rows | xs]; [| discriminate]. cbn [discretize].
    destruct Hsup as [_ Hent].
    apply tensor_ext.
    + unfold shape. f_equal. rewrite map_map. apply map_ext.
      intros r. apply length_mapi.
    + intros i j Hv.
      assert (Hs : shape (Full (map (fun r => mapi (fun j _ => one_hot_entry (argmax_row r) j) r)
                                  rows)) = shape (Full rows)).
      { unfold shape. f_equal. rewrite map_map. apply map_ext.
        intros r. apply length_mapi. }
      rewrite Hs in Hv. apply valid_Full in Hv. destruct Hv as [Hi Hj].
      unfold get_entry.
      rewrite (nth_map_in _ rows i [] []) by assumption.
      rewrite (nth_mapi _ (nth i rows []) j 0 0) by assumption.
      specialize (Hent i). rewrite nrows_Full, width_Full in Hent by assumption.
      destruct (Hent Hi) as [k [Hk Hrow]].
      rewrite (argmax_row_one_hot (nth i rows []) k Hk).
      * symmetry. now apply Hrow.
      * intros j' Hj'. now apply Hrow.
Qed.

(** X18.  A Bernoulli sample and a one-hot sample are fixed points of
    [to_b]: discretising a tensor that already lies in the support of the
    family returns it unchanged, so that [to_b] is idempotent on what it
    produces for these two families. *)
Theorem to_b_fixes_samples
  (b : Tensor) (dist : string) (w : world) (fam : family) :
  family_of dist = Some fam ->
  fam <> Categorical ->
  (fam <> Bernoulli -> has_last_axis (data b) = true) ->
  in_support fam (shape (data b)) (data b) ->
  exists b', to_b b dist w = (Ok b', w) /\ data b' = data b.
Proof.
  intros Hfam Hnc Hax Hsup.
  assert (Hw : fam <> Bernoulli ->
            has_last_axis (data b) = true /\
            forall i, (i < nrows (shape (data b)))%nat ->
                      (0 < width (shape (data b)) i)%nat).
  { intros Hne. split; [now apply Hax |]. intros i Hi.
    destruct fam; [now elim Hne | now elim Hnc |].
    destruct (proj2 Hsup i Hi) as [k [Hk _]]. lia. }
  destruct (to_b_spec b dist w fam Hfam Hw) as [b' [Hrun [Hd _]]].
  exists b'. split; [exact Hrun |].
  rewrite Hd. now apply discretize_fixed.
Qed.

Lemma to_b_fixes_samples_example :
  exists b', to_b (constant (Full [[1]])) "bern" quiet = (Ok b', quiet) /\
             data b' = Full [[1]].
Proof.
  apply (to_b_fixes_samples (constant (Full [[1]])) "bern" quiet Bernoulli).
  - reflexivity.
  - discriminate.
  - intros H. now elim H.
  - exact bernoulli_sample_example.
Defined.

Lemma discretize_one_hot l b :
  has_last_axis l = true ->
  in_support Categorical (shape l) b ->
  in_support OneHotCategorical (shape l) (one_hot l b) /\
  discretize Categorical (one_hot l b) = b.
Proof.
  intros Hax [Hsh Hent].
  destruct l as [rows | xs]; [| discriminate].
  assert (Hrow : forall i, (i < List.length rows)%nat ->
            exists k, (k < List.length (nth i rows []))%nat /\
                      get_entry b i 0 = INR k /\
                      forall j, (j < List.length (nth i rows []))%nat ->
                        get_entry (one_hot (Full rows) b) i j = one_hot_entry k j).
  { intros i Hi. specialize (Hent i). rewrite nrows_Full, width_Full in Hent by assumption.
    destruct (Hent Hi) as [k [Hk Hb]]. exists k. split; [assumption |].
    split; [assumption |]. intros j Hj.
    rewrite get_one_hot by assumption. now rewrite Hb, index_of_INR. }
  split.
  - split; [now apply shape_one_hot |].
    intros i Hi. rewrite nrows_Full in Hi. rewrite width_Full by assumption.
    destruct (Hrow i Hi) as [k [Hk [_ Hoh]]]. exists k. split; assumption.
  - destruct (batch_of_per_row _ _ Hsh) as [bs ->].
    assert (Hlen : List.length bs = List.length rows).
    { simpl in Hsh. inversion Hsh as [Hl]. now rewrite length_map in Hl. }
    unfold one_hot. cbn [discretize]. f_equal.
    apply (nth_ext _ _ 0 0).
    + now rewrite length_map, length_mapi.
    + intros i Hi. rewrite length_map, length_mapi in Hi.
      rewrite (nth_map_in _ _ i 0 []) by now rewrite length_mapi.
      destruct (Hrow i Hi) as [k [Hk [Hb Hoh]]].
      change (nth i (mapi (fun i r => mapi (fun j _ =>
                one_hot_entry (index_of (get_entry (Batch bs) i 0)) j) r) rows) [])
        with (row (one_hot (Full rows) (Batch bs)) i).
      rewrite (argmax_row_one_hot _ k).
      * symmetry. exact Hb.
      * unfold one_hot, row. rewrite (nth_mapi _ rows i [] []) by assumption.
        now rewrite length_mapi.
      * intros j Hj.
        assert (Hj' : (j < List.length (nth i rows []))%nat).
        { unfold one_hot, row in Hj. rewrite (nth_mapi _ rows i [] []) in Hj by assumption.
          now rewrite length_mapi in Hj. }
        rewrite <- (Hoh j Hj'). reflexivity.
Qed.

(** X19.  The index-based and the one-hot spellings of the categorical
    family give the same score-function estimate: [reinforce] for a
    one-hot tag, on the one-hot encoding of a sample of indices, returns
    what [reinforce] for a categorical tag returns on the indices. *)
Theorem reinforce_one_hot_agrees_with_indices
  (fb b b' logits : Tensor) (d_cat d_onehot : string) (w : world) :
  family_of d_cat = Some Categorical ->
  family_of d_onehot = Some OneHotCategorical ->
  requires_grad logits = true ->
  has_last_axis (data logits) = true ->
  shape (data fb) = per_row (shape (data logits)) ->
  in_support Categorical (shape (data logits)) (data b) ->
  data b' = one_hot (data logits) (data b) ->
  exists g,
    reinforce fb b logits d_cat w = (Ok g, w) /\
    reinforce fb b' logits d_onehot w = (Ok g, w).
Proof.
  intros Hc Ho Hreq Hax Hfb Hsup Hb'.
  destruct (discretize_one_hot _ _ Hax Hsup) as [Hsup' Hdisc].
  eexists. split.
  - apply (reinforce_run fb b logits d_cat w Categorical); auto.
    split; [assumption | exact Hsup].
  - rewrite (reinforce_run fb b' logits d_onehot w OneHotCategorical); auto.
    + change (score OneHotCategorical (data logits) (data b'))
        with (score Categorical (data logits) (discretize Categorical (data b'))).
      now rewrite Hb', Hdisc.
    + split; [assumption |]. apply in_support_sample_ok. now rewrite Hb'.
Qed.

Lemma reinforce_one_hot_agrees_with_indices_example :
  exists g,
    reinforce (constant (Batch [2])) (constant (Batch [1]))
      (leaf (Full [[0; 0]])) "cat" quiet = (Ok g, quiet) /\
    reinforce (constant (Batch [2])) (constant (one_hot (Full [[0; 0]]) (Batch [1])))
      (leaf (Full [[0; 0]])) "onehot" quiet = (Ok g, quiet).
Proof.
  apply (reinforce_one_hot_agrees_with_indices).
  - reflexivity.
  - reflexivity.
  - reflexivity.
  - reflexivity.
  - reflexivity.
  - exact categorical_sample_example.
  - reflexivity.
Defined.

(** X20.  [to_b] for a one-hot tag returns the one-hot encoding of what
    it returns for a categorical tag: the two spellings select the same
    category in every row. *)
Theorem to_b_one_hot_encodes_indices
  (z : Tensor) (d_cat d_onehot : string) (w : world) :
  family_of d_cat = Some Categorical ->
  family_of d_onehot = Some OneHotCategorical ->
  has_last_axis (data z) = true ->
  (forall i, (i < nrows (shape (data z)))%nat -> (0 < width (shape (data z)) i)%nat) ->
  exists b b',
    to_b z d_cat w = (Ok b, w) /\
    to_b z d_onehot w = (Ok b', w) /\
    data b' = one_hot (data z) (data b).
Proof.
  intros Hc Ho Hax Hw.
  destruct (to_b_spec z d_cat w Categorical Hc) as [b [Hb [Hdb _]]]; [auto |].
  destruct (to_b_spec z d_onehot w OneHotCategorical Ho) as [b' [Hb' [Hdb' _]]]; [auto |].
  exists b, b'. split; [exact Hb |]. split; [exact Hb' |].
  rewrite Hdb, Hdb'.
  destruct (data z) as [rows | xs]; [| discriminate].
  cbn [discretize one_hot]. f_equal.
  apply (nth_ext _ _ [] []).
  - now rewrite length_map, length_mapi.
  - intros i Hi. rewrite length_map in Hi.
    rewrite (nth_map_in _ rows i [] []) by assumption.
    rewrite (nth_mapi _ rows i [] []) by assumption.
    unfold get_entry. rewrite (nth_map_in _ rows i 0 []) by assumption.
    now rewrite index_of_INR.
Qed.

Lemma to_b_one_hot_encodes_indices_example :
  exists b b',
    to_b (leaf (Full [[0; 1]])) "cat" quiet = (Ok b, quiet) /\
    to_b (leaf (Full [[0; 1]])) "onehot" quiet = (Ok b', quiet) /\
    data b' = one_hot (Full [[0; 1]]) (data b).
Proof.
  apply (to_b_one_hot_encodes_indices (leaf (Full [[0; 1]])) "cat" "onehot" quiet).
  - reflexivity.
  - reflexivity.
  - reflexivity.
  - intros i Hi. simpl in Hi. assert (i = 0%nat) by lia. subst i. simpl. lia.
Defined.

(** ** The conditional surrogate *)

(** X21.  The two spellings of the categorical family give the same
    conditional surrogate: for one draw of the noise, [_to_z_tilde] for a
    one-hot tag, on the one-hot encoding of a sample of indices, returns
    the values that [_to_z_tilde] for a categorical tag returns on the
    indices. *)
Theorem z_tilde_one_hot_agrees_with_indices
  (logits b b' : Tensor) (d_cat d_onehot : string) (w : world) :
  family_of d_cat = Some Categorical ->
  family_of d_onehot = Some OneHotCategorical ->
  has_last_axis (data logits) = true ->
  in_support Categorical (shape (data logits)) (data b) ->
  data b' = one_hot (data logits) (data b) ->
  exists zt zt',
    _to_z_tilde logits b d_cat w = (Ok zt, after_draw w logits) /\
    _to_z_tilde logits b' d_onehot w = (Ok zt', after_draw w logits) /\
    data zt' = data zt.
Proof.
  intros Hc Ho Hax Hsup Hb'.
  destruct (discretize_one_hot _ _ Hax Hsup) as [Hsup' _].
  apply family_of_Categorical in Hc. destruct Hc as [HcB HcC].
  apply family_of_OneHot in Ho. destruct Ho as [HoB [HoC HoO]].
  destruct logits as [[rows | xs] al]; [| discriminate].
  destruct b as [db ab]. destruct b' as [db' ab']. cbn [data] in *. subst db'.
  destruct Hsup as [Hsh Hent].
  destruct (batch_of_per_row _ _ Hsh) as [bs ->].
  assert (Hlen : List.length bs = List.length rows).
  { simpl in Hsh. inversion Hsh as [Hl]. now rewrite length_map in Hl. }
  assert (Hidx : forall i, (i < List.length rows)%nat ->
            exists k, (k < List.length (nth i rows []))%nat /\ nth i bs 0 = INR k).
  { intros i Hi. specialize (Hent i). rewrite nrows_Full, width_Full in Hent by assumption.
    exact (Hent Hi). }
  destruct (_to_z_tilde_categorical al ab rows bs d_cat w HcB HcC Hlen Hidx)
    as [zt [Hzt [Hszt [_ Hezt]]]].
  assert (Hoh : exists brows, one_hot (Full rows) (Batch bs) = Full brows) by (eexists; reflexivity).
  destruct Hoh as [brows Ebrows]. rewrite Ebrows in *.
  assert (Hsb : shape (Full brows) = shape (Full rows)) by apply Hsup'.
  assert (Hrows : forall i, (i < List.length rows)%nat ->
            exists k, (k < List.length (nth i rows []))%nat /\
              forall j, (j < List.length (nth i rows []))%nat ->
                        nth j (nth i brows []) 0 = one_hot_entry k j).
  { intros i Hi. destruct Hsup' as [_ H]. specialize (H i).
    rewrite nrows_Full, width_Full in H by assumption. exact (H Hi). }
  destruct (_to_z_tilde_onehot al ab' rows brows d_onehot w HoB HoC HoO Hsb Hrows)
    as [zt' [Hzt' [Hszt' [_ Hezt']]]].
  exists zt, zt'. split; [exact Hzt |]. split; [exact Hzt' |].
  apply tensor_ext; [now rewrite Hszt, Hszt' |].
  intros i j Hv. rewrite Hszt' in Hv. apply valid_Full in Hv. destruct Hv as [Hi Hj].
  destruct (Hidx i Hi) as [k [Hk Hbk]].
  rewrite (Hezt i k j Hi Hbk Hk Hj).
  apply (Hezt' i k j Hi); [| assumption | assumption].
  intros j' Hj'.
  change (nth j' (nth i brows []) 0) with (get_entry (Full brows) i j').
  rewrite <- Ebrows, get_one_hot by assumption.
  cbn [get_entry]. now rewrite Hbk, index_of_INR.
Qed.

Lemma z_tilde_one_hot_agrees_with_indices_example :
  exists zt zt' w',
    _to_z_tilde (leaf (Full [[0; 0]])) (constant (Batch [1])) "cat" quiet = (Ok zt, w') /\
    _to_z_tilde (leaf (Full [[0; 0]]))
      (constant (one_hot (Full [[0; 0]]) (Batch [1]))) "onehot" quiet = (Ok zt', w') /\
    data zt' = data zt.
Proof.
  destruct (z_tilde_one_hot_agrees_with_indices
              (leaf (Full [[0; 0]])) (constant (Batch [1]))
              (constant (one_hot (Full [[0; 0]]) (Batch [1]))) "cat" "onehot" quiet)
    as (zt & zt' & H1 & H2 & H3).
  - reflexivity.
  - reflexivity.
  - reflexivity.
  - exact categorical_sample_example.
  - reflexivity.
  - exists zt, zt', (after_draw quiet (leaf (Full [[0; 0]]))).
    repeat split; assumption.
Defined.




(** ** Where the control variate evaluates [f] *)



(** ** Magnitude of the score-function estimate *)

Lemma nth_le_Rsum l j :
  (forall x, In x l -> 0 <= x) -> (j < List.length l)%nat -> nth j l 0 <= Rsum l.
Proof.
  revert j. induction l as [| x l IH]; intros j Hpos Hj; [simpl in Hj; lia |].
  assert (Hl : forall y, In y l -> 0 <= y) by (intros y Hy; apply Hpos; now right).
  assert (Hx : 0 <= x) by (apply Hpos; now left).
  assert (Hs : 0 <= Rsum l).
  { clear -Hl. induction l as [| y l IH]; unfold Rsum in *; simpl; [lra |].
    assert (0 <= y) by (apply Hl; now left).
    assert (0 <= fold_right Rplus 0 l) by (apply IH; intros z Hz; apply Hl; now right).
    lra. }
  unfold Rsum in *. destruct j as [| j]; simpl.
  - lra.
  - assert (nth j l 0 <= fold_right Rplus 0 l) by (apply IH; [assumption | simpl in Hj; lia]).
    lra.
Qed.

Lemma softmax_row_le_1 r j :
  (j < List.length r)%nat -> nth j (softmax_row r) 0 <= 1.
Proof.
  intros Hj. rewrite nth_softmax_row by assumption.
  assert (HS : 0 < Rsum (map exp r)) by (apply Rsum_exp_pos, nonempty_of_length; lia).
  assert (Hle : exp (nth j r 0) <= Rsum (map exp r)).
  { rewrite <- (nth_map_in exp r j 0 0) by assumption.
    apply nth_le_Rsum; [| now rewrite length_map].
    intros x Hx. apply in_map_iff in Hx. destruct Hx as [y [<- _]].
    left. apply exp_pos. }
  apply (Rmult_le_reg_r (Rsum (map exp r))); [assumption |].
  unfold Rdiv. rewrite Rmult_assoc, Rinv_l by lra. lra.
Qed.

Lemma closed_score_bounded fam l b i j :
  (fam <> Bernoulli -> has_last_axis l = true) ->
  in_support fam (shape l) b ->
  valid (shape l) i j ->
  Rabs (closed_score fam l b i j) <= 1.
Proof.
  intros Hax Hsup Hv.
  assert (Hoh : forall k, one_hot_entry k j = 0 \/ one_hot_entry k j = 1).
  { intros k. unfold one_hot_entry. destruct (Nat.eqb j k); auto. }
  assert (Hcat : fam <> Bernoulli ->
            0 < nth j (softmax_row (row l i)) 0 <= 1 /\
            (i < nrows (shape l))%nat /\ (j < width (shape l) i)%nat).
  { intros Hne. specialize (Hax Hne).
    destruct (proj1 (valid_iff l i j Hax) Hv) as [Hi Hj].
    destruct l as [rows | xs]; [| discriminate].
    rewrite nrows_Full in Hi. rewrite width_Full in Hj by assumption. cbn [row].
    split; [split; [now apply softmax_row_pos | now apply softmax_row_le_1] |].
    rewrite nrows_Full, width_Full by assumption. split; assumption. }
  apply Rabs_le. destruct fam; unfold closed_score.
  - pose proof (sigmoid_pos (get_entry l i j)).
    destruct (proj2 Hsup i j Hv) as [-> | ->]; lra.
  - destruct (Hcat ltac:(discriminate)) as [Hsm _].
    destruct (Hoh (index_of (get_entry b i 0))) as [-> | ->]; lra.
  - destruct (Hcat ltac:(discriminate)) as [Hsm [Hi Hj]].
    destruct (proj2 Hsup i Hi) as [k [_ Hb]]. rewrite (Hb j Hj).
    destruct (Hoh k) as [-> | ->]; lra.
Qed.

(** X24.  No entry of the estimate of [reinforce] exceeds in magnitude the
    objective value it is computed from: the gradient of the log-probability
    of a sample of the support has entries between -1 and 1, for all three
    families and all logits. *)
Theorem reinforce_bounded_by_objective
  (fb b logits : Tensor) (dist : string) (w : world) (fam : family) :
  family_of dist = Some fam ->
  requires_grad logits = true ->
  (fam <> Bernoulli -> has_last_axis (data logits) = true) ->
  shape (data fb) = match fam with Bernoulli => shape (data logits)
                                 | _ => per_row (shape (data logits)) end ->
  in_support fam (shape (data logits)) (data b) ->
  exists g,
    reinforce fb b logits dist w = (Ok g, w) /\
    forall i j, valid (shape (data logits)) i j ->
      Rabs (get_entry (data g) i j) <= Rabs (get_entry (data fb) i j).
Proof.
  intros Hfam Hreq Hax Hfb Hsup.
  eexists. split.
  - apply (reinforce_run fb b logits dist w fam); try assumption.
    split; [assumption | now apply in_support_sample_ok].
  - cbn [data]. intros i j Hv.
    rewrite (get_aligned_mul fam).
    + rewrite score_closed_form by assumption.
      rewrite Rabs_mult.
      pose proof (closed_score_bounded fam (data logits) (data b) i j Hax Hsup Hv).
      pose proof (Rabs_pos (get_entry (data fb) i j)). nra.
    + intros Hne. rewrite (has_last_axis_shape _ (data logits)); [auto |].
      apply shape_score.
    + now rewrite shape_score.
    + now rewrite shape_score.
Qed.

Lemma reinforce_bounded_by_objective_example :
  exists g,
    reinforce (constant (Batch [2])) (constant (Batch [1]))
      (leaf (Full [[0; 0]])) "cat" quiet = (Ok g, quiet) /\
    Rabs (get_entry (data g) 0 1) <= Rabs 2.
Proof.
  destruct (reinforce_bounded_by_objective (constant (Batch [2])) (constant (Batch [1]))
              (leaf (Full [[0; 0]])) "cat" quiet Categorical) as [g [Hrun Hb]].
  - reflexivity.
  - reflexivity.
  - reflexivity.
  - reflexivity.
  - exact categorical_sample_example.
  - exists g. split; [exact Hrun |]. apply (Hb 0%nat 1%nat). simpl. lia.
Defined.

(** ** The surrogate as a function of logits *)

Lemma to_z_bernoulli_tracked logits dist warn w :
  in_set dist BERNOULLI_SYNONYMS = true ->
  requires_grad logits = true ->
  exists z n w',
    to_z logits dist warn w = (Ok z, w') /\
    autograd z = Some n /\
    reaches_logits n = true /\
    shape (data z) = shape (data logits) /\
    forall l,
      replay n l
      = tzip Rminus (tzip Rplus l (tmap ln (noise w (data logits))))
          (tmap log1p (tmap Ropp (noise w (data logits)))).
Proof.
  intros Hb Hreq. unfold to_z. rewrite Hb.
  match goal with
  | |- context [bind (if ?c then warn_ ?m else ret tt)] =>
      destruct (warning_step c m w) as [w1 [Hw Hr]]
  end.
  erewrite bind_ok by exact Hw.
  erewrite bind_ok by apply rand_like_run.
  erewrite bind_ok.
  2:{ erewrite bind_ok by (apply binop_same; shapes).
      apply binop_same. shapes. }
  destruct logits as [d [n0 |]]; [| discriminate].
  do 3 eexists. split; [reflexivity |]. split; [reflexivity |].
  split; [reflexivity |]. split; [simpl data; shapes |].
  intros l. cbn. rewrite Hr. reflexivity.
Qed.

(** X25.  For the Bernoulli family [to_z] shifts the noise by the logits
    and nothing more: the gradient of [z] with respect to logits that
    require gradient, for the all-ones seed, is the all-ones tensor. *)
Theorem to_z_bernoulli_gradient_is_ones
  (logits : Tensor) (dist : string) (warn : bool) (w : world) :
  family_of dist = Some Bernoulli ->
  requires_grad logits = true ->
  exists z w1 d,
    to_z logits dist warn w = (Ok z, w1) /\
    autograd_grad z logits (ones_like (data z)) false w1 = (Ok d, w1) /\
    data d = ones_like (data logits).
Proof.
  intros Hfam Hreq. apply family_of_Bernoulli in Hfam.
  destruct (to_z_bernoulli_tracked logits dist warn w Hfam Hreq)
    as (z & n & w1 & Hz & Hn & Hrn & Hsz & Hrep).
  exists z, w1. eexists. split; [exact Hz |]. split.
  - eapply autograd_grad_run; [exact Hn | exact Hreq | exact Hrn | apply shape_ones_like].
  - cbn [data]. unfold vjp.
    set (l := data logits) in *.
    set (u := noise w l) in *.
    assert (Hu : shape u = shape l) by apply shape_noise.
    set (A := tzip Rplus l (tmap ln u)).
    assert (HA : shape A = shape l)
      by (unfold A; rewrite shape_tzip, shape_tmap, Hu; apply sbcast_refl).
    set (Z := tzip Rminus A (tmap log1p (tmap Ropp u))).
    assert (HZ : shape Z = shape l)
      by (unfold Z; rewrite shape_tzip, !shape_tmap, HA, Hu; apply sbcast_refl).
    set (O := ones_like (data z)).
    assert (HO : shape O = shape l) by (unfold O; now rewrite shape_ones_like).
    set (T := tzip Rmult O Z).
    assert (HT : shape T = shape l)
      by (unfold T; rewrite shape_tzip, HO, HZ; apply sbcast_refl).
    apply tensor_ext; [now rewrite shape_gradient, shape_ones_like |].
    intros i j Hv. rewrite shape_gradient in Hv.
    rewrite get_gradient by assumption.
    unfold ones_like. rewrite get_tmap by assumption.
    apply Derive_unique.
    apply (derivable_pt_lim_ext _
             (fun s => tsum T - get_entry T i j
                       + 1 * (s + get_entry (tmap ln u) i j
                              - get_entry (tmap log1p (tmap Ropp u)) i j))).
    + intros s. rewrite Hrep. fold u.
      rewrite tzip_set_entry_l by (rewrite ?shape_tmap, ?Hu; (reflexivity || assumption)).
      fold A.
      rewrite tzip_set_entry_l
        by (rewrite ?shape_tmap, ?HA, ?Hu; (reflexivity || assumption)).
      fold Z.
      rewrite tzip_set_entry_r by (rewrite ?HO, ?HZ; (reflexivity || assumption)).
      fold T. rewrite tsum_set_entry by now rewrite HT.
      unfold O, ones_like. rewrite get_tmap by now rewrite Hsz. reflexivity.
    + replace 1 with (0 + 1 * (1 + 0 - 0)) at 1 by ring.
      apply (derivable_pt_lim_plus (fct_cte (tsum T - get_entry T i j))
               (mult_real_fct 1 (fun s => s + get_entry (tmap ln u) i j
                                          - get_entry (tmap log1p (tmap Ropp u)) i j))).
      * apply derivable_pt_lim_const.
      * apply derivable_pt_lim_scal.
        apply (derivable_pt_lim_minus
                 (fun s => s + get_entry (tmap ln u) i j)
                 (fct_cte (get_entry (tmap log1p (tmap Ropp u)) i j))).
        -- apply (derivable_pt_lim_plus id (fct_cte (get_entry (tmap ln u) i j))).
           ++ apply derivable_pt_lim_id.
           ++ apply derivable_pt_lim_const.
        -- apply derivable_pt_lim_const.
Qed.

Lemma to_z_bernoulli_gradient_is_ones_example :
  exists z w1 d,
    to_z (leaf (Full [[0; 3]])) "bern" true quiet = (Ok z, w1) /\
    autograd_grad z (leaf (Full [[0; 3]])) (ones_like (data z)) false w1 = (Ok d, w1) /\
    data d = Full [[1; 1]].
Proof.
  apply (to_z_bernoulli_gradient_is_ones (leaf (Full [[0; 3]])) "bern" true quiet).
  - reflexivity.
  - reflexivity.
Defined.


